(** * litellm/llms/base_llm/base_utils.py: a shallow embedding

    The module holds four pieces of code:
    - [BaseLLMModelInfo.get_rerank_cost], a price lookup with a fallback;
    - [_dict_to_response_format_helper] with its local [update_refs], which
      rewrites every ["$ref"] of a deep copy of a JSON schema;
    - [type_to_response_format_param], the entry point that classifies its
      argument;
    - [map_developer_role_to_system_role], a list transform.

    Python values are modelled as the interpreter has them: immutable atoms,
    and mutable containers (dict, list) that live in a heap and are named by
    their address, so that aliasing, cycles and object identity ([id], [is])
    are visible.  Exceptions are results. *)

From Stdlib Require Import ZArith Ascii String Floats.SpecFloat.
From stdpp Require Import ssreflect gmap strings list fin_maps pretty relations.

#[local] Set Warnings "-rewrite-rw,-clear-no-such-hyp".

Open Scope string_scope.
Open Scope list_scope.
Open Scope nat_scope.

(** ** Exceptions and results *)

Inductive exn_class :=
| AttributeError
| KeyError
| IndexError
| TypeError
| ValueError
| OverflowError
| RecursionError
| OtherException (name : string).

(** An exception carries its class and, where the source builds it, its
    message; the interpreter's own messages are not modelled ([None]). *)
Record exn := Exn { exn_cls : exn_class; exn_msg : option string }.

Inductive result (A : Type) :=
| Ok (x : A)
| Raise (e : exn).
Arguments Ok {A} x.
Arguments Raise {A} e.

Definition result_bind {A B} (f : A → result B) (r : result A) : result B :=
  match r with
  | Ok x => f x
  | Raise e => Raise e
  end.

#[global] Instance result_mbind : MBind result := @result_bind.
#[global] Instance result_mret : MRet result := @Ok.
#[global] Instance result_fmap : FMap result :=
  λ A B f r, match r with Ok x => Ok (f x) | Raise e => Raise e end.

Definition builtin_error {A} (c : exn_class) : result A := Raise (Exn c None).

(** ** Numbers

    Python's [int] is unbounded ([Z]); its [float] is IEEE 754 binary64,
    taken from the Standard Library's specification of floats. *)

Definition prec : Z := 53.
Definition emax : Z := 1024.

Inductive number :=
| NInt (z : Z)
| NFloat (f : spec_float).

(** The literal [0.0]. *)
Definition float_zero : number := NFloat (S754_zero false).

(** [float(z)] for an int: round to nearest even; ints beyond the largest
    double raise [OverflowError] ("int too large to convert to float"). *)
Definition int_to_float (z : Z) : result spec_float :=
  match binary_normalize prec emax z 0 false with
  | S754_infinity _ => builtin_error OverflowError
  | f => Ok f
  end.

(** [x * n] for a number [x] and an int [n]: exact on ints; on a float the
    int is converted first, then the doubles are multiplied (an overflowing
    product is [inf], not an error). *)
Definition py_mul (x : number) (n : Z) : result number :=
  match x with
  | NInt z => Ok (NInt (z * n))
  | NFloat f => g ← int_to_float n; Ok (NFloat (SFmul prec emax f g))
  end.

(** ** Rerank cost lookup *)

(** [ModelInfo] is a [TypedDict]; the field read here is declared
    [Optional[float]]: it is absent, [None], or a number. *)
Abbreviation ModelInfo := (gmap string (option number)).

Section Rerank.

(** [litellm.utils.get_model_info], defined outside this module: it returns
    the pricing entry of a model or raises. *)
Variable get_model_info : string → option string → result ModelInfo.

(** The [try]/[except Exception] around the lookup; the debug log line has
    no effect on the result and is left out. *)
Definition lookup_model_info (model : string) (custom_llm_provider : option string)
  : option ModelInfo :=
  match get_model_info model custom_llm_provider with
  | Ok model_info => Some model_info
  | Raise _ => None
  end.

Definition get_rerank_cost (model : string) (num_queries : Z)
    (custom_llm_provider : option string) : result (number * number) :=
  match lookup_model_info model custom_llm_provider with
  | None => Ok (float_zero, float_zero)
  | Some model_info =>
      match model_info !! "input_cost_per_query" with
      | None => Ok (float_zero, float_zero)
      | Some None => Ok (float_zero, float_zero)
      | Some (Some cost) =>
          prompt_cost ← py_mul cost num_queries;
          Ok (prompt_cost, float_zero)
      end
  end.

End Rerank.

(** ** Strings: [str.split] and [str.format] *)

(** [s.split(sep)] for a one-character separator: the pieces between the
    separators, at least one piece. *)
Fixpoint str_split (sep : ascii) (s : string) : list string :=
  match s with
  | EmptyString => [EmptyString]
  | String c s' =>
      if decide (c = sep) then EmptyString :: str_split sep s'
      else match str_split sep s' with
           | [] => [String c EmptyString]
           | piece :: pieces => String c piece :: pieces
           end
  end.

(** [l[-1]]: the last item, [IndexError] on an empty list. *)
Definition last_item {A} (l : list A) : result A :=
  match last l with
  | Some x => Ok x
  | None => builtin_error IndexError
  end.

(** [ref_path.split("/")[-1]] on a string. *)
Definition last_segment (ref_path : string) : result string :=
  last_item (str_split "/" ref_path).

(** Does the character occur in the string? *)
Fixpoint str_mem (c : ascii) (s : string) : bool :=
  match s with
  | EmptyString => false
  | String c' s' => bool_decide (c' = c) || str_mem c s'
  end.

Definition is_digit (c : ascii) : bool :=
  let n := nat_of_ascii c in (48 <=? n)%nat && (n <=? 57)%nat.

Fixpoint str_forallb (p : ascii → bool) (s : string) : bool :=
  match s with
  | EmptyString => true
  | String c s' => p c && str_forallb p s'
  end.

(** The value of a replacement field: the keyword [model] is the only
    argument, so a number or an empty name (a positional index) raises
    [IndexError] and any other name [KeyError]. *)
Definition format_field (field_name model : string) : result string :=
  if decide (field_name = "model") then Ok model
  else if str_forallb is_digit field_name then builtin_error IndexError
  else builtin_error KeyError.

Definition outside_fragment (c : ascii) : bool :=
  bool_decide (c = "!"%char) || bool_decide (c = ":"%char)
  || bool_decide (c = "."%char) || bool_decide (c = "["%char).

(** [template.format(model=name)] for a [str] name, on the templates made of
    literal text, the doubled braces ["{{"] and ["}}"], and replacement
    fields that hold a bare field name.  A field with a conversion (['!']),
    a format spec ([':']) or an accessor (['.'], ['[']) is outside this
    fragment: the function answers [OtherException "unmodelled"] there, which
    says nothing about the interpreter.  The development below takes the
    formatting function as a parameter; this one serves the examples.
    [field] is the name read so far inside a replacement field, [None]
    outside of one. *)
Fixpoint format_from (field : option string) (template model : string) : result string :=
  match field with
  | None =>
      match template with
      | EmptyString => Ok EmptyString
      | String "{" (String "{" rest) => String "{" <$> format_from None rest model
      | String "{" rest => format_from (Some EmptyString) rest model
      | String "}" (String "}" rest) => String "}" <$> format_from None rest model
      | String "}" _ => builtin_error ValueError
      | String c rest => String c <$> format_from None rest model
      end
  | Some field_name =>
      match template with
      | EmptyString => builtin_error ValueError
      | String "}" rest =>
          text ← format_field field_name model;
          tail ← format_from None rest model;
          Ok (text +:+ tail)
      | String "{" _ => builtin_error ValueError
      | String c rest =>
          if outside_fragment c then Raise (Exn (OtherException "unmodelled") None)
          else format_from (Some (field_name +:+ String c EmptyString)) rest model
      end
  end.

Definition str_format (template model : string) : result string :=
  format_from None template model.

(** ** Objects and the heap *)

(** Atoms are the immutable values a schema or a message holds, and class
    objects, of which only the name and whether the class derives from
    pydantic's [BaseModel] matter here. *)
Inductive atom :=
| ANone
| ABool (b : bool)
| ANum (n : number)
| AStr (s : string)
| AClass (name : string) (basemodel : bool).

Abbreviation addr := positive.

(** A value is an atom or a reference to a container; two references are
    the same object ([is], equal [id]) when their addresses are equal. *)
Inductive value :=
| VAtom (a : atom)
| VRef (l : addr).

Coercion VAtom : atom >-> value.

(** A dict keeps its items in insertion order, a list its elements. *)
Inductive obj :=
| ODict (items : list (string * value))
| OList (elems : list value).

(** The heap.  The interpreter has no reference without an object; where a
    function below looks up an address the heap does not hold, it treats it
    as an object that is neither a dict nor a list. *)
Abbreviation heap := (gmap addr obj).

(** A new object gets an address the heap does not use. *)
Definition alloc (h : heap) (o : obj) : heap * addr :=
  let l := fresh (dom h) in (<[l := o]> h, l).

(** [d.get(k)] and [k in d]. *)
Fixpoint dict_get (items : list (string * value)) (k : string) : option value :=
  match items with
  | [] => None
  | (k', v) :: items' => if decide (k' = k) then Some v else dict_get items' k
  end.

(** [d[k] = v]: the value of an existing key is replaced where it stands, a
    new key goes to the end. *)
Fixpoint dict_set (items : list (string * value)) (k : string) (v : value)
  : list (string * value) :=
  match items with
  | [] => [(k, v)]
  | (k', v') :: items' =>
      if decide (k' = k) then (k, v) :: items' else (k', v') :: dict_set items' k v
  end.

(** [isinstance(v, (dict, list))]: the heap holds dicts and lists only. *)
Definition is_container (v : value) : bool :=
  match v with
  | VRef _ => true
  | VAtom _ => false
  end.

(** The containers an object refers to, in item order. *)
Definition value_refs (vs : list value) : list addr :=
  omap (λ v, match v with VRef l => Some l | VAtom _ => None end) vs.

Definition obj_values (o : obj) : list value :=
  match o with
  | ODict items => items.*2
  | OList elems => elems
  end.

Definition obj_refs (o : obj) : list addr := value_refs (obj_values o).

Definition children (h : heap) (l : addr) : list addr :=
  match h !! l with
  | Some o => obj_refs o
  | None => []
  end.

(** [reachable h v l]: the container at [l] is [v] itself or is reached from
    it through items of dicts and elements of lists. *)
Definition edge (h : heap) (l l' : addr) : Prop := l' ∈ children h l.

Definition reachable (h : heap) (root : value) (l : addr) : Prop :=
  ∃ l0, root = VRef l0 ∧ rtc (edge h) l0 l.

(** ** The reference rewriter: [update_refs] *)

(** The second component of a stack entry: the keys and indices that lead
    to the node.  The source builds it and never reads it. *)
Inductive path_item :=
| PKey (k : string)
| PIndex (i : nat).

Abbreviation path := (list path_item).

(** What a run leaves: the heap, the nodes it processed, in order (the ones
    that passed the [visited] test; kept for the proofs, the source has no
    such list), and whether it returned or raised. *)
Record outcome := Outcome {
  out_heap : heap;
  out_visits : list addr;
  out_result : result ()
}.

Section Rewriter.

(** [template.format(model=name)], as the interpreter computes it. *)
Variable format : string → string → result string.

Variable ref_template : string.

(** [ref_path.split("/")[-1]]: only a [str] has [split]. *)
Definition model_name_of (ref_path : value) : result string :=
  match ref_path with
  | VAtom (AStr s) => last_segment s
  | _ => builtin_error AttributeError
  end.

(** The body of [if "$ref" in obj], on the items of [obj]. *)
Definition rewrite_ref (items : list (string * value)) : result (list (string * value)) :=
  match dict_get items "$ref" with
  | None => Ok items
  | Some ref_path =>
      model_name ← model_name_of ref_path;
      new_ref ← format ref_template model_name;
      Ok (dict_set items "$ref" (VAtom (AStr new_ref)))
  end.

(** The two [for] loops that push the container children.  The stack is a
    Python list used from its end; here its top is the head. *)
Definition push_items (p : path) (items : list (string * value))
    (stack : list (value * path)) : list (value * path) :=
  foldl (λ st kv, if is_container kv.2 then (kv.2, p ++ [PKey kv.1]) :: st else st)
        stack items.

Definition push_elems (p : path) (elems : list value)
    (stack : list (value * path)) : list (value * path) :=
  foldl (λ st iv, if is_container iv.2 then (iv.2, p ++ [PIndex iv.1]) :: st else st)
        stack (imap (λ i v, (i, v)) elems).

(** The [while stack:] loop; one unit of fuel per iteration.  An atom can
    only be the first entry (atoms are never pushed): its [id] goes into a
    set that is never asked about it, and nothing else happens.  When a dict
    has no ["$ref"], [rewrite_ref] hands back its items and the store below
    writes what is already there. *)
Fixpoint update_refs_loop (fuel : nat) (h : heap) (stack : list (value * path))
    (visited : gset addr) (visits : list addr) : option outcome :=
  match stack with
  | [] => Some (Outcome h visits (Ok ()))
  | (obj, p) :: stack =>
      match fuel with
      | O => None
      | S fuel =>
          match obj with
          | VAtom _ => update_refs_loop fuel h stack visited visits
          | VRef obj_id =>
              if decide (obj_id ∈ visited)
              then update_refs_loop fuel h stack visited visits
              else
                let visited := {[obj_id]} ∪ visited in
                let visits := visits ++ [obj_id] in
                match h !! obj_id with
                | Some (ODict items) =>
                    match rewrite_ref items with
                    | Raise e => Some (Outcome h visits (Raise e))
                    | Ok items =>
                        update_refs_loop fuel (<[obj_id := ODict items]> h)
                          (push_items p items stack) visited visits
                    end
                | Some (OList elems) =>
                    update_refs_loop fuel h (push_elems p elems stack) visited visits
                | None => update_refs_loop fuel h stack visited visits
                end
          end
      end
  end.

(** The number of references the heap stores: every iteration of the loop
    but the first consumes one of them. *)
Definition total_refs (h : heap) : nat :=
  map_fold (λ _ o n, length (obj_refs o) + n) 0 h.

Definition update_refs (h : heap) (schema : value) : option outcome :=
  update_refs_loop (S (total_refs h)) h [(schema, [])] ∅ [].

End Rewriter.

(** ** [copy.deepcopy] *)

(** The memo of a deep copy: from the [id] of an object to its copy. *)
Abbreviation memo := (gmap addr addr).

(** [y[k] = v] and [y.append(v)] on the object at [y]. *)
Definition heap_setitem (h : heap) (y : addr) (k : string) (v : value) : heap :=
  match h !! y with
  | Some (ODict items) => <[y := ODict (dict_set items k v)]> h
  | _ => h
  end.

Definition heap_append (h : heap) (y : addr) (v : value) : heap :=
  match h !! y with
  | Some (OList elems) => <[y := OList (elems ++ [v])]> h
  | _ => h
  end.

(** The loops of [_deepcopy_dict] and [_deepcopy_list], over the recursive
    call [rec].  An exception of a nested call ends the loop; the heap is
    then what the call left. *)
Fixpoint copy_items (rec : heap → memo → value → heap * result (memo * value))
    (y : addr) (items : list (string * value)) (h : heap) (m : memo)
  : heap * result memo :=
  match items with
  | [] => (h, Ok m)
  | (k, v) :: items =>
      match rec h m v with
      | (h, Raise e) => (h, Raise e)
      | (h, Ok (m, v')) => copy_items rec y items (heap_setitem h y k v') m
      end
  end.

Fixpoint copy_elems (rec : heap → memo → value → heap * result (memo * value))
    (y : addr) (elems : list value) (h : heap) (m : memo)
  : heap * result memo :=
  match elems with
  | [] => (h, Ok m)
  | v :: elems =>
      match rec h m v with
      | (h, Raise e) => (h, Raise e)
      | (h, Ok (m, v')) => copy_elems rec y elems (heap_append h y v') m
      end
  end.

(** [deepcopy(x, memo)]: an atom is its own copy; a container already in
    the memo yields the copy recorded there; otherwise an empty container
    is created and recorded before the items are copied into it, which is
    what makes shared and cyclic structure come out shared and cyclic.

    The function is recursive, one nested call per container inside a
    container, and the interpreter bounds the recursion: [depth] is the
    number of nested containers the stack has room for at the call.  A
    container met with no room left raises [RecursionError]; the empty
    containers created on the way stay in the heap. *)
Fixpoint deepcopy (depth : nat) (h : heap) (m : memo) (x : value)
  : heap * result (memo * value) :=
  match x with
  | VAtom _ => (h, Ok (m, x))
  | VRef l =>
      match m !! l with
      | Some y => (h, Ok (m, VRef y))
      | None =>
          match h !! l with
          | None => (h, Ok (m, x))
          | Some o =>
              match depth with
              | O => (h, builtin_error RecursionError)
              | S depth =>
                  match o with
                  | ODict items =>
                      let (h, y) := alloc h (ODict []) in
                      match copy_items (deepcopy depth) y items h (<[l := y]> m) with
                      | (h, Raise e) => (h, Raise e)
                      | (h, Ok m) => (h, Ok (m, VRef y))
                      end
                  | OList elems =>
                      let (h, y) := alloc h (OList []) in
                      match copy_elems (deepcopy depth) y elems h (<[l := y]> m) with
                      | (h, Raise e) => (h, Raise e)
                      | (h, Ok m) => (h, Ok (m, VRef y))
                      end
                  end
              end
          end
      end
  end.

(** [copy.deepcopy(x)]: a fresh memo. *)
Definition copy_deepcopy (depth : nat) (h : heap) (x : value) : heap * result value :=
  match deepcopy depth h ∅ x with
  | (h, Raise e) => (h, Raise e)
  | (h, Ok (_, y)) => (h, Ok y)
  end.

(** ** The response format normalizer *)

(** [x[k]] for a string key: only a dict answers. *)
Definition py_getitem (h : heap) (x : value) (k : string) : result value :=
  match x with
  | VRef l =>
      match h !! l with
      | Some (ODict items) =>
          match dict_get items k with
          | Some v => Ok v
          | None => builtin_error KeyError
          end
      | _ => builtin_error TypeError
      end
  | VAtom _ => builtin_error TypeError
  end.

(** [isinstance(x, dict)]. *)
Definition is_dict (h : heap) (x : value) : bool :=
  match x with
  | VRef l => match h !! l with Some (ODict _) => true | _ => false end
  | VAtom _ => false
  end.

(** [v == s] for a string literal [s]. *)
Definition is_str (v : value) (s : string) : bool :=
  match v with
  | VAtom (AStr s') => bool_decide (s' = s)
  | _ => false
  end.

(** [response_format.get("type") == "json_schema"]. *)
Definition has_json_schema_type (items : list (string * value)) : bool :=
  match dict_get items "type" with
  | Some v => is_str v "json_schema"
  | None => false
  end.

(** [_parsing._completions.is_basemodel_type]: a class that derives from
    [BaseModel]. *)
Definition is_basemodel_type (x : value) : bool :=
  match x with
  | VAtom (AClass _ basemodel) => basemodel
  | _ => false
  end.

Definition class_name (x : value) : string :=
  match x with
  | VAtom (AClass name _) => name
  | _ => ""
  end.

(** [str(z)] of an int: the interpreter refuses to print an int of more
    digits than [sys.get_int_max_str_digits()], 4300 unless the program
    changes it, and raises [ValueError]. *)
Definition int_max_str_digits : Z := 4300.

Definition int_str (z : Z) : result string :=
  if (10 ^ int_max_str_digits <=? Z.abs z)%Z then builtin_error ValueError
  else Ok (pretty z).

Section Normalizer.

Variable format : string → string → result string.

(** The room the interpreter's stack has for the recursion of
    [copy.deepcopy] when the helper calls it, in nested containers. *)
Variable recursion_depth : nat.

(** [str()] of the values that have no simple rendering (floats, class
    objects, lists), as the interpreter prints them; on a list it can
    raise. *)
Variable repr_extern : heap → value → result string.

(** pydantic's [cls.model_json_schema(ref_template=...)] and openai's
    [_pydantic.to_strict_json_schema(cls)]: they build the schema of a model
    class in the heap, or raise. *)
Variable model_json_schema : heap → value → string → heap * result value.
Variable to_strict_json_schema : heap → value → heap * result value.

(** What an f-string puts for [{x}], or the exception the rendering
    raises. *)
Definition str_of (h : heap) (x : value) : result string :=
  match x with
  | VAtom ANone => Ok "None"
  | VAtom (ABool true) => Ok "True"
  | VAtom (ABool false) => Ok "False"
  | VAtom (ANum (NInt z)) => int_str z
  | VAtom (AStr s) => Ok s
  | _ => repr_extern h x
  end.

(** The result is [None] only when the fuel of [update_refs] is too small,
    which does not happen. *)
Definition _dict_to_response_format_helper (h : heap) (response_format : value)
    (ref_template : option string) : option (heap * result value) :=
  match ref_template with
  | None => Some (h, Ok response_format)
  | Some template =>
      match response_format with
      | VRef l =>
          match h !! l with
          | Some (ODict items) =>
              if has_json_schema_type items then
                match copy_deepcopy recursion_depth h response_format with
                | (h, Raise e) => Some (h, Raise e)
                | (h, Ok modified_format) =>
                    match py_getitem h modified_format "json_schema"
                          ≫= λ json_schema, py_getitem h json_schema "schema" with
                    | Raise e => Some (h, Raise e)
                    | Ok schema =>
                        out ← update_refs format template h schema;
                        Some (out_heap out, out_result out ≫= λ _, Ok modified_format)
                    end
                end
              else Some (h, Ok response_format)
          | _ => Some (h, builtin_error AttributeError)
          end
      | VAtom _ => Some (h, builtin_error AttributeError)
      end
  end.

(** [raise TypeError(f"Unsupported response_format type - {response_format}")]:
    the message is built first, and what raises while it is built is what
    the statement raises. *)
Definition unsupported (h : heap) (response_format : value) : exn :=
  match str_of h response_format with
  | Ok text => Exn TypeError (Some ("Unsupported response_format type - " +:+ text))
  | Raise e => e
  end.

Definition type_to_response_format_param (h : heap) (response_format : value)
    (ref_template : option string) : option (heap * result value) :=
  match response_format with
  | VAtom ANone => Some (h, Ok (VAtom ANone))
  | _ =>
      if is_dict h response_format
      then _dict_to_response_format_helper h response_format ref_template
      else if negb (is_basemodel_type response_format)
      then Some (h, Raise (unsupported h response_format))
      else
        let (h, schema) :=
          match ref_template with
          | Some template => model_json_schema h response_format template
          | None => to_strict_json_schema h response_format
          end in
        match schema with
        | Raise e => Some (h, Raise e)
        | Ok schema =>
            let (h, json_schema) :=
              alloc h (ODict [("schema", schema);
                              ("name", VAtom (AStr (class_name response_format)));
                              ("strict", VAtom (ABool true))]) in
            let (h, envelope) :=
              alloc h (ODict [("type", VAtom (AStr "json_schema"));
                              ("json_schema", VRef json_schema)]) in
            Some (h, Ok (VRef envelope))
        end
  end.

End Normalizer.

(** ** Role remapping *)

(** The [for] loop of [map_developer_role_to_system_role]; [new_messages]
    is the address of the list being filled. *)
Fixpoint remap_roles (h : heap) (new_messages : addr) (messages : list value)
  : heap * result () :=
  match messages with
  | [] => (h, Ok ())
  | m :: messages =>
      match py_getitem h m "role" with
      | Raise e => (h, Raise e)
      | Ok role =>
          if is_str role "developer" then
            match py_getitem h m "content" with
            | Raise e => (h, Raise e)
            | Ok content =>
                let (h, d) := alloc h (ODict [("role", VAtom (AStr "system"));
                                              ("content", content)]) in
                remap_roles (heap_append h new_messages (VRef d)) new_messages messages
            end
          else remap_roles (heap_append h new_messages m) new_messages messages
      end
  end.

(** [messages] is the sequence of items of the argument, a list by its
    type; the result is the address of a new list. *)
Definition map_developer_role_to_system_role (h : heap) (messages : list value)
  : heap * result value :=
  let (h, new_messages) := alloc h (OList []) in
  let (h, r) := remap_roles h new_messages messages in
  (h, r ≫= λ _, Ok (VRef new_messages)).

(** ** Access paths

    [lookup_path h v p]: the value found from [v] by following the keys and
    indices of [p], [x[k1][i2]...]. *)
Fixpoint lookup_path (h : heap) (v : value) (p : path) : option value :=
  match p with
  | [] => Some v
  | step :: p =>
      match v with
      | VRef l =>
          match h !! l, step with
          | Some (ODict items), PKey k => dict_get items k ≫= λ v', lookup_path h v' p
          | Some (OList elems), PIndex i => elems !! i ≫= λ v', lookup_path h v' p
          | _, _ => None
          end
      | VAtom _ => None
      end
  end.

(** ** Well-formed heaps

    What the interpreter guarantees of its heap: a reference leads to an
    object, and a dict has each key once. *)

Definition obj_wf (h : heap) (o : obj) : Prop :=
  Forall (λ c, is_Some (h !! c)) (obj_refs o)
  ∧ match o with
    | ODict items => NoDup items.*1
    | OList _ => True
    end.

Definition heap_wf (h : heap) : Prop := map_Forall (λ _ o, obj_wf h o) h.

Definition value_wf (h : heap) (v : value) : Prop :=
  match v with
  | VRef l => is_Some (h !! l)
  | VAtom _ => True
  end.

#[global] Instance obj_wf_dec h o : Decision (obj_wf h o).
Proof. unfold obj_wf. destruct o; apply _. Defined.

#[global] Instance value_wf_dec h v : Decision (value_wf h v).
Proof. unfold value_wf. destruct v; apply _. Defined.

(** ** Copies

    [copy_of m v v']: [v'] is [v] with every reference replaced by the copy
    the memo records for it. *)

Definition copy_of (m : memo) (v v' : value) : Prop :=
  match v with
  | VAtom a => v' = VAtom a
  | VRef l => ∃ y, m !! l = Some y ∧ v' = VRef y
  end.

Definition items_copy (m : memo) (items items' : list (string * value)) : Prop :=
  Forall2 (λ kv kv', kv'.1 = kv.1 ∧ copy_of m kv.2 kv'.2) items items'.

Definition obj_copy (m : memo) (o o' : obj) : Prop :=
  match o, o' with
  | ODict items, ODict items' => items_copy m items items'
  | OList elems, OList elems' => Forall2 (copy_of m) elems elems'
  | _, _ => False
  end.

(** * Facts

    ** Rerank cost lookup *)

Section RerankFacts.

Variable get_model_info : string → option string → result ModelInfo.

Abbreviation rerank_cost := (get_rerank_cost get_model_info).

(** A lookup failure: the model is unknown (the lookup raises), or its
    entry has no [input_cost_per_query], or that field is [None]. *)
Definition lookup_failure (model : string) (custom_llm_provider : option string) : Prop :=
  match get_model_info model custom_llm_provider with
  | Raise _ => True
  | Ok model_info =>
      model_info !! "input_cost_per_query" = None
      ∨ model_info !! "input_cost_per_query" = Some None
  end.

Lemma get_rerank_cost_failure model n provider :
  lookup_failure model provider →
  rerank_cost model n provider = Ok (float_zero, float_zero).
Proof.
  unfold lookup_failure, get_rerank_cost, lookup_model_info.
  destruct (get_model_info model provider) as [mi|e]; [|done].
  by intros [-> | ->].
Qed.

Lemma get_rerank_cost_priced model n provider mi cost :
  get_model_info model provider = Ok mi →
  mi !! "input_cost_per_query" = Some (Some cost) →
  rerank_cost model n provider
  = (prompt_cost ← py_mul cost n; Ok (prompt_cost, float_zero)).
Proof.
  intros Hmi Hc. unfold get_rerank_cost, lookup_model_info. by rewrite Hmi Hc.
Qed.

Lemma get_rerank_cost_completion model n provider r :
  rerank_cost model n provider = Ok r → r.2 = float_zero.
Proof.
  unfold get_rerank_cost.
  destruct (lookup_model_info _ model provider) as [mi|]; last by intros [= <-].
  destruct (mi !! "input_cost_per_query") as [[cost|]|]; try by intros [= <-].
  destruct (py_mul cost n) as [pc|e]; last done.
  by intros [= <-].
Qed.

(** It raises only out of the product: the price is a float and the
    count is too large an int to convert. *)
Lemma get_rerank_cost_raises model n provider e :
  rerank_cost model n provider = Raise e →
  e = Exn OverflowError None
  ∧ ∃ mi f, get_model_info model provider = Ok mi
            ∧ mi !! "input_cost_per_query" = Some (Some (NFloat f))
            ∧ int_to_float n = Raise e.
Proof.
  unfold get_rerank_cost, lookup_model_info.
  destruct (get_model_info model provider) as [mi|e'] eqn:Hmi; last done.
  destruct (mi !! "input_cost_per_query") as [[[z|f]|]|] eqn:Hcost; try done.
  simpl. destruct (int_to_float n) as [g|e'] eqn:Hconv; first done.
  intros [= ->]. split; last by exists mi, f.
  unfold int_to_float in Hconv.
  destruct (binary_normalize prec emax n 0 false); try done.
  by injection Hconv as <-.
Qed.

End RerankFacts.

(** ** Sums over the heap *)

Definition map_sum (w : addr → obj → nat) (h : heap) : nat :=
  map_fold (λ l o n, w l o + n) 0 h.

Lemma map_sum_insert w (h : heap) l o :
  h !! l = None → map_sum w (<[l := o]> h) = w l o + map_sum w h.
Proof.
  intros Hl. unfold map_sum.
  rewrite map_fold_insert_L //. intros. lia.
Qed.

Lemma map_sum_delete w (h : heap) l o :
  h !! l = Some o → map_sum w h = w l o + map_sum w (delete l h).
Proof.
  intros Hl. rewrite -{1}(insert_delete_id h l o) //.
  apply map_sum_insert, lookup_delete_eq.
Qed.

Lemma map_sum_ext w1 w2 (h : heap) :
  (∀ l o, h !! l = Some o → w1 l o = w2 l o) → map_sum w1 h = map_sum w2 h.
Proof.
  induction h as [|l o h Hl IH] using map_ind; first done.
  intros Hw. rewrite !map_sum_insert //.
  rewrite (Hw l o) ?lookup_insert_eq // IH //.
  intros l' o' Hl'. apply Hw.
  rewrite lookup_insert_ne //. congruence.
Qed.

Lemma map_sum_le w1 w2 (h : heap) :
  (∀ l o, h !! l = Some o → w1 l o ≤ w2 l o) → map_sum w1 h ≤ map_sum w2 h.
Proof.
  induction h as [|l o h Hl IH] using map_ind; first done.
  intros Hw. rewrite !map_sum_insert //.
  assert (w1 l o ≤ w2 l o) by (apply Hw; by rewrite lookup_insert_eq).
  assert (map_sum w1 h ≤ map_sum w2 h); last lia.
  apply IH. intros l' o' Hl'. apply Hw.
  rewrite lookup_insert_ne //. congruence.
Qed.

(** The references stored in the nodes that are not yet visited. *)
Definition pending (visited : gset addr) (l : addr) (o : obj) : nat :=
  if decide (l ∈ visited) then 0 else length (obj_refs o).

Definition pending_refs (visited : gset addr) (h : heap) : nat :=
  map_sum (pending visited) h.

Lemma total_refs_pending h : total_refs h = pending_refs ∅ h.
Proof. done. Qed.

Lemma pending_refs_mono visited visited' h :
  visited ⊆ visited' → pending_refs visited' h ≤ pending_refs visited h.
Proof.
  intros Hsub. apply map_sum_le. intros l o _. unfold pending.
  destruct (decide (l ∈ visited')), (decide (l ∈ visited)); try lia.
  set_solver.
Qed.

(** Visiting a node takes its references out of the pending ones, whatever
    is stored at the node afterwards. *)
Lemma pending_refs_visit visited (h : heap) l o o' :
  l ∉ visited → h !! l = Some o →
  pending_refs ({[l]} ∪ visited) (<[l := o']> h) + length (obj_refs o)
  = pending_refs visited h.
Proof.
  intros Hl Ho. unfold pending_refs.
  rewrite (map_sum_delete _ h l o) //.
  rewrite -(insert_delete_eq h) map_sum_insert ?lookup_delete_eq //.
  assert (pending ({[l]} ∪ visited) l o' = 0) as ->.
  { rewrite /pending decide_True //. set_solver. }
  assert (pending visited l o = length (obj_refs o)) as ->.
  { by rewrite /pending decide_False. }
  rewrite (map_sum_ext (pending ({[l]} ∪ visited)) (pending visited)); first lia.
  intros l' o'' Hl'. unfold pending.
  assert (l' ≠ l) by (intros ->; by rewrite lookup_delete_eq in Hl').
  apply decide_ext. set_solver.
Qed.

(** ** Termination of the traversal *)

Section RewriterFacts.

Variable format : string → string → result string.
Variable ref_template : string.

Abbreviation rewrite := (rewrite_ref format ref_template).
Abbreviation loop := (update_refs_loop format ref_template).
Abbreviation run := (update_refs format ref_template).

Lemma value_refs_cons v vs :
  value_refs (v :: vs)
  = match v with VRef l => l :: value_refs vs | VAtom _ => value_refs vs end.
Proof. by destruct v. Qed.

Lemma dict_set_atom_refs items k a b :
  dict_get items k = Some (VAtom a) →
  value_refs (dict_set items k (VAtom b)).*2 = value_refs items.*2.
Proof.
  induction items as [|[k' v] items IH]; first done.
  simpl. case_decide as Hk; simpl.
  - by intros [= ->].
  - intros Hget. unfold value_refs in *. simpl. by rewrite IH.
Qed.

(** Rewriting a ["$ref"] replaces a string by a string: the node refers to
    the same containers before and after. *)
Lemma rewrite_ref_refs items items' :
  rewrite items = Ok items' → value_refs items'.*2 = value_refs items.*2.
Proof.
  unfold rewrite_ref.
  destruct (dict_get items "$ref") as [ref_path|] eqn:Hget; last by intros [= <-].
  destruct ref_path as [[| | |s|]|]; try done. simpl.
  destruct (last_segment s) as [name|]; last done. simpl.
  destruct (format ref_template name) as [new_ref|]; last done. simpl.
  intros [= <-]. by eapply dict_set_atom_refs.
Qed.

Lemma push_items_length p items stack :
  length (push_items p items stack) = length stack + length (value_refs items.*2).
Proof.
  unfold push_items. revert stack.
  induction items as [|[k v] items IH]; intros stack; first (simpl; lia).
  rewrite fmap_cons value_refs_cons. cbn [foldl]. rewrite IH.
  destruct v; simpl; lia.
Qed.

Lemma push_indexed_length (j : nat → nat) p elems stack :
  length (foldl (λ st iv, if is_container iv.2
                          then (iv.2, p ++ [PIndex iv.1]) :: st else st)
            stack (imap (λ i v, (j i, v)) elems))
  = length stack + length (value_refs elems).
Proof.
  revert j stack.
  induction elems as [|v elems IH]; intros j stack; first (simpl; lia).
  rewrite value_refs_cons. cbn [imap foldl].
  rewrite (IH (j ∘ S)). destruct v; simpl; lia.
Qed.

Lemma push_elems_length p elems stack :
  length (push_elems p elems stack) = length stack + length (value_refs elems).
Proof. apply (push_indexed_length id). Qed.

(** Every iteration shortens the stack or visits a new node, whose
    references it pushes: the stack length plus the pending references
    bounds the number of iterations. *)
Lemma update_refs_loop_terminates fuel h stack visited visits :
  length stack + pending_refs visited h ≤ fuel →
  is_Some (loop fuel h stack visited visits).
Proof.
  revert h stack visited visits.
  induction fuel as [|fuel IH]; intros h stack visited visits Hfuel.
  { destruct stack; [by eexists | simpl in Hfuel; lia]. }
  destruct stack as [|[obj p] stack]; first by eexists.
  simpl in Hfuel. cbn [update_refs_loop].
  destruct obj as [a|l]; first (apply IH; lia).
  destruct (decide (l ∈ visited)) as [Hin|Hnin]; first (apply IH; lia).
  destruct (h !! l) as [[items|elems]|] eqn:Hl.
  - destruct (rewrite items) as [items'|e] eqn:Hrw; last by eexists.
    apply IH. rewrite push_items_length.
    pose proof (pending_refs_visit visited h l _ (ODict items') Hnin Hl) as Hp.
    rewrite (rewrite_ref_refs _ _ Hrw). unfold obj_refs in Hp. simpl in Hp. lia.
  - apply IH. rewrite push_elems_length.
    pose proof (pending_refs_visit visited h l _ (OList elems) Hnin Hl) as Hp.
    rewrite insert_id // in Hp. unfold obj_refs in Hp. simpl in Hp. lia.
  - apply IH.
    assert (visited ⊆ {[l]} ∪ visited) as Hsub by set_solver.
    pose proof (pending_refs_mono _ _ h Hsub). lia.
Qed.

Lemma update_refs_terminates h schema : is_Some (run h schema).
Proof.
  apply update_refs_loop_terminates. rewrite total_refs_pending. simpl. lia.
Qed.

(** More fuel changes nothing. *)
Lemma update_refs_loop_fuel fuel fuel' h stack visited visits out :
  loop fuel h stack visited visits = Some out → fuel ≤ fuel' →
  loop fuel' h stack visited visits = Some out.
Proof.
  revert fuel' h stack visited visits.
  induction fuel as [|fuel IH]; intros fuel' h stack visited visits Hrun Hle.
  { destruct stack as [|[obj p] stack]; last done. by destruct fuel'. }
  destruct fuel' as [|fuel']; first lia.
  destruct stack as [|[obj p] stack]; first done.
  cbn [update_refs_loop] in Hrun |- *.
  destruct obj as [a|l]; first (apply IH; [done|lia]).
  destruct (decide (l ∈ visited)); first (apply IH; [done|lia]).
  destruct (h !! l) as [[items|elems]|]; try (apply IH; [done|lia]).
  destruct (rewrite items) as [items'|e]; last done.
  apply IH; [done|lia].
Qed.

(** ** What the traversal visits and what it writes *)

Lemma push_items_elem p items stack c :
  VRef c ∈ (push_items p items stack).*1
  ↔ c ∈ value_refs items.*2 ∨ VRef c ∈ stack.*1.
Proof.
  unfold push_items. revert stack.
  induction items as [|[k v] items IH]; intros stack.
  { simpl. set_solver. }
  rewrite fmap_cons value_refs_cons. cbn [foldl]. rewrite IH.
  destruct v as [a|l]; simpl; set_solver.
Qed.

Lemma push_indexed_elem (j : nat → nat) p elems stack c :
  VRef c ∈ (foldl (λ st iv, if is_container iv.2
                           then (iv.2, p ++ [PIndex iv.1]) :: st else st)
             stack (imap (λ i v, (j i, v)) elems)).*1
  ↔ c ∈ value_refs elems ∨ VRef c ∈ stack.*1.
Proof.
  revert j stack.
  induction elems as [|v elems IH]; intros j stack.
  { simpl. set_solver. }
  rewrite value_refs_cons. cbn [imap foldl]. rewrite (IH (j ∘ S)).
  destruct v as [a|l]; simpl; set_solver.
Qed.

Lemma push_elems_elem p elems stack c :
  VRef c ∈ (push_elems p elems stack).*1
  ↔ c ∈ value_refs elems ∨ VRef c ∈ stack.*1.
Proof. apply (push_indexed_elem id). Qed.

Section Run.

(** The heap and the schema the traversal starts from. *)
Variable h0 : heap.
Variable root : value.

(** A processed node: a dict holds its rewritten items, anything else is
    as it was. *)
Definition node_done (h : heap) (l : addr) : Prop :=
  match h0 !! l with
  | Some (ODict items) =>
      ∃ items', rewrite items = Ok items' ∧ h !! l = Some (ODict items')
  | o => h !! l = o
  end.

(** The loop invariant. *)
Record loop_inv (h : heap) (stack : list (value * path))
    (visited : gset addr) (visits : list addr) : Prop := {
  inv_nodup : NoDup visits;
  inv_visits : ∀ l, l ∈ visits ↔ l ∈ visited;
  inv_closed : ∀ l c, l ∈ visited → c ∈ children h0 l →
               c ∈ visited ∨ VRef c ∈ stack.*1;
  inv_root : ∀ l, root = VRef l → l ∈ visited ∨ VRef l ∈ stack.*1;
  inv_frame : ∀ l, l ∉ visited → h !! l = h0 !! l;
  inv_done : ∀ l, l ∈ visited → node_done h l;
  inv_stack : ∀ l, VRef l ∈ stack.*1 → reachable h0 root l;
  inv_reach : ∀ l, l ∈ visited → reachable h0 root l
}.

(** What holds of the outcome. *)
Record loop_post (out : outcome) : Prop := {
  post_nodup : NoDup (out_visits out);
  post_reach : ∀ l, l ∈ out_visits out → reachable h0 root l;
  post_frame : ∀ l, l ∉ out_visits out → out_heap out !! l = h0 !! l;
  post_all : out_result out = Ok () →
             ∀ l, reachable h0 root l → l ∈ out_visits out;
  post_done : out_result out = Ok () →
              ∀ l, l ∈ out_visits out → node_done (out_heap out) l;
  post_raise : ∀ e, out_result out = Raise e →
               ∃ l items, reachable h0 root l ∧ h0 !! l = Some (ODict items)
                          ∧ rewrite items = Raise e
}.

Lemma loop_inv_init : loop_inv h0 [(root, [])] ∅ [].
Proof.
  split; try set_solver.
  - constructor.
  - intros l Hl%list_elem_of_singleton. exists l. by split.
Qed.

Lemma reachable_step l c :
  reachable h0 root l → c ∈ children h0 l → reachable h0 root c.
Proof.
  intros (l0 & -> & Hrtc) Hc. exists l0. split; first done.
  eapply rtc_r; done.
Qed.

(** An entry that is an atom or an already visited node is dropped. *)
Lemma loop_inv_pop h v p stack visited visits :
  loop_inv h ((v, p) :: stack) visited visits →
  (∀ l, v = VRef l → l ∈ visited) →
  loop_inv h stack visited visits.
Proof.
  intros [] Hv. split; try done.
  - intros l c Hl Hc. destruct (inv_closed0 l c Hl Hc) as [|Hin]; first by left.
    rewrite fmap_cons in Hin. apply elem_of_cons in Hin as [Heq|]; last by right.
    left. by apply Hv.
  - intros l Hl. destruct (inv_root0 l Hl) as [|Hin]; first by left.
    rewrite fmap_cons in Hin. apply elem_of_cons in Hin as [Heq|]; last by right.
    left. by apply Hv.
  - intros l Hl. apply inv_stack0. rewrite fmap_cons. by right.
Qed.

(** A new node is processed: it joins the visited nodes, the heap changes
    at most there, and its children join the stack. *)
Lemma loop_inv_visit h l p stack visited visits h' stack' :
  loop_inv h ((VRef l, p) :: stack) visited visits →
  l ∉ visited →
  (∀ l', l' ≠ l → h' !! l' = h !! l') →
  node_done h' l →
  (∀ c, VRef c ∈ stack'.*1 ↔ c ∈ children h0 l ∨ VRef c ∈ stack.*1) →
  loop_inv h' stack' ({[l]} ∪ visited) (visits ++ [l]).
Proof.
  intros [] Hl Hh' Hdone Hstack'.
  assert (reachable h0 root l) as Hreach.
  { apply inv_stack0. rewrite fmap_cons. by left. }
  split.
  - apply NoDup_app. split_and!; [done| |apply NoDup_singleton].
    intros x Hx ->%list_elem_of_singleton. by apply Hl, inv_visits0.
  - intros x. rewrite elem_of_app list_elem_of_singleton inv_visits0. set_solver.
  - intros x c Hx Hc. rewrite Hstack'.
    apply elem_of_union in Hx as [->%elem_of_singleton|Hx]; first by right; left.
    destruct (inv_closed0 x c Hx Hc) as [|Hin]; first (left; set_solver).
    rewrite fmap_cons in Hin. apply elem_of_cons in Hin as [Heq|]; last by right; right.
    left. simplify_eq. set_solver.
  - intros x Hx. rewrite Hstack'.
    destruct (inv_root0 x Hx) as [|Hin]; first (left; set_solver).
    rewrite fmap_cons in Hin. apply elem_of_cons in Hin as [Heq|]; last by right; right.
    left. simplify_eq. set_solver.
  - intros x Hx. rewrite Hh'; last set_solver. apply inv_frame0. set_solver.
  - intros x Hx.
    apply elem_of_union in Hx as [->%elem_of_singleton|Hx]; first done.
    assert (x ≠ l) as Hne by (intros ->; done).
    specialize (inv_done0 x Hx). unfold node_done in *.
    rewrite Hh' //.
  - intros c [Hc|Hc]%Hstack'; first by eapply reachable_step.
    apply inv_stack0. rewrite fmap_cons. by right.
  - intros x Hx.
    apply elem_of_union in Hx as [->%elem_of_singleton|Hx]; first done.
    by apply inv_reach0.
Qed.

(** The stack is empty: the visited nodes are closed under children and
    hold the root, so they are all the reachable nodes. *)
Lemma loop_post_final h visited visits :
  loop_inv h [] visited visits → loop_post (Outcome h visits (Ok ())).
Proof.
  intros []. split; simpl; try done.
  - intros l Hl. by apply inv_reach0, inv_visits0.
  - intros l Hl. apply inv_frame0. by rewrite -inv_visits0.
  - intros _ l (l0 & Hroot & Hrtc). apply inv_visits0.
    destruct (inv_root0 l0 Hroot) as [Hl0|Hin]; last set_solver.
    clear Hroot. induction Hrtc as [|x y z Hxy _ IH]; first done.
    apply IH. destruct (inv_closed0 x y Hl0 Hxy); set_solver.
  - intros _ l Hl. by apply inv_done0, inv_visits0.
Qed.

(** The rewrite of a new node raises: the heap is as before the node. *)
Lemma loop_post_raised h l p stack visited visits items e :
  loop_inv h ((VRef l, p) :: stack) visited visits →
  l ∉ visited → h !! l = Some (ODict items) → rewrite items = Raise e →
  loop_post (Outcome h (visits ++ [l]) (Raise e)).
Proof.
  intros [] Hl Hitems Hrw.
  assert (reachable h0 root l) as Hreach.
  { apply inv_stack0. rewrite fmap_cons. by left. }
  split; simpl; try done.
  - apply NoDup_app. split_and!; [done| |apply NoDup_singleton].
    intros x Hx ->%list_elem_of_singleton. by apply Hl, inv_visits0.
  - intros x [Hx| ->%list_elem_of_singleton]%elem_of_app; last done.
    by apply inv_reach0, inv_visits0.
  - intros x Hx. apply inv_frame0. rewrite -inv_visits0. set_solver.
  - intros e' [= <-]. exists l, items. split_and!; try done.
    by rewrite -inv_frame0.
Qed.

Lemma update_refs_loop_post fuel h stack visited visits out :
  loop_inv h stack visited visits →
  loop fuel h stack visited visits = Some out →
  loop_post out.
Proof.
  revert h stack visited visits.
  induction fuel as [|fuel IH]; intros h stack visited visits Hinv Hrun.
  { destruct stack as [|[obj p] stack]; last done.
    injection Hrun as <-. by eapply loop_post_final. }
  destruct stack as [|[obj p] stack].
  { injection Hrun as <-. by eapply loop_post_final. }
  cbn [update_refs_loop] in Hrun.
  destruct obj as [a|l].
  { eapply IH; last done. by eapply loop_inv_pop. }
  destruct (decide (l ∈ visited)) as [Hin|Hnin].
  { eapply IH; last done. eapply loop_inv_pop; first done. by intros ? [= <-]. }
  assert (h !! l = h0 !! l) as Hl0 by by apply Hinv.
  destruct (h !! l) as [[items|elems]|] eqn:Hl.
  - destruct (rewrite items) as [items'|e] eqn:Hrw.
    + eapply IH; last done. eapply loop_inv_visit; [done|done|..].
      * intros l' Hne. by rewrite lookup_insert_ne.
      * rewrite /node_done -Hl0. exists items'. by rewrite lookup_insert_eq.
      * intros c. rewrite push_items_elem /children -Hl0 /obj_refs /=.
        by rewrite (rewrite_ref_refs _ _ Hrw).
    + simplify_eq. by eapply loop_post_raised.
  - eapply IH; last done. eapply loop_inv_visit; [done|done|done|..].
    + by rewrite /node_done -Hl0.
    + intros c. by rewrite push_elems_elem /children -Hl0.
  - eapply IH; last done. eapply loop_inv_visit; [done|done|done|..].
    + by rewrite /node_done -Hl0.
    + intros c. rewrite /children -Hl0. set_solver.
Qed.

(** [update_refs] returns, and its outcome is as [loop_post] says. *)
Lemma update_refs_post :
  ∃ out, run h0 root = Some out ∧ loop_post out.
Proof.
  destruct (update_refs_terminates h0 root) as [out Hout].
  exists out. split; first done.
  eapply update_refs_loop_post; last done. apply loop_inv_init.
Qed.

(** *** Reading the outcome of a run that returned *)

Lemma dict_get_set items k v k' :
  dict_get (dict_set items k v) k'
  = if decide (k = k') then Some v else dict_get items k'.
Proof.
  induction items as [|[k1 v1] items IH]; simpl.
  { by case_decide. }
  destruct (decide (k1 = k)) as [->|Hne]; simpl.
  - destruct (decide (k = k')); done.
  - rewrite IH. destruct (decide (k1 = k')) as [->|]; last done.
    by rewrite decide_False.
Qed.

Lemma dict_set_keys items k v :
  is_Some (dict_get items k) → (dict_set items k v).*1 = items.*1.
Proof.
  induction items as [|[k1 v1] items IH]; first by intros [? ?].
  cbn [dict_set dict_get]. case_decide as Hk; first by subst.
  intros Hget. by rewrite !fmap_cons IH.
Qed.

(** What [rewrite_ref] returns when the dict has a string ["$ref"]. *)
Lemma rewrite_ref_string items items' s :
  dict_get items "$ref" = Some (VAtom (AStr s)) →
  rewrite items = Ok items' →
  ∃ name new_ref,
    last_segment s = Ok name ∧ format ref_template name = Ok new_ref
    ∧ items' = dict_set items "$ref" (VAtom (AStr new_ref)).
Proof.
  rewrite /rewrite_ref. intros -> Hrw. simpl in Hrw.
  destruct (last_segment s) as [name|]; last done. simpl in Hrw.
  destruct (format ref_template name) as [new_ref|] eqn:Hfmt; last done.
  simpl in Hrw. injection Hrw as <-. by exists name, new_ref.
Qed.

(** It returns only when the ["$ref"], if any, is a string. *)
Lemma rewrite_ref_ok_string items items' v :
  rewrite items = Ok items' → dict_get items "$ref" = Some v →
  ∃ s, v = VAtom (AStr s).
Proof.
  rewrite /rewrite_ref. intros Hrw Hget. rewrite Hget in Hrw.
  destruct v as [[| | |s|]|]; try done. by exists s.
Qed.

(** The other keys keep their values. *)
Lemma rewrite_ref_other items items' k :
  rewrite items = Ok items' → k ≠ "$ref" → dict_get items' k = dict_get items k.
Proof.
  rewrite /rewrite_ref. intros Hrw Hk.
  destruct (dict_get items "$ref") as [ref_path|]; last by injection Hrw as <-.
  destruct (model_name_of ref_path) as [name|]; last done. simpl in Hrw.
  destruct (format ref_template name) as [new_ref|]; last done. simpl in Hrw.
  injection Hrw as <-. rewrite dict_get_set. by rewrite decide_False.
Qed.

Lemma dict_get_refs items k c :
  dict_get items k = Some (VRef c) → c ∈ value_refs items.*2.
Proof.
  induction items as [|[k1 v1] items IH]; first done.
  rewrite fmap_cons value_refs_cons. simpl. case_decide.
  - intros [= ->]. left.
  - intros Hin%IH. destruct v1; [done|by right].
Qed.

Lemma lookup_refs (elems : list value) i c :
  elems !! i = Some (VRef c) → c ∈ value_refs elems.
Proof.
  revert i. induction elems as [|v1 elems IH]; intros i; first done.
  rewrite value_refs_cons. destruct i as [|i]; simpl.
  - intros [= ->]. left.
  - intros Hin%IH. destruct v1; [done|by right].
Qed.

Section Returned.

Variable out : outcome.
Hypothesis Hpost : loop_post out.
Hypothesis Hok : out_result out = Ok ().

(** Every node is untouched or, when reachable, done. *)
Lemma returned_node l :
  (reachable h0 root l ∧ node_done (out_heap out) l)
  ∨ (¬ reachable h0 root l ∧ out_heap out !! l = h0 !! l).
Proof.
  destruct (decide (l ∈ out_visits out)) as [Hin|Hnin].
  - left. split; first by apply (post_reach _ Hpost).
    by apply (post_done _ Hpost).
  - right. split; last by apply (post_frame _ Hpost).
    intros Hreach. apply Hnin. by apply (post_all _ Hpost).
Qed.

(** One step along a path that is not through ["$ref"] reads the same. *)
Lemma returned_get_other l items k :
  h0 !! l = Some (ODict items) → k ≠ "$ref" →
  ∃ items', out_heap out !! l = Some (ODict items')
            ∧ dict_get items' k = dict_get items k.
Proof.
  intros Hl Hk. destruct (returned_node l) as [[_ Hdone]|[_ Hsame]].
  - rewrite /node_done Hl in Hdone. destruct Hdone as (items' & Hrw & Hl').
    exists items'. split; first done. by apply rewrite_ref_other.
  - exists items. by rewrite Hsame.
Qed.

Lemma returned_list l elems :
  h0 !! l = Some (OList elems) → out_heap out !! l = Some (OList elems).
Proof.
  intros Hl. destruct (returned_node l) as [[_ Hdone]|[_ Hsame]].
  - by rewrite /node_done Hl in Hdone.
  - by rewrite Hsame.
Qed.

(** A ["$ref"] found by a path from a reachable node is rewritten: the path
    leads to the formatted last segment of what it led to. *)
Lemma returned_ref_at_path q v s :
  (∀ l, v = VRef l → reachable h0 root l) →
  lookup_path h0 v (q ++ [PKey "$ref"]) = Some (VAtom (AStr s)) →
  ∃ name new_ref,
    last_segment s = Ok name ∧ format ref_template name = Ok new_ref
    ∧ lookup_path (out_heap out) v (q ++ [PKey "$ref"]) = Some (VAtom (AStr new_ref)).
Proof.
  revert v. induction q as [|step q IH]; intros v Hv; cbn [app lookup_path].
  - destruct v as [a|l]; first done. specialize (Hv l eq_refl).
    destruct (h0 !! l) as [[items|elems]|] eqn:Hl; try done.
    destruct (dict_get items "$ref") as [v1|] eqn:Hget; last done. simpl.
    intros [= ->].
    pose proof (post_done _ Hpost Hok l (post_all _ Hpost Hok l Hv)) as Hdone.
    rewrite /node_done Hl in Hdone. destruct Hdone as (items' & Hrw & Hl').
    destruct (rewrite_ref_string _ _ _ Hget Hrw) as (name & new_ref & ? & ? & ->).
    exists name, new_ref. split_and!; try done.
    rewrite Hl' dict_get_set. by case_decide.
  - destruct v as [a|l]; first done. specialize (Hv l eq_refl).
    destruct (h0 !! l) as [[items|elems]|] eqn:Hl; try done.
    + destruct step as [k|i]; last done.
      destruct (dict_get items k) as [v1|] eqn:Hget; last done. simpl.
      intros Hpath.
      assert (∃ c, v1 = VRef c) as [c ->].
      { destruct v1 as [a|c]; last by eexists. by destruct q. }
      assert (reachable h0 root c) as Hc.
      { eapply reachable_step; first done.
        rewrite /children Hl. by eapply dict_get_refs. }
      assert (k ≠ "$ref") as Hk.
      { intros ->.
        pose proof (post_done _ Hpost Hok l (post_all _ Hpost Hok l Hv)) as Hdone.
        rewrite /node_done Hl in Hdone. destruct Hdone as (items' & Hrw & _).
        by destruct (rewrite_ref_ok_string _ _ _ Hrw Hget). }
      destruct (returned_get_other _ _ _ Hl Hk) as (items' & -> & ->).
      rewrite Hget /=. apply IH; last done. by intros ? [= <-].
    + destruct step as [k|i]; first done.
      destruct (elems !! i) as [v1|] eqn:Hget; last done. simpl.
      intros Hpath.
      assert (∃ c, v1 = VRef c) as [c ->].
      { destruct v1 as [a|c]; last by eexists. by destruct q. }
      assert (reachable h0 root c) as Hc.
      { eapply reachable_step; first done.
        rewrite /children Hl. by eapply lookup_refs. }
      rewrite (returned_list _ _ Hl) Hget /=.
      apply IH; last done. by intros ? [= <-].
Qed.

Lemma returned_key_step v k w :
  k ≠ "$ref" →
  lookup_path h0 v [PKey k] = Some w →
  lookup_path (out_heap out) v [PKey k] = Some w.
Proof.
  intros Hk. simpl. destruct v as [a|l]; first done.
  destruct (h0 !! l) as [[items|elems]|] eqn:Hl; try done.
  destruct (returned_get_other _ _ _ Hl Hk) as (items' & -> & ->). done.
Qed.

End Returned.

End Run.

End RewriterFacts.

(** ** The deep copy is a copy *)

Lemma copy_of_mono m m' v v' : m ⊆ m' → copy_of m v v' → copy_of m' v v'.
Proof.
  intros Hsub. destruct v as [a|l]; simpl; first done.
  intros (y & Hy & ->). exists y. split; last done. by eapply lookup_weaken.
Qed.

Lemma items_copy_mono m m' items items' :
  m ⊆ m' → items_copy m items items' → items_copy m' items items'.
Proof.
  intros Hsub Hcopy. eapply Forall2_impl; first done.
  intros kv kv' [? ?]. split; first done. by eapply copy_of_mono.
Qed.

Lemma obj_copy_mono m m' o o' : m ⊆ m' → obj_copy m o o' → obj_copy m' o o'.
Proof.
  intros Hsub. destruct o, o'; simpl; try done.
  - by apply items_copy_mono.
  - intros Hcopy. eapply Forall2_impl; first done.
    intros. by eapply copy_of_mono.
Qed.

Lemma dict_set_fresh items k v :
  k ∉ items.*1 → dict_set items k v = items ++ [(k, v)].
Proof.
  induction items as [|[k' v'] items IH]; first done.
  rewrite fmap_cons not_elem_of_cons. intros [Hne Hk]. simpl.
  rewrite decide_False; last by intros ->.
  by rewrite IH.
Qed.

Lemma items_copy_keys m items items' :
  items_copy m items items' → items'.*1 = items.*1.
Proof.
  induction 1 as [|kv kv' items items' [Hk _] _ IH]; first done.
  rewrite !fmap_cons. by rewrite Hk IH.
Qed.

Section DeepCopyFacts.

(** The heap the copy starts from. *)
Variable h0 : heap.
Hypothesis h0_wf : heap_wf h0.

(** The state of a copy in progress: the objects of [h0] are untouched, the
    memo sends objects of [h0] to new objects, one to one, and every new
    object is the copy of one. *)
Record copy_inv (h : heap) (m : memo) : Prop := {
  ci_frame : ∀ l, is_Some (h0 !! l) → h !! l = h0 !! l;
  ci_memo : ∀ l y, m !! l = Some y →
            is_Some (h0 !! l) ∧ h0 !! y = None ∧ is_Some (h !! y);
  ci_inj : ∀ l1 l2 y, m !! l1 = Some y → m !! l2 = Some y → l1 = l2;
  ci_new : ∀ y, is_Some (h !! y) → h0 !! y = None → ∃ l, m !! l = Some y
}.

(** The object at [y] is a finished copy of the one at [l]. *)
Definition full_copy (h : heap) (m : memo) (l y : addr) : Prop :=
  ∃ o o', h0 !! l = Some o ∧ h !! y = Some o' ∧ obj_copy m o o'.

(** What one call [deepcopy(v, memo)] does, from [(h, m)] to [(h', m')]. *)
Record copy_post (h : heap) (m : memo) (v : value)
    (h' : heap) (m' : memo) (v' : value) : Prop := {
  cp_inv : copy_inv h' m';
  cp_memo : m ⊆ m';
  cp_value : copy_of m' v v';
  cp_keep : ∀ l y, m !! l = Some y → h' !! y = h !! y;
  cp_full : ∀ l y, m' !! l = Some y → m !! l = None → full_copy h' m' l y
}.

(** The state while the container [y], the copy of [l], is being filled:
    the copies recorded in [mk] before the call are as they were in [hk],
    and the copies made since, except [y], are finished. *)
Record building (mk : memo) (hk : heap) (l y : addr) (h : heap) (m : memo) : Prop := {
  b_inv : copy_inv h m;
  b_sub : mk ⊆ m;
  b_self : m !! l = Some y;
  b_keep : ∀ l' y', mk !! l' = Some y' → h !! y' = hk !! y';
  b_full : ∀ l' y', m !! l' = Some y' → mk !! l' = None → l' ≠ l →
           full_copy h m l' y'
}.

Lemma full_copy_mono h h' m m' l y :
  m ⊆ m' → h' !! y = h !! y → full_copy h m l y → full_copy h' m' l y.
Proof.
  intros Hsub Hy (o & o' & Ho & Ho' & Hcopy). exists o, o'.
  split_and!; [done|by rewrite Hy|by eapply obj_copy_mono].
Qed.

(** A nested call returns and the item it copied is stored in [y]. *)
Lemma building_store mk hk l y h m v h2 m2 v' o o' :
  building mk hk l y h m →
  mk !! l = None →
  h !! y = Some o →
  copy_post h m v h2 m2 v' →
  h2 !! y = Some o ∧ building mk hk l y (<[y := o']> h2) m2.
Proof.
  intros [Hinv Hsub Hself Hkeep Hfull] Hl Hy [Hinv2 Hsub2 _ Hkeep2 Hfull2].
  assert (h2 !! y = Some o) as Hy2 by (rewrite -Hy; by eapply Hkeep2).
  split; first done.
  assert (m2 !! l = Some y) as Hself2 by by eapply lookup_weaken.
  destruct Hinv2 as [Hfr2 Hme2 Hinj2 Hnew2].
  assert (∀ l' y', m2 !! l' = Some y' → l' ≠ l → y' ≠ y) as Hne.
  { intros l' y' Hl' Hne ->. apply Hne. by eapply Hinj2. }
  split; first split.
  - intros l' Hl'. rewrite lookup_insert_ne; first by apply Hfr2.
    intros <-. destruct (Hme2 l y Hself2) as (_ & Hnone & _).
    rewrite Hnone in Hl'. by destruct Hl'.
  - intros l' y' Hl'. destruct (Hme2 l' y' Hl') as (? & ? & ?).
    split_and!; try done. rewrite lookup_insert. by case_decide.
  - done.
  - intros y' Hy' Hnone. apply Hnew2; last done.
    rewrite lookup_insert in Hy'. case_decide; last done. by subst.
  - by etrans.
  - done.
  - intros l' y' Hl'. rewrite -(Hkeep l' y' Hl').
    assert (m !! l' = Some y') as Hml' by by eapply lookup_weaken.
    rewrite lookup_insert_ne; first by eapply Hkeep2.
    apply not_eq_sym, Hne with l'; first by eapply lookup_weaken.
    intros ->. congruence.
  - intros l' y' Hl' Hk Hnel.
    assert (y ≠ y') as Hney by by eapply not_eq_sym, Hne.
    destruct (m !! l') as [y''|] eqn:Hml'.
    + assert (y'' = y') as ->.
      { eapply lookup_weaken in Hml'; last done. congruence. }
      apply (full_copy_mono h _ m m2); [done| |by apply Hfull].
      rewrite lookup_insert_ne //. by eapply Hkeep2.
    + apply (full_copy_mono h2 _ m2 m2); [done| |by apply Hfull2].
      by rewrite lookup_insert_ne.
Qed.

(** What the loops assume of the nested call: with [f] containers of [h0]
    at most not yet in the memo, it returns and does what [copy_post] says. *)
Definition rec_spec (f : nat)
    (rec : heap → memo → value → heap * result (memo * value)) : Prop :=
  ∀ h m v, copy_inv h m → value_wf h0 v → size (dom h0 ∖ dom m) ≤ f →
    ∃ h' m' v', rec h m v = (h', Ok (m', v')) ∧ copy_post h m v h' m' v'.

Lemma memo_size_mono (m m' : memo) :
  m ⊆ m' → size (dom h0 ∖ dom m') ≤ size (dom h0 ∖ dom m).
Proof.
  intros Hsub%subseteq_dom. apply subseteq_size. set_solver.
Qed.

Lemma copy_items_spec rec f mk hk l y :
  rec_spec f rec → mk !! l = None →
  ∀ todo done acc h m,
    building mk hk l y h m →
    size (dom h0 ∖ dom m) ≤ f →
    h !! y = Some (ODict acc) →
    items_copy m done acc →
    NoDup (done ++ todo).*1 →
    Forall (value_wf h0) todo.*2 →
    ∃ h' m' acc',
      copy_items rec y todo h m = (h', Ok m')
      ∧ building mk hk l y h' m'
      ∧ h' !! y = Some (ODict acc')
      ∧ items_copy m' (done ++ todo) acc'.
Proof.
  intros Hrec Hl todo.
  induction todo as [|[k v] todo IH]; intros done acc h m Hb Hsize Hy Hacc Hnd Hwf.
  { exists h, m, acc. by rewrite app_nil_r. }
  rewrite fmap_cons Forall_cons in Hwf. destruct Hwf as [Hv Hwf].
  destruct (Hrec h m v (b_inv _ _ _ _ _ _ Hb) Hv Hsize) as (h2 & m2 & v' & Hcall & Hpost).
  simpl. rewrite Hcall.
  destruct (building_store _ _ _ _ _ _ _ _ _ _ _ (ODict (dict_set acc k v')) Hb Hl Hy Hpost)
    as [Hy2 Hb2].
  rewrite /heap_setitem Hy2.
  assert (k ∉ acc.*1) as Hk.
  { rewrite (items_copy_keys _ _ _ Hacc). rewrite fmap_app NoDup_app in Hnd.
    destruct Hnd as (_ & Hnd & _). intros Hin. apply (Hnd k Hin). simpl. left. }
  rewrite dict_set_fresh // in Hb2 |- *.
  destruct (IH (done ++ [(k, v)]) (acc ++ [(k, v')]) _ m2 Hb2)
    as (h' & m' & acc' & Hloop & Hb' & Hy' & Hacc').
  - etrans; last done. apply memo_size_mono, Hpost.
  - by rewrite lookup_insert_eq.
  - apply Forall2_app.
    + eapply items_copy_mono; last done. apply Hpost.
    + constructor; last constructor. split; first done. apply Hpost.
  - by rewrite -assoc.
  - done.
  - exists h', m', acc'. by rewrite -assoc in Hacc'.
Qed.

Lemma copy_elems_spec rec f mk hk l y :
  rec_spec f rec → mk !! l = None →
  ∀ todo done acc h m,
    building mk hk l y h m →
    size (dom h0 ∖ dom m) ≤ f →
    h !! y = Some (OList acc) →
    Forall2 (copy_of m) done acc →
    Forall (value_wf h0) todo →
    ∃ h' m' acc',
      copy_elems rec y todo h m = (h', Ok m')
      ∧ building mk hk l y h' m'
      ∧ h' !! y = Some (OList acc')
      ∧ Forall2 (copy_of m') (done ++ todo) acc'.
Proof.
  intros Hrec Hl todo.
  induction todo as [|v todo IH]; intros done acc h m Hb Hsize Hy Hacc Hwf.
  { exists h, m, acc. by rewrite app_nil_r. }
  rewrite Forall_cons in Hwf. destruct Hwf as [Hv Hwf].
  destruct (Hrec h m v (b_inv _ _ _ _ _ _ Hb) Hv Hsize) as (h2 & m2 & v' & Hcall & Hpost).
  simpl. rewrite Hcall.
  destruct (building_store _ _ _ _ _ _ _ _ _ _ _ (OList (acc ++ [v'])) Hb Hl Hy Hpost)
    as [Hy2 Hb2].
  rewrite /heap_append Hy2.
  destruct (IH (done ++ [v]) (acc ++ [v']) _ m2 Hb2)
    as (h' & m' & acc' & Hloop & Hb' & Hy' & Hacc').
  - etrans; last done. apply memo_size_mono, Hpost.
  - by rewrite lookup_insert_eq.
  - apply Forall2_app.
    + eapply Forall2_impl; first done. intros. eapply copy_of_mono; last done.
      apply Hpost.
    + constructor; last constructor. apply Hpost.
  - done.
  - exists h', m', acc'. by rewrite -assoc in Hacc'.
Qed.

Lemma copy_post_refl h m v v' :
  copy_inv h m → copy_of m v v' → copy_post h m v h m v'.
Proof.
  intros Hinv Hv. split; try done. intros l y Hl Hnone. congruence.
Qed.

(** A new empty container [o] is created as the copy of [l] and recorded. *)
Lemma building_alloc h m l o :
  copy_inv h m → is_Some (h0 !! l) → m !! l = None →
  let y := fresh (dom h) in
  building m h l y (<[y := o]> h) (<[l := y]> m)
  ∧ size (dom h0 ∖ dom (<[l := y]> m)) < size (dom h0 ∖ dom m).
Proof.
  intros [Hfr Hme Hinj Hnew] Hl Hm y.
  assert (h !! y = None) as Hy by apply not_elem_of_dom, is_fresh.
  assert (h0 !! y = None) as Hy0.
  { destruct (h0 !! y) as [oy|] eqn:Hy0; last done.
    assert (is_Some (h0 !! y)) as Hs by by exists oy.
    apply Hfr in Hs. congruence. }
  assert (∀ l' y', m !! l' = Some y' → y' ≠ y) as Hne.
  { intros l' y' Hl' ->. destruct (Hme _ _ Hl') as (_ & _ & [? ?]). congruence. }
  split; first (split; first split).
  - intros l' Hl'. rewrite lookup_insert_ne; first by apply Hfr.
    intros <-. rewrite Hy0 in Hl'. by destruct Hl'.
  - intros l' y'. rewrite lookup_insert. case_decide as Heq.
    + intros [= <-]. subst l'. split_and!; try done. by rewrite lookup_insert_eq.
    + intros Hl'. destruct (Hme _ _ Hl') as (? & ? & ?). split_and!; try done.
      rewrite lookup_insert_ne //. apply not_eq_sym. by eapply Hne.
  - intros l1 l2 y'. rewrite !lookup_insert.
    repeat case_decide; subst; intros H1 H2; simplify_eq; try done.
    + by destruct (Hne _ _ H2).
    + by destruct (Hne _ _ H1).
    + by eapply Hinj.
  - intros y' Hy' Hnone. rewrite lookup_insert in Hy'. case_decide as Heq.
    + subst y'. exists l. by rewrite lookup_insert_eq.
    + destruct (Hnew y' Hy' Hnone) as [l' Hl']. exists l'.
      rewrite lookup_insert_ne //. intros ->. congruence.
  - by apply insert_subseteq.
  - by rewrite lookup_insert_eq.
  - intros l' y' Hl'. rewrite lookup_insert_ne //. apply not_eq_sym. by eapply Hne.
  - intros l' y' Hl' Hnone Hnel. rewrite lookup_insert_ne // in Hl'. congruence.
  - apply subset_size. rewrite dom_insert_L.
    assert (l ∈ dom h0) by by apply elem_of_dom.
    assert (l ∉ dom m) by by apply not_elem_of_dom.
    set_solver.
Qed.

Lemma refs_wf_values (h : heap) vs :
  Forall (λ c, is_Some (h !! c)) (value_refs vs) → Forall (value_wf h) vs.
Proof.
  induction vs as [|v vs IH]; first constructor.
  rewrite value_refs_cons. destruct v as [a|c].
  - intros Hrefs. constructor; [done|by apply IH].
  - rewrite Forall_cons. intros [? ?]. constructor; [done|by apply IH].
Qed.

Lemma h0_items_wf l items :
  h0 !! l = Some (ODict items) →
  NoDup items.*1 ∧ Forall (value_wf h0) items.*2.
Proof.
  intros Hl. destruct (map_Forall_lookup_1 _ _ _ _ h0_wf Hl) as [Hrefs Hnd].
  split; first done. by apply refs_wf_values.
Qed.

Lemma h0_elems_wf l elems :
  h0 !! l = Some (OList elems) → Forall (value_wf h0) elems.
Proof.
  intros Hl. destruct (map_Forall_lookup_1 _ _ _ _ h0_wf Hl) as [Hrefs _].
  by apply refs_wf_values.
Qed.

(** [deepcopy] returns when the depth it is allowed covers the containers
    not yet copied, and then it has done what [copy_post] says. *)
Lemma deepcopy_spec fuel : rec_spec fuel (deepcopy fuel).
Proof.
  induction fuel as [|fuel IH]; intros h m v Hinv Hv Hsize.
  - destruct v as [a|l]; simpl.
    { eexists _, _, _. split; first done. by apply copy_post_refl. }
    destruct (m !! l) as [y|] eqn:Hm.
    { eexists _, _, _. split; first done. apply copy_post_refl; first done.
      by exists y. }
    exfalso. assert (l ∈ dom h0 ∖ dom m) as Hin.
    { apply elem_of_difference. split; first by apply elem_of_dom.
      by apply not_elem_of_dom. }
    assert (dom h0 ∖ dom m ≡ ∅) as Hempty by (apply size_empty_inv; lia).
    set_solver.
  - destruct v as [a|l]; simpl.
    { eexists _, _, _. split; first done. by apply copy_post_refl. }
    destruct (m !! l) as [y|] eqn:Hm.
    { eexists _, _, _. split; first done. apply copy_post_refl; first done.
      by exists y. }
    simpl in Hv. rewrite (ci_frame _ _ Hinv l Hv).
    pose proof Hv as [o Hl]. rewrite Hl.
    destruct o as [items|elems].
    + destruct (building_alloc h m l (ODict []) Hinv Hv Hm) as [Hb Hlt].
      destruct (h0_items_wf _ _ Hl) as [Hnd Hwf].
      destruct (copy_items_spec _ fuel _ _ _ _ IH Hm items [] [] _ _ Hb)
        as (h' & m' & acc' & Hloop & [Hinv' Hsub' Hself' Hkeep' Hfull'] & Hy' & Hacc');
        [lia|by rewrite lookup_insert_eq|constructor|done|done|].
      rewrite /alloc Hloop /=.
      eexists _, _, _. split; first done. split; try done.
      * by eexists.
      * intros l' y' Hl' Hnone. destruct (decide (l' = l)) as [->|Hne].
        -- assert (y' = fresh (dom h)) as -> by congruence.
           by exists (ODict items), (ODict acc').
        -- by apply Hfull'.
    + destruct (building_alloc h m l (OList []) Hinv Hv Hm) as [Hb Hlt].
      pose proof (h0_elems_wf _ _ Hl) as Hwf.
      destruct (copy_elems_spec _ fuel _ _ _ _ IH Hm elems [] [] _ _ Hb)
        as (h' & m' & acc' & Hloop & [Hinv' Hsub' Hself' Hkeep' Hfull'] & Hy' & Hacc');
        [lia|by rewrite lookup_insert_eq|constructor|done|].
      rewrite /alloc Hloop /=.
      eexists _, _, _. split; first done. split; try done.
      * by eexists.
      * intros l' y' Hl' Hnone. destruct (decide (l' = l)) as [->|Hne].
        -- assert (y' = fresh (dom h)) as -> by congruence.
           by exists (OList elems), (OList acc').
        -- by apply Hfull'.
Qed.

Lemma copy_inv_init : copy_inv h0 ∅.
Proof.
  split; try done.
  intros y [o Hy] Hnone. congruence.
Qed.

(** The finished copy: what [copy.deepcopy(x)] leaves. *)
Record deep_copy (x : value) (h' : heap) (m' : memo) (x' : value) : Prop := {
  dc_inv : copy_inv h' m';
  dc_value : copy_of m' x x';
  dc_full : ∀ l y, m' !! l = Some y → full_copy h' m' l y
}.

(** With room for as many nested calls as the heap has objects, the copy
    returns. *)
Lemma copy_deepcopy_spec depth x :
  size h0 ≤ depth → value_wf h0 x →
  ∃ h' m' x',
    deepcopy depth h0 ∅ x = (h', Ok (m', x'))
    ∧ copy_deepcopy depth h0 x = (h', Ok x')
    ∧ deep_copy x h' m' x'.
Proof.
  intros Hdepth Hx.
  destruct (deepcopy_spec depth h0 ∅ x copy_inv_init Hx)
    as (h' & m' & x' & Hrun & [Hinv _ Hval _ Hfull]).
  { etrans; last exact Hdepth. rewrite -size_dom. apply subseteq_size. set_solver. }
  exists h', m', x'. rewrite /copy_deepcopy Hrun /=. split_and!; try done.
  split; try done. intros l y Hl. by apply Hfull.
Qed.

Section Copied.

Variables (x : value) (h' : heap) (m' : memo) (x' : value).
Hypothesis Hcopy : deep_copy x h' m' x'.

(** The input is untouched. *)
Lemma deep_copy_frame l : is_Some (h0 !! l) → h' !! l = h0 !! l.
Proof. apply (ci_frame _ _ (dc_inv _ _ _ _ Hcopy)). Qed.

Lemma copy_of_refs vs vs' c' :
  Forall2 (copy_of m') vs vs' → c' ∈ value_refs vs' →
  ∃ c, c ∈ value_refs vs ∧ m' !! c = Some c'.
Proof.
  induction 1 as [|v v' vs vs' Hv _ IH]; first by intros ?%elem_of_nil.
  rewrite !value_refs_cons. destruct v as [a|l]; simpl in Hv.
  - subst v'. intros (c & ? & ?)%IH. by exists c.
  - destruct Hv as (y & Hy & ->). intros [->|Hin]%elem_of_cons.
    + exists l. split; [left|done].
    + destruct (IH Hin) as (c & ? & ?). exists c. split; [by right|done].
Qed.

Lemma items_copy_values items items' :
  items_copy m' items items' → Forall2 (copy_of m') items.*2 items'.*2.
Proof.
  induction 1 as [|kv kv' items items' [_ Hv] _ IH]; first constructor.
  rewrite !fmap_cons. by constructor.
Qed.

Lemma obj_copy_values o o' :
  obj_copy m' o o' → Forall2 (copy_of m') (obj_values o) (obj_values o').
Proof.
  destruct o, o'; simpl; try done. apply items_copy_values.
Qed.

(** A new object refers to new objects only: the copy shares no container
    with the input. *)
Lemma deep_copy_new_closed y c :
  h0 !! y = None → c ∈ children h' y → h0 !! c = None.
Proof.
  intros Hy Hc. rewrite /children in Hc.
  destruct (h' !! y) as [o'|] eqn:Hy'; last by apply elem_of_nil in Hc.
  destruct (ci_new _ _ (dc_inv _ _ _ _ Hcopy) y) as [l Hl]; [by eexists|done|].
  destruct (dc_full _ _ _ _ Hcopy l y Hl) as (o & o'' & Ho & Ho' & Hobj).
  assert (o'' = o') as -> by congruence.
  destruct (copy_of_refs _ _ _ (obj_copy_values _ _ Hobj) Hc) as (c0 & _ & Hc0).
  by destruct (ci_memo _ _ (dc_inv _ _ _ _ Hcopy) _ _ Hc0) as (_ & ? & _).
Qed.

Lemma deep_copy_reachable_new v l :
  (∀ y, v = VRef y → h0 !! y = None) →
  reachable h' v l → h0 !! l = None.
Proof.
  intros Hv (y & -> & Hrtc). specialize (Hv y eq_refl).
  induction Hrtc as [|y1 y2 y3 Hedge _ IH]; first done.
  apply IH. by eapply deep_copy_new_closed.
Qed.

Lemma copy_of_new v v' y :
  copy_of m' v v' → v' = VRef y → h0 !! y = None.
Proof.
  destruct v as [a|l]; simpl; first congruence.
  intros (y' & Hy' & ->) [= ->].
  by destruct (ci_memo _ _ (dc_inv _ _ _ _ Hcopy) _ _ Hy') as (_ & ? & _).
Qed.

Lemma items_copy_get items items' k v :
  items_copy m' items items' → dict_get items k = Some v →
  ∃ v', dict_get items' k = Some v' ∧ copy_of m' v v'.
Proof.
  induction 1 as [|[k1 v1] [k1' v1'] items items' [Hk Hv] _ IH]; first done.
  simpl in *. subst k1'. case_decide; last done.
  intros [= ->]. by exists v1'.
Qed.

(** The copy has at every path the copy of what the input has there. *)
Lemma deep_copy_lookup_path p v v' w :
  copy_of m' v v' → lookup_path h0 v p = Some w →
  ∃ w', lookup_path h' v' p = Some w' ∧ copy_of m' w w'.
Proof.
  revert v v'. induction p as [|step p IH]; intros v v' Hv; simpl.
  { intros [= <-]. by exists v'. }
  destruct v as [a|l]; first done. destruct Hv as (y & Hy & ->).
  destruct (dc_full _ _ _ _ Hcopy l y Hy) as (o & o' & Ho & Ho' & Hobj).
  rewrite Ho Ho'. destruct o as [items|elems], o' as [items'|elems']; try done.
  - destruct step as [k|i]; last done.
    destruct (dict_get items k) as [v1|] eqn:Hget; last done. simpl.
    destruct (items_copy_get _ _ _ _ Hobj Hget) as (v1' & -> & Hv1). simpl.
    by apply IH.
  - destruct step as [k|i]; first done.
    destruct (elems !! i) as [v1|] eqn:Hget; last done. simpl.
    destruct (Forall2_lookup_l _ _ _ _ _ Hobj Hget) as (v1' & -> & Hv1). simpl.
    by apply IH.
Qed.

End Copied.

End DeepCopyFacts.

(** ** The copy, whatever its outcome *)

(** [heap_frame h h']: every object of [h] is in [h'] as it is in [h]. *)
Definition heap_frame (h h' : heap) : Prop :=
  ∀ l, is_Some (h !! l) → h' !! l = h !! l.

Lemma heap_frame_refl h : heap_frame h h.
Proof. done. Qed.

Lemma heap_frame_trans h1 h2 h3 :
  heap_frame h1 h2 → heap_frame h2 h3 → heap_frame h1 h3.
Proof.
  intros H12 H23 l Hl. rewrite -(H12 l Hl). apply H23. by rewrite (H12 l Hl).
Qed.

Lemma heap_frame_alloc h o : heap_frame h (alloc h o).1.
Proof.
  intros l [o' Hl]. rewrite /alloc /= lookup_insert_ne //.
  intros <-. assert (h !! fresh (dom h) = None) by apply not_elem_of_dom, is_fresh.
  congruence.
Qed.

Lemma heap_setitem_other h y k v l : l ≠ y → heap_setitem h y k v !! l = h !! l.
Proof.
  intros Hne. rewrite /heap_setitem.
  destruct (h !! y) as [[items|elems]|]; try done. by rewrite lookup_insert_ne.
Qed.

Lemma heap_append_other h y v l : l ≠ y → heap_append h y v !! l = h !! l.
Proof.
  intros Hne. rewrite /heap_append.
  destruct (h !! y) as [[items|elems]|]; try done. by rewrite lookup_insert_ne.
Qed.

Section CopyOutcome.

Variables rec rec' : heap → memo → value → heap * result (memo * value).

(** The loops write to [y] only, when the nested call writes to nothing
    that was there. *)
Lemma copy_items_frame y items :
  (∀ h m v h' r, rec h m v = (h', r) → heap_frame h h') →
  ∀ h m h' r, copy_items rec y items h m = (h', r) →
    ∀ l, l ≠ y → is_Some (h !! l) → h' !! l = h !! l.
Proof.
  intros Hrec. induction items as [|[k v] items IH]; intros h m h' r; simpl.
  { by intros [= <- _]. }
  destruct (rec h m v) as [h1 [[m1 v']|e]] eqn:Hcall.
  - intros Hloop l Hne Hl. pose proof (Hrec _ _ _ _ _ Hcall l Hl) as H1.
    rewrite -H1 -(heap_setitem_other h1 y k v' l Hne).
    eapply IH; [done|done|]. by rewrite heap_setitem_other // H1.
  - intros [= <- _] l _ Hl. by eapply Hrec.
Qed.

Lemma copy_elems_frame y elems :
  (∀ h m v h' r, rec h m v = (h', r) → heap_frame h h') →
  ∀ h m h' r, copy_elems rec y elems h m = (h', r) →
    ∀ l, l ≠ y → is_Some (h !! l) → h' !! l = h !! l.
Proof.
  intros Hrec. induction elems as [|v elems IH]; intros h m h' r; simpl.
  { by intros [= <- _]. }
  destruct (rec h m v) as [h1 [[m1 v']|e]] eqn:Hcall.
  - intros Hloop l Hne Hl. pose proof (Hrec _ _ _ _ _ Hcall l Hl) as H1.
    rewrite -H1 -(heap_append_other h1 y v' l Hne).
    eapply IH; [done|done|]. by rewrite heap_append_other // H1.
  - intros [= <- _] l _ Hl. by eapply Hrec.
Qed.

(** A loop that returns with [rec] returns the same with a [rec'] that
    returns whenever [rec] does. *)
Lemma copy_items_mono y items :
  (∀ h m v h' mv, rec h m v = (h', Ok mv) → rec' h m v = (h', Ok mv)) →
  ∀ h m h' m', copy_items rec y items h m = (h', Ok m') →
    copy_items rec' y items h m = (h', Ok m').
Proof.
  intros Hrec. induction items as [|[k v] items IH]; intros h m h' m'; simpl; first done.
  destruct (rec h m v) as [h1 [[m1 v']|e]] eqn:Hcall; last done.
  rewrite (Hrec _ _ _ _ _ Hcall). apply IH.
Qed.

Lemma copy_elems_mono y elems :
  (∀ h m v h' mv, rec h m v = (h', Ok mv) → rec' h m v = (h', Ok mv)) →
  ∀ h m h' m', copy_elems rec y elems h m = (h', Ok m') →
    copy_elems rec' y elems h m = (h', Ok m').
Proof.
  intros Hrec. induction elems as [|v elems IH]; intros h m h' m'; simpl; first done.
  destruct (rec h m v) as [h1 [[m1 v']|e]] eqn:Hcall; last done.
  rewrite (Hrec _ _ _ _ _ Hcall). apply IH.
Qed.

(** The loops raise what the nested call raises. *)
Lemma copy_items_raises y items (P : exn → Prop) :
  (∀ h m v h' e, rec h m v = (h', Raise e) → P e) →
  ∀ h m h' e, copy_items rec y items h m = (h', Raise e) → P e.
Proof.
  intros Hrec. induction items as [|[k v] items IH]; intros h m h' e; simpl; first done.
  destruct (rec h m v) as [h1 [[m1 v']|e1]] eqn:Hcall; first apply IH.
  intros [= _ <-]. by eapply Hrec.
Qed.

Lemma copy_elems_raises y elems (P : exn → Prop) :
  (∀ h m v h' e, rec h m v = (h', Raise e) → P e) →
  ∀ h m h' e, copy_elems rec y elems h m = (h', Raise e) → P e.
Proof.
  intros Hrec. induction elems as [|v elems IH]; intros h m h' e; simpl; first done.
  destruct (rec h m v) as [h1 [[m1 v']|e1]] eqn:Hcall; first apply IH.
  intros [= _ <-]. by eapply Hrec.
Qed.

End CopyOutcome.

(** Returned or raised, [deepcopy] leaves every object that was there as it
    was: it writes to the containers it creates. *)
Lemma deepcopy_frame depth :
  ∀ h m x h' r, deepcopy depth h m x = (h', r) → heap_frame h h'.
Proof.
  induction depth as [|depth IH]; intros h m x h' r.
  - destruct x as [a|l]; simpl; first by intros [= <- _].
    destruct (m !! l); first by intros [= <- _].
    destruct (h !! l); by intros [= <- _].
  - destruct x as [a|l]; simpl; first by intros [= <- _].
    destruct (m !! l); first by intros [= <- _].
    destruct (h !! l) as [[items|elems]|] eqn:Hl; last by intros [= <- _].
    + rewrite /alloc.
      destruct (copy_items _ _ _ _ _) as [h2 r2] eqn:Hloop.
      intros Hrun. assert (h' = h2) as -> by by destruct r2; injection Hrun.
      intros l' Hl'.
      assert (l' ≠ fresh (dom h)) as Hne.
      { intros ->. destruct Hl' as [? Hl'].
        assert (h !! fresh (dom h) = None) by apply not_elem_of_dom, is_fresh.
        congruence. }
      rewrite (copy_items_frame _ _ _ IH _ _ _ _ Hloop l' Hne) lookup_insert_ne //.
    + rewrite /alloc.
      destruct (copy_elems _ _ _ _ _) as [h2 r2] eqn:Hloop.
      intros Hrun. assert (h' = h2) as -> by by destruct r2; injection Hrun.
      intros l' Hl'.
      assert (l' ≠ fresh (dom h)) as Hne.
      { intros ->. destruct Hl' as [? Hl'].
        assert (h !! fresh (dom h) = None) by apply not_elem_of_dom, is_fresh.
        congruence. }
      rewrite (copy_elems_frame _ _ _ IH _ _ _ _ Hloop l' Hne) lookup_insert_ne //.
Qed.

(** What returns at some depth returns the same at any larger one. *)
Lemma deepcopy_depth_mono depth :
  ∀ depth', depth ≤ depth' →
  ∀ h m x h' mv, deepcopy depth h m x = (h', Ok mv) → deepcopy depth' h m x = (h', Ok mv).
Proof.
  induction depth as [|depth IH]; intros depth' Hle h m x h' mv.
  - destruct x as [a|l]; simpl; first by destruct depth'.
    destruct (m !! l) eqn:Hm; first by (destruct depth'; simpl; rewrite Hm).
    destruct (h !! l) eqn:Hl; first done.
    destruct depth'; simpl; by rewrite Hm Hl.
  - destruct depth' as [|depth']; first lia.
    destruct x as [a|l]; simpl; first done.
    destruct (m !! l) eqn:Hm; first done.
    destruct (h !! l) as [[items|elems]|] eqn:Hl; last done.
    + rewrite /alloc.
      destruct (copy_items (deepcopy depth) _ _ _ _) as [h2 [m2|e]] eqn:Hloop; last done.
      erewrite copy_items_mono; [done| |exact Hloop].
      apply IH. lia.
    + rewrite /alloc.
      destruct (copy_elems (deepcopy depth) _ _ _ _) as [h2 [m2|e]] eqn:Hloop; last done.
      erewrite copy_elems_mono; [done| |exact Hloop].
      apply IH. lia.
Qed.

(** The only exception of [deepcopy] is [RecursionError]. *)
Lemma deepcopy_raises depth :
  ∀ h m x h' e, deepcopy depth h m x = (h', Raise e) → e = Exn RecursionError None.
Proof.
  induction depth as [|depth IH]; intros h m x h' e.
  - destruct x as [a|l]; simpl; first done.
    destruct (m !! l); first done.
    destruct (h !! l); [by intros [= _ <-]|done].
  - destruct x as [a|l]; simpl; first done.
    destruct (m !! l); first done.
    destruct (h !! l) as [[items|elems]|] eqn:Hl; last done.
    + rewrite /alloc.
      destruct (copy_items (deepcopy depth) _ _ _ _) as [h2 [m2|e2]] eqn:Hloop; first done.
      intros [= _ <-].
      by eapply (copy_items_raises _ _ _ (λ e, e = Exn RecursionError None)).
    + rewrite /alloc.
      destruct (copy_elems (deepcopy depth) _ _ _ _) as [h2 [m2|e2]] eqn:Hloop; first done.
      intros [= _ <-].
      by eapply (copy_elems_raises _ _ _ (λ e, e = Exn RecursionError None)).
Qed.

(** [copy.deepcopy(x)]: it returns a finished copy or raises
    [RecursionError], and either way the objects that were there are as
    they were. *)
Lemma copy_deepcopy_outcome depth h x :
  heap_wf h → value_wf h x →
  ∃ h' r,
    copy_deepcopy depth h x = (h', r)
    ∧ heap_frame h h'
    ∧ match r with
      | Ok x' => ∃ m', deepcopy depth h ∅ x = (h', Ok (m', x')) ∧ deep_copy h x h' m' x'
      | Raise e => e = Exn RecursionError None
      end.
Proof.
  intros Hwf Hx. rewrite /copy_deepcopy.
  destruct (deepcopy depth h ∅ x) as [h' [[m' x']|e]] eqn:Hrun.
  - exists h', (Ok x'). split_and!; first done.
    + by eapply deepcopy_frame.
    + exists m'. split; first done.
      destruct (copy_deepcopy_spec h Hwf (depth `max` size h) x)
        as (h2 & m2 & x2 & Hrun2 & _ & Hdc); [lia|done|].
      assert (depth ≤ depth `max` size h) as Hle by lia.
      rewrite (deepcopy_depth_mono depth _ Hle _ _ _ _ _ Hrun) in Hrun2.
      by injection Hrun2 as <- <- <-.
  - exists h', (Raise e). split_and!; first done.
    + by eapply deepcopy_frame.
    + by eapply deepcopy_raises.
Qed.

(** ** The normalizer on a mapping *)

Lemma lookup_path_app h v p1 p2 :
  lookup_path h v (p1 ++ p2) = lookup_path h v p1 ≫= λ w, lookup_path h w p2.
Proof.
  revert v. induction p1 as [|step p1 IH]; intros v; first done.
  cbn [app lookup_path]. destruct v as [a|l]; first done.
  destruct (h !! l) as [[items|elems]|]; try done.
  - destruct step as [k|i]; last done.
    destruct (dict_get items k) as [v1|]; last done. simpl. apply IH.
  - destruct step as [k|i]; first done.
    destruct (elems !! i) as [v1|]; last done. simpl. apply IH.
Qed.

Lemma py_getitem_lookup_path h v k w :
  py_getitem h v k = Ok w ↔ lookup_path h v [PKey k] = Some w.
Proof.
  rewrite /py_getitem /=. destruct v as [a|l]; first done.
  destruct (h !! l) as [[items|elems]|]; try done.
  destruct (dict_get items k) as [v1|]; simpl; last done.
  split; by intros [= ->].
Qed.

Lemma lookup_path_key_child h v k c :
  lookup_path h v [PKey k] = Some (VRef c) → ∃ l, v = VRef l ∧ c ∈ children h l.
Proof.
  simpl. destruct v as [a|l]; first done. intros Hget. exists l. split; first done.
  rewrite /children. destruct (h !! l) as [[items|elems]|]; try done.
  destruct (dict_get items k) as [v1|] eqn:Hk; last done.
  simpl in Hget. injection Hget as ->. by eapply dict_get_refs.
Qed.

Section NormalizerFacts.

Variable format : string → string → result string.
Variable recursion_depth : nat.
Variable repr_extern : heap → value → result string.
Variable model_json_schema : heap → value → string → heap * result value.
Variable to_strict_json_schema : heap → value → heap * result value.

Abbreviation helper := (_dict_to_response_format_helper format recursion_depth).
Abbreviation normalize :=
  (type_to_response_format_param format recursion_depth repr_extern model_json_schema
     to_strict_json_schema).

(** The path from the mapping to its schema. *)
Definition schema_path : path := [PKey "json_schema"; PKey "schema"].

(** The copying branch of the helper, step by step: the copy raises
    [RecursionError], or it returns and the schema is looked up in the copy,
    and if that returns [update_refs] runs on it. *)
Lemma helper_run h a items template :
  heap_wf h → h !! a = Some (ODict items) → has_json_schema_type items = true →
  (∃ h1,
     copy_deepcopy recursion_depth h (VRef a) = (h1, builtin_error RecursionError)
     ∧ heap_frame h h1
     ∧ helper h (VRef a) (Some template) = Some (h1, builtin_error RecursionError))
  ∨ ∃ h1 m1 y,
      copy_deepcopy recursion_depth h (VRef a) = (h1, Ok (VRef y))
      ∧ deepcopy recursion_depth h ∅ (VRef a) = (h1, Ok (m1, VRef y))
      ∧ deep_copy h (VRef a) h1 m1 (VRef y)
      ∧ m1 !! a = Some y
      ∧ match py_getitem h1 (VRef y) "json_schema"
              ≫= λ json_schema, py_getitem h1 json_schema "schema" with
        | Raise e => helper h (VRef a) (Some template) = Some (h1, Raise e)
        | Ok schema =>
            ∃ out,
              update_refs format template h1 schema = Some out
              ∧ loop_post format template h1 schema out
              ∧ (∀ c, schema = VRef c → h !! c = None)
              ∧ helper h (VRef a) (Some template)
                = Some (out_heap out, out_result out ≫= λ _, Ok (VRef y))
        end.
Proof.
  intros Hwf Ha Htype. rewrite /_dict_to_response_format_helper Ha Htype.
  destruct (copy_deepcopy_outcome recursion_depth h (VRef a) Hwf)
    as (h1 & [x1|e] & Hcopy & Hframe & Hcopied); first by eexists.
  2:{ subst e. left. exists h1. by rewrite Hcopy. }
  destruct Hcopied as (m1 & Hdeep & Hdc).
  destruct (dc_value _ _ _ _ _ Hdc) as (y & Hy & ->).
  right. exists h1, m1, y. rewrite Hcopy. split_and!; try done.
  destruct (py_getitem h1 (VRef y) "json_schema"
            ≫= λ json_schema, py_getitem h1 json_schema "schema")
    as [schema|e] eqn:Hschema; last done.
  destruct (update_refs_post format template h1 schema) as (out & Hrun & Hpost).
  exists out. rewrite Hrun. split_and!; try done.
  intros c ->.
  destruct (py_getitem h1 (VRef y) "json_schema") as [json_schema|] eqn:Hjs; last done.
  simpl in Hschema. apply py_getitem_lookup_path in Hjs, Hschema.
  apply lookup_path_key_child in Hschema as (j & -> & Hc).
  apply lookup_path_key_child in Hjs as (? & [= <-] & Hj).
  assert (h !! y = None) as Hynew.
  { by destruct (ci_memo _ _ _ (dc_inv _ _ _ _ _ Hdc) _ _ Hy) as (_ & ? & _). }
  eapply deep_copy_new_closed; [done| |done].
  by eapply deep_copy_new_closed.
Qed.

(** With a template and ["type": "json_schema"]: the helper returns or
    raises; the objects of the input heap are as they were; what it returns
    is a new object that has, wherever the input has a string ["$ref"] under
    its schema, the template applied to the last segment of that string. *)
Lemma helper_rewrites h a items template :
  heap_wf h → h !! a = Some (ODict items) → has_json_schema_type items = true →
  ∃ h' r,
    helper h (VRef a) (Some template) = Some (h', r)
    ∧ (∀ l, is_Some (h !! l) → h' !! l = h !! l)
    ∧ ∀ v, r = Ok v →
        ∃ y, v = VRef y ∧ h !! y = None
        ∧ ∀ q s,
            lookup_path h (VRef a) (schema_path ++ q ++ [PKey "$ref"])
              = Some (VAtom (AStr s)) →
            ∃ name new_ref,
              last_segment s = Ok name ∧ format template name = Ok new_ref
              ∧ lookup_path h' (VRef y) (schema_path ++ q ++ [PKey "$ref"])
                = Some (VAtom (AStr new_ref)).
Proof.
  intros Hwf Ha Htype.
  destruct (helper_run h a items template Hwf Ha Htype)
    as [(h1 & _ & Hframe & Hrun)|(h1 & m1 & y & _ & _ & Hdc & Hy & Hrun)].
  { by exists h1, (builtin_error RecursionError). }
  assert (h !! y = None) as Hynew.
  { by destruct (ci_memo _ _ _ (dc_inv _ _ _ _ _ Hdc) _ _ Hy) as (_ & ? & _). }
  destruct (py_getitem h1 (VRef y) "json_schema"
            ≫= λ json_schema, py_getitem h1 json_schema "schema")
    as [schema|e] eqn:Hschema.
  2:{ eexists _, _. split; first done. split; last done.
      intros l Hl. by eapply deep_copy_frame. }
  destruct Hrun as (out & Hrun & Hpost & Hnew & Hhelper).
  destruct (py_getitem h1 (VRef y) "json_schema") as [json_schema|] eqn:Hjs; last done.
  simpl in Hschema.
  apply py_getitem_lookup_path in Hjs, Hschema.
  eexists _, _. split; first done. split.
  - intros l Hl. rewrite (post_frame _ _ _ _ _ Hpost).
    + by eapply deep_copy_frame.
    + intros Hin%(post_reach _ _ _ _ _ Hpost).
      pose proof (deep_copy_reachable_new _ _ _ _ _ Hdc _ _ Hnew Hin) as Hnone.
      rewrite Hnone in Hl. by destruct Hl.
  - intros v Hv.
    destruct (out_result out) as [[]|] eqn:Hok; last done.
    simpl in Hv. injection Hv as <-.
    exists y. split_and!; try done. intros q s Hpath.
    destruct (deep_copy_lookup_path _ _ _ _ _ Hdc _ (VRef a) (VRef y) _
                ltac:(by exists y) Hpath) as (w' & Hpath1 & Hw').
    simpl in Hw'. subst w'.
    assert (lookup_path h1 (VRef y) schema_path = Some schema) as Hsp.
    { rewrite /schema_path (lookup_path_app _ _ [_] [_]) Hjs. done. }
    rewrite lookup_path_app Hsp /= in Hpath1.
    destruct (returned_ref_at_path _ _ _ _ _ Hpost Hok q schema s)
      as (name & new_ref & Hname & Hfmt & Hpath2); [|done|].
    { intros l ->. exists l. by split. }
    exists name, new_ref. split_and!; try done.
    rewrite lookup_path_app.
    assert (lookup_path (out_heap out) (VRef y) schema_path = Some schema) as ->; last done.
    rewrite /schema_path (lookup_path_app _ _ [_] [_]).
    rewrite (returned_key_step _ _ _ _ _ Hpost Hok _ _ _ _ Hjs) //=.
    by apply (returned_key_step _ _ _ _ _ Hpost Hok).
Qed.

End NormalizerFacts.

(** ** The last path segment *)

Lemma str_split_nonempty sep s : str_split sep s ≠ [].
Proof.
  destruct s as [|c s]; simpl; first done.
  case_decide; first done. by destruct (str_split sep s).
Qed.

(** [split] never hands back an empty list: [[-1]] always finds an item. *)
Lemma last_segment_total s : ∃ name, last_segment s = Ok name.
Proof.
  rewrite /last_segment /last_item.
  destruct (last (str_split "/" s)) as [name|] eqn:Hlast; first by exists name.
  apply last_None in Hlast. by destruct (str_split_nonempty "/" s).
Qed.

Lemma str_split_no_sep sep s : str_mem sep s = false → str_split sep s = [s].
Proof.
  induction s as [|c s IH]; simpl; first done.
  intros [Hc Hs]%orb_false_elim. apply bool_decide_eq_false in Hc.
  rewrite decide_False // IH //.
Qed.

Lemma str_split_app sep p q :
  str_mem sep q = false →
  str_split sep (p +:+ String sep q) = str_split sep p ++ [q].
Proof.
  intros Hq. induction p as [|c p IH]; simpl.
  - rewrite decide_True // str_split_no_sep //.
  - rewrite IH. case_decide; first done.
    pose proof (str_split_nonempty sep p). by destruct (str_split sep p).
Qed.

(** A string without ['/'] is its own last segment. *)
Lemma last_segment_whole s : str_mem "/" s = false → last_segment s = Ok s.
Proof. intros Hs. by rewrite /last_segment str_split_no_sep. Qed.

(** Otherwise the last segment is what follows the final ['/']. *)
Lemma last_segment_after p q :
  str_mem "/" q = false → last_segment (p +:+ String "/" q) = Ok q.
Proof.
  intros Hq. by rewrite /last_segment str_split_app // /last_item last_snoc.
Qed.

(** Both at once: the last segment has no ['/'] and the string is it or
    ends with ['/'] and it. *)
Lemma last_segment_spec s name :
  last_segment s = Ok name →
  str_mem "/" name = false ∧ (s = name ∨ ∃ p, s = p +:+ String "/" name).
Proof.
  revert name. induction s as [|c s IH]; intros name.
  { intros [= <-]. split; [done|by left]. }
  destruct (last_segment_total s) as [name' Hname'].
  destruct (IH name' Hname') as [Hmem Hform].
  rewrite /last_segment /last_item in Hname' |- *. simpl.
  destruct (last (str_split "/" s)) as [x|] eqn:Hlast; last done.
  injection Hname' as ->.
  case_decide as Hc.
  - subst c. rewrite last_cons Hlast. intros [= <-]. split; first done.
    right. destruct Hform as [->|[p ->]]; [by exists ""|by exists (String "/" p)].
  - destruct (str_split "/" s) as [|piece pieces] eqn:Hsplit; first done.
    rewrite last_cons. destruct pieces as [|piece' pieces]; simpl.
    + simpl in Hlast. injection Hlast as ->. intros [= <-].
      assert (s = name') as ->.
      { destruct Hform as [->|[p ->]]; first done.
        rewrite str_split_app // in Hsplit.
        pose proof (str_split_nonempty "/" p).
        destruct (str_split "/" p) as [|? [|? ?]]; done. }
      split; last by left.
      simpl. rewrite Hmem orb_false_r. by apply bool_decide_eq_false.
    + rewrite last_cons in Hlast.
      destruct (last (piece' :: pieces)) as [z|] eqn:Hz; last by apply last_None in Hz.
      injection Hlast as ->. intros [= <-]. split; first done. right.
      destruct Hform as [->|[p ->]]; last by exists (String c p).
      rewrite str_split_no_sep // in Hsplit.
Qed.

(** ** Role remapping *)

(** A chat message as its type has it: a dict with a ["role"], and with a
    ["content"] when the role is ["developer"]. *)
Definition message_ok (h : heap) (m : value) : Prop :=
  ∃ role, py_getitem h m "role" = Ok role
          ∧ (is_str role "developer" = true → ∃ content, py_getitem h m "content" = Ok content).

(** [m'] in [h'] is what the loop appends for [m]: for a developer message
    a new dict with the role ["system"] and the content of [m], otherwise
    [m] itself. *)
Definition remapped (h h' : heap) (m m' : value) : Prop :=
  ∃ role, py_getitem h m "role" = Ok role ∧
    if is_str role "developer"
    then ∃ d content,
           m' = VRef d ∧ h !! d = None ∧ py_getitem h m "content" = Ok content
           ∧ h' !! d = Some (ODict [("role", VAtom (AStr "system")); ("content", content)])
    else m' = m.

Lemma py_getitem_frame (h h' : heap) m k v :
  (∀ l, is_Some (h !! l) → h' !! l = h !! l) →
  py_getitem h m k = Ok v → py_getitem h' m k = Ok v.
Proof.
  intros Hframe. rewrite /py_getitem. destruct m as [a|l]; first done.
  destruct (h !! l) as [o|] eqn:Hl; last done.
  rewrite Hframe ?Hl //.
Qed.

Lemma remap_roles_spec (h : heap) new_messages messages :
  h !! new_messages = None →
  Forall (message_ok h) messages →
  ∀ hc acc,
    (∀ l, is_Some (h !! l) → hc !! l = h !! l) →
    hc !! new_messages = Some (OList acc) →
    ∃ h' out,
      remap_roles hc new_messages messages = (h', Ok ())
      ∧ (∀ l, is_Some (h !! l) → h' !! l = h !! l)
      ∧ (∀ l, l ≠ new_messages → is_Some (hc !! l) → h' !! l = hc !! l)
      ∧ h' !! new_messages = Some (OList (acc ++ out))
      ∧ Forall2 (remapped h h') messages out.
Proof.
  intros Hnm. induction 1 as [|m messages (role & Hrole & Hcontent) _ IH];
    intros hc acc Hframe Hacc.
  { exists hc, []. rewrite app_nil_r. by split_and!. }
  cbn [remap_roles]. rewrite (py_getitem_frame _ _ _ _ _ Hframe Hrole).
  destruct (is_str role "developer") eqn:Hdev.
  - destruct (Hcontent eq_refl) as [content Hc].
    rewrite (py_getitem_frame _ _ _ _ _ Hframe Hc) /alloc /heap_append.
    set (d := fresh (dom hc)).
    assert (hc !! d = None) as Hd by apply not_elem_of_dom, is_fresh.
    assert (d ≠ new_messages) as Hne by (intros Heq; congruence).
    assert (h !! d = None) as Hd0.
    { destruct (h !! d) as [o|] eqn:Hhd; last done.
      assert (is_Some (h !! d)) as Hs by by exists o.
      apply Hframe in Hs. congruence. }
    rewrite lookup_insert_ne // Hacc.
    destruct (IH (<[new_messages := OList (acc ++ [VRef d])]>
                    (<[d := ODict [("role", VAtom (AStr "system")); ("content", content)]]> hc))
                 (acc ++ [VRef d]))
      as (h' & out & -> & Hframe' & Hkeep' & Hacc' & Hout).
    + intros l Hl. rewrite !lookup_insert_ne; [apply Hframe, Hl|..];
        intros <-; destruct Hl; congruence.
    + by rewrite lookup_insert_eq.
    + exists h', (VRef d :: out). split_and!; try done.
      * intros l Hl Hs. rewrite Hkeep' //.
        -- rewrite !lookup_insert_ne //. intros <-. destruct Hs. congruence.
        -- rewrite lookup_insert_ne //. rewrite lookup_insert.
           case_decide; [by eexists|done].
      * by rewrite -assoc in Hacc'.
      * constructor; last done. exists role. rewrite Hdev. split; first done.
        exists d, content. split_and!; try done.
        rewrite Hkeep' //; rewrite lookup_insert_ne // lookup_insert_eq //.
  - rewrite /heap_append Hacc.
    destruct (IH (<[new_messages := OList (acc ++ [m])]> hc) (acc ++ [m]))
      as (h' & out & -> & Hframe' & Hkeep' & Hacc' & Hout).
    + intros l Hl. rewrite lookup_insert_ne; first by apply Hframe.
      intros <-. destruct Hl. congruence.
    + by rewrite lookup_insert_eq.
    + exists h', (m :: out). split_and!; try done.
      * intros l Hl Hs. rewrite Hkeep' //; rewrite lookup_insert_ne //.
      * by rewrite -assoc in Hacc'.
      * constructor; last done. exists role. by rewrite Hdev.
Qed.

(** The whole function, on messages as their type has them. *)
Lemma map_developer_role_to_system_role_spec (h : heap) messages :
  Forall (message_ok h) messages →
  ∃ h' l out,
    map_developer_role_to_system_role h messages = (h', Ok (VRef l))
    ∧ h !! l = None
    ∧ h' !! l = Some (OList out)
    ∧ (∀ a, is_Some (h !! a) → h' !! a = h !! a)
    ∧ Forall2 (remapped h h') messages out.
Proof.
  intros Hok. rewrite /map_developer_role_to_system_role /alloc.
  set (l := fresh (dom h)).
  assert (h !! l = None) as Hl by apply not_elem_of_dom, is_fresh.
  destruct (remap_roles_spec h l messages Hl Hok (<[l := OList []]> h) [])
    as (h' & out & -> & Hframe & _ & Hout & Hrel).
  - intros a Ha. rewrite lookup_insert_ne //. intros <-. destruct Ha. congruence.
  - by rewrite lookup_insert_eq.
  - by exists h', l, out.
Qed.

(** ** Pass-through and refusal in the normalizer *)

Section NormalizerCases.

Variable format : string → string → result string.
Variable recursion_depth : nat.
Variable repr_extern : heap → value → result string.
Variable model_json_schema : heap → value → string → heap * result value.
Variable to_strict_json_schema : heap → value → heap * result value.

Abbreviation helper' := (_dict_to_response_format_helper format recursion_depth).
Abbreviation normalize' :=
  (type_to_response_format_param format recursion_depth repr_extern model_json_schema
     to_strict_json_schema).

Lemma normalize_dict h a items ref_template :
  h !! a = Some (ODict items) →
  normalize' h (VRef a) ref_template = helper' h (VRef a) ref_template.
Proof. intros Ha. by rewrite /type_to_response_format_param /= Ha. Qed.

Lemma helper_passthrough h a items ref_template :
  h !! a = Some (ODict items) →
  ref_template = None ∨ has_json_schema_type items = false →
  helper' h (VRef a) ref_template = Some (h, Ok (VRef a)).
Proof.
  intros Ha [->|Htype]; first done.
  rewrite /_dict_to_response_format_helper Ha Htype. by destruct ref_template.
Qed.

Lemma normalize_none h ref_template :
  normalize' h (VAtom ANone) ref_template = Some (h, Ok (VAtom ANone)).
Proof. done. Qed.

Lemma normalize_unsupported h response_format ref_template :
  response_format ≠ VAtom ANone →
  is_dict h response_format = false →
  is_basemodel_type response_format = false →
  normalize' h response_format ref_template
  = Some (h, Raise (unsupported repr_extern h response_format)).
Proof.
  intros Hnone Hdict Hbase. rewrite /type_to_response_format_param Hdict Hbase /=.
  by destruct response_format as [[]|].
Qed.

End NormalizerCases.

(** ** When the rewrite of a node returns *)

Section RewriteNode.

Variable format : string → string → result string.
Variable ref_template : string.
Hypothesis format_total : ∀ name, ∃ r, format ref_template name = Ok r.

Lemma rewrite_ref_returns items :
  (∀ v, dict_get items "$ref" = Some v → ∃ s, v = VAtom (AStr s)) →
  ∃ items', rewrite_ref format ref_template items = Ok items'.
Proof.
  intros Hstr. rewrite /rewrite_ref.
  destruct (dict_get items "$ref") as [v|]; last by eexists.
  destruct (Hstr v eq_refl) as [s ->]. simpl.
  destruct (last_segment_total s) as [name ->]. simpl.
  destruct (format_total name) as [r ->]. by eexists.
Qed.

Lemma rewrite_ref_raises items e :
  rewrite_ref format ref_template items = Raise e →
  e = Exn AttributeError None
  ∧ ∃ v, dict_get items "$ref" = Some v ∧ ∀ s, v ≠ VAtom (AStr s).
Proof.
  rewrite /rewrite_ref.
  destruct (dict_get items "$ref") as [v|]; last done.
  destruct v as [[| | |s|]|]; simpl; try (intros [= <-]; split; [done|by eexists]).
  destruct (last_segment_total s) as [name ->]. simpl.
  by destruct (format_total name) as [r ->].
Qed.

End RewriteNode.

(** ** When a run returns *)

(** The rewrite of a dict returns exactly when the dict has no ["$ref"], or
    has a string there whose last segment the template formats. *)
Lemma rewrite_ref_ok_iff format template items :
  (∃ items', rewrite_ref format template items = Ok items')
  ↔ ∀ v, dict_get items "$ref" = Some v →
        ∃ s name new_ref, v = VAtom (AStr s) ∧ last_segment s = Ok name
                          ∧ format template name = Ok new_ref.
Proof.
  split.
  - intros [items' Hrw] v Hget.
    destruct (rewrite_ref_ok_string _ _ _ _ _ Hrw Hget) as [s ->].
    destruct (rewrite_ref_string _ _ _ _ _ Hget Hrw) as (name & new_ref & ? & ? & _).
    by exists s, name, new_ref.
  - intros Hstr. rewrite /rewrite_ref.
    destruct (dict_get items "$ref") as [v|]; last by eexists.
    destruct (Hstr v eq_refl) as (s & name & new_ref & -> & Hname & Hfmt).
    rewrite /model_name_of Hname /= Hfmt /=. by eexists.
Qed.

(** Every ["$ref"] of a dict reachable from [schema] is a string whose last
    segment the template formats. *)
Definition refs_formattable (format : string → string → result string)
    (template : string) (h : heap) (schema : value) : Prop :=
  ∀ l items v, reachable h schema l → h !! l = Some (ODict items) →
    dict_get items "$ref" = Some v →
    ∃ s name new_ref, v = VAtom (AStr s) ∧ last_segment s = Ok name
                      ∧ format template name = Ok new_ref.

Lemma loop_post_returns_iff format template h schema out :
  loop_post format template h schema out →
  out_result out = Ok () ↔ refs_formattable format template h schema.
Proof.
  intros Hpost. split.
  - intros Hok l items v Hreach Hl.
    pose proof (post_done _ _ _ _ _ Hpost Hok l
                  (post_all _ _ _ _ _ Hpost Hok l Hreach)) as Hdone.
    rewrite /node_done Hl in Hdone. destruct Hdone as (items' & Hrw & _).
    apply rewrite_ref_ok_iff. by exists items'.
  - intros Hall. destruct (out_result out) as [[]|e] eqn:Hres; first done.
    destruct (post_raise _ _ _ _ _ Hpost e Hres) as (l & items & Hreach & Hl & Hrw).
    assert (∃ items', rewrite_ref format template items = Ok items') as [items' Hok].
    { apply rewrite_ref_ok_iff. intros v Hv. by eapply Hall. }
    congruence.
Qed.

(** * Worked inputs *)

(** Stand-ins for what the module imports from pydantic and openai; the
    inputs below are mappings, on which they are not called. *)
Definition repr_opaque (h : heap) (v : value) : result string := Ok "<object>".

(** A stack with room for 400 nested containers: the interpreter's default
    limit is 1000 frames and a nested container takes two. *)
Definition stack_room : nat := 400.

Definition empty_schema (h : heap) (cls : value) : heap * result value :=
  let (h, l) := alloc h (ODict []) in (h, Ok (VRef l)).

Abbreviation normalize_with_str_format :=
  (type_to_response_format_param str_format stack_room repr_opaque
     (λ h cls _, empty_schema h cls) empty_schema).

(** [{"type": "json_schema", "json_schema": {"schema": {"$ref": ref}}}]
    at address 1. *)
Definition envelope_heap (ref : value) : heap :=
  list_to_map [
    (1%positive, ODict [("type", VAtom (AStr "json_schema")); ("json_schema", VRef 2)]);
    (2%positive, ODict [("schema", VRef 3)]);
    (3%positive, ODict [("$ref", ref)])].

Definition ref_field : path := schema_path ++ [PKey "$ref"].

(** What the normalizer returns, read at a path; [None] when it raises. *)
Definition returned_at (r : option (heap * result value)) (p : path) : option value :=
  '(h, res) ← r;
  match res with
  | Ok v => lookup_path h v p
  | Raise _ => None
  end.

Lemma envelope_heap_wf s : heap_wf (envelope_heap (VAtom (AStr s))).
Proof. apply (bool_decide_unpack _). by vm_compute. Qed.

(** The example of the specification: ["#/defs/Foo"] under the template
    ["provider/{model}"] comes out as ["provider/Foo"], and the input keeps
    its ["#/defs/Foo"]. *)
Example template_application :
  let h := envelope_heap (VAtom (AStr "#/defs/Foo")) in
  let r := normalize_with_str_format h (VRef 1) (Some "provider/{model}") in
  returned_at r ref_field = Some (VAtom (AStr "provider/Foo"))
  ∧ (r ≫= λ hr, lookup_path hr.1 (VRef 1) ref_field) = Some (VAtom (AStr "#/defs/Foo"))
  ∧ (snd <$> r) = Some (Ok (VRef 4)).
Proof. by vm_compute. Qed.

(** A schema that holds itself, and a list that holds the schema: the
    traversal processes each node once and returns. *)
Definition cyclic_heap : heap :=
  list_to_map [
    (1%positive, ODict [("$ref", VAtom (AStr "#/defs/Node")); ("self", VRef 1);
                        ("anyOf", VRef 2)]);
    (2%positive, OList [VRef 1; VRef 2; VRef 3]);
    (3%positive, ODict [("$ref", VAtom (AStr "Leaf")); ("parent", VRef 1)])].

Example cyclic_run :
  update_refs str_format "provider/{model}" cyclic_heap (VRef 1)
  = Some (Outcome
      (list_to_map [
        (1%positive, ODict [("$ref", VAtom (AStr "provider/Node")); ("self", VRef 1);
                            ("anyOf", VRef 2)]);
        (2%positive, OList [VRef 1; VRef 2; VRef 3]);
        (3%positive, ODict [("$ref", VAtom (AStr "provider/Leaf")); ("parent", VRef 1)])])
      [1%positive; 2%positive; 3%positive]
      (Ok ())).
Proof. by vm_compute. Qed.

(** Two parents share one child.  Under ["x/{model}/y"] a second rewrite
    of ["x/Foo/y"] would give ["x/y/y"]: the child holds ["x/Foo/y"], it is
    rewritten once. *)
Definition diamond_heap : heap :=
  list_to_map [
    (1%positive, ODict [("left", VRef 2); ("right", VRef 3)]);
    (2%positive, ODict [("item", VRef 4)]);
    (3%positive, ODict [("item", VRef 4)]);
    (4%positive, ODict [("$ref", VAtom (AStr "#/defs/Foo"))])].

Example shared_child_rewritten_once :
  (update_refs str_format "x/{model}/y" diamond_heap (VRef 1)
   ≫= λ out, Some (out_visits out, out_heap out !! 4%positive))
  = Some ([1%positive; 3%positive; 4%positive; 2%positive],
          Some (ODict [("$ref", VAtom (AStr "x/Foo/y"))]))
  ∧ str_format "x/{model}/y" "y" = Ok "x/y/y".
Proof. by vm_compute. Qed.

(** Two children that are equal but are two objects: both are processed,
    both are rewritten. *)
Definition twins_heap : heap :=
  list_to_map [
    (1%positive, OList [VRef 2; VRef 3]);
    (2%positive, ODict [("$ref", VAtom (AStr "#/defs/Foo"))]);
    (3%positive, ODict [("$ref", VAtom (AStr "#/defs/Foo"))])].

Example equal_nodes_both_rewritten :
  twins_heap !! 2%positive = twins_heap !! 3%positive
  ∧ (update_refs str_format "x/{model}/y" twins_heap (VRef 1)
     ≫= λ out, Some (out_visits out, out_heap out !! 2%positive, out_heap out !! 3%positive))
    = Some ([1%positive; 3%positive; 2%positive],
            Some (ODict [("$ref", VAtom (AStr "x/Foo/y"))]),
            Some (ODict [("$ref", VAtom (AStr "x/Foo/y"))])).
Proof. by vm_compute. Qed.

(** * The properties of the specification *)

(** ** The normalizer works on a copy *)

(** C1, as amended.  For a mapping on a well-formed heap and any template:
    the call (of the entry point, which hands the mapping to the helper)
    returns or raises, and every object of the input heap is afterwards what
    it was before.  When the mapping has ["type": "json_schema"], what the
    call returns is a new object, and wherever the input has a string
    ["$ref"] on a path under its schema, the returned object has at that
    path the template applied to the last segment of that string (which may
    be the same string). *)
Theorem normalize_rewrites_a_copy
    (format : string → string → result string)
    (recursion_depth : nat)
    (repr_extern : heap → value → result string)
    (model_json_schema : heap → value → string → heap * result value)
    (to_strict_json_schema : heap → value → heap * result value)
    (h : heap) (a : addr) (items : list (string * value)) (template : string) :
  heap_wf h →
  h !! a = Some (ODict items) →
  ∃ h' r,
    type_to_response_format_param format recursion_depth repr_extern model_json_schema
      to_strict_json_schema h (VRef a) (Some template) = Some (h', r)
    ∧ _dict_to_response_format_helper format recursion_depth h (VRef a) (Some template)
      = Some (h', r)
    ∧ (∀ l, is_Some (h !! l) → h' !! l = h !! l)
    ∧ (has_json_schema_type items = true →
       ∀ v, r = Ok v →
         ∃ y, v = VRef y ∧ h !! y = None
         ∧ ∀ q s,
             lookup_path h (VRef a) (schema_path ++ q ++ [PKey "$ref"])
               = Some (VAtom (AStr s)) →
             ∃ name new_ref,
               last_segment s = Ok name ∧ format template name = Ok new_ref
               ∧ lookup_path h' (VRef y) (schema_path ++ q ++ [PKey "$ref"])
                 = Some (VAtom (AStr new_ref))).
Proof.
  intros Hwf Ha. rewrite (normalize_dict _ _ _ _ _ _ _ items) //.
  destruct (has_json_schema_type items) eqn:Htype.
  - destruct (helper_rewrites format recursion_depth h a items template Hwf Ha Htype)
      as (h' & r & Hrun & Hframe & Hret).
    exists h', r. split_and!; try done.
  - exists h, (Ok (VRef a)).
    assert (_dict_to_response_format_helper format recursion_depth h (VRef a) (Some template)
            = Some (h, Ok (VRef a))) as Hrun.
    { apply (helper_passthrough _ _ _ _ items); [done|by right]. }
    split_and!; try done.
Qed.

Lemma normalize_rewrites_a_copy_witness :
  let h := envelope_heap (VAtom (AStr "#/defs/Foo")) in
  ∃ h' r,
    normalize_with_str_format h (VRef 1) (Some "provider/{model}") = Some (h', r)
    ∧ _dict_to_response_format_helper str_format stack_room h (VRef 1) (Some "provider/{model}")
      = Some (h', r)
    ∧ (∀ l, is_Some (h !! l) → h' !! l = h !! l)
    ∧ (has_json_schema_type
         [("type", VAtom (AStr "json_schema")); ("json_schema", VRef 2)] = true →
       ∀ v, r = Ok v →
         ∃ y, v = VRef y ∧ h !! y = None
         ∧ ∀ q s,
             lookup_path h (VRef 1) (schema_path ++ q ++ [PKey "$ref"])
               = Some (VAtom (AStr s)) →
             ∃ name new_ref,
               last_segment s = Ok name
               ∧ str_format "provider/{model}" name = Ok new_ref
               ∧ lookup_path h' (VRef y) (schema_path ++ q ++ [PKey "$ref"])
                 = Some (VAtom (AStr new_ref))).
Proof.
  apply normalize_rewrites_a_copy.
  - apply envelope_heap_wf.
  - reflexivity.
Defined.

(** C1, as stated, asks the returned ["$ref"] to differ from the input's.
    Under the template ["{model}"] the reference ["Foo"] is rewritten to
    ["Foo"]: the returned value is a new object and its ["$ref"] equals the
    input's. *)
Lemma returned_ref_equals_input :
  let h := envelope_heap (VAtom (AStr "Foo")) in
  let r := normalize_with_str_format h (VRef 1) (Some "{model}") in
  (snd <$> r) = Some (Ok (VRef 4))
  ∧ returned_at r ref_field = lookup_path h (VRef 1) ref_field
  ∧ lookup_path h (VRef 1) ref_field = Some (VAtom (AStr "Foo")).
Proof. by vm_compute. Qed.

(** ** What the rewriter writes *)

(** C2.  A run of [update_refs] ends, on every heap; it returns exactly
    when every ["$ref"] of a reachable dict is a string whose last segment
    the template formats; and when it returns, a dict reachable from the
    schema whose ["$ref"] is a string [s] holds the same items, in the same
    order, but for ["$ref"], which is the template formatted with the last
    segment of [s]: what follows the final ['/'], or [s] when it has
    none. *)
Theorem update_refs_rewrites_every_ref
    (format : string → string → result string) (template : string)
    (h : heap) (schema : value) :
  ∃ out,
    update_refs format template h schema = Some out
    ∧ (out_result out = Ok () ↔ refs_formattable format template h schema)
    ∧ (out_result out = Ok () →
       ∀ l items s,
         reachable h schema l →
         h !! l = Some (ODict items) →
         dict_get items "$ref" = Some (VAtom (AStr s)) →
         ∃ name new_ref,
           last_segment s = Ok name
           ∧ str_mem "/" name = false
           ∧ (s = name ∨ ∃ p, s = p +:+ String "/" name)
           ∧ format template name = Ok new_ref
           ∧ out_heap out !! l
             = Some (ODict (dict_set items "$ref" (VAtom (AStr new_ref))))
           ∧ (dict_set items "$ref" (VAtom (AStr new_ref))).*1 = items.*1
           ∧ ∀ k, k ≠ "$ref" →
               dict_get (dict_set items "$ref" (VAtom (AStr new_ref))) k
               = dict_get items k).
Proof.
  destruct (update_refs_post format template h schema) as (out & Hrun & Hpost).
  exists out. split_and!; first done.
  { by apply loop_post_returns_iff. }
  intros Hok l items s Hreach Hl Hget.
  pose proof (post_done _ _ _ _ _ Hpost Hok l (post_all _ _ _ _ _ Hpost Hok l Hreach))
    as Hdone.
  rewrite /node_done Hl in Hdone. destruct Hdone as (items' & Hrw & Hl').
  destruct (rewrite_ref_string _ _ _ _ _ Hget Hrw) as (name & new_ref & Hname & Hfmt & ->).
  destruct (last_segment_spec _ _ Hname) as [Hmem Hform].
  exists name, new_ref. split_and!; try done.
  - apply dict_set_keys. by rewrite Hget.
  - intros k Hk. rewrite dict_get_set. by rewrite decide_False.
Qed.

Definition ref_node_heap : heap :=
  {[ 1%positive := ODict [("$ref", VAtom (AStr "#/defs/Foo")); ("title", VAtom (AStr "T"))] ]}.

Definition ref_node_out : outcome :=
  Outcome
    {[ 1%positive := ODict [("$ref", VAtom (AStr "provider/Foo")); ("title", VAtom (AStr "T"))] ]}
    [1%positive] (Ok ()).

(** One node, [{"$ref": "#/defs/Foo", "title": "T"}]: the run returns and
    the node holds ["provider/Foo"] and its title. *)
Lemma update_refs_rewrites_every_ref_witness :
  update_refs str_format "provider/{model}" ref_node_heap (VRef 1) = Some ref_node_out
  ∧ ∃ name new_ref,
      last_segment "#/defs/Foo" = Ok name
      ∧ str_mem "/" name = false
      ∧ ("#/defs/Foo" = name ∨ ∃ p, "#/defs/Foo" = p +:+ String "/" name)
      ∧ str_format "provider/{model}" name = Ok new_ref
      ∧ out_heap ref_node_out !! 1%positive
        = Some (ODict (dict_set [("$ref", VAtom (AStr "#/defs/Foo"));
                                 ("title", VAtom (AStr "T"))]
                         "$ref" (VAtom (AStr new_ref))))
      ∧ (dict_set [("$ref", VAtom (AStr "#/defs/Foo")); ("title", VAtom (AStr "T"))]
           "$ref" (VAtom (AStr new_ref))).*1 = ["$ref"; "title"]
      ∧ ∀ k, k ≠ "$ref" →
          dict_get (dict_set [("$ref", VAtom (AStr "#/defs/Foo"));
                              ("title", VAtom (AStr "T"))]
                      "$ref" (VAtom (AStr new_ref))) k
          = dict_get [("$ref", VAtom (AStr "#/defs/Foo")); ("title", VAtom (AStr "T"))] k.
Proof.
  destruct (update_refs_rewrites_every_ref str_format "provider/{model}"
              ref_node_heap (VRef 1)) as (out & Hrun & _ & Hrewritten).
  assert (out = ref_node_out) as -> by (vm_compute in Hrun; by injection Hrun as <-).
  split; first by vm_compute.
  apply (Hrewritten eq_refl 1%positive).
  - exists 1%positive. split; [reflexivity|apply rtc_refl].
  - reflexivity.
  - reflexivity.
Defined.

(** ** Termination *)

(** C3.  On every heap, cyclic or not, and from every schema, the loop of
    [update_refs] ends within the fuel the definition gives it, one unit per
    iteration, and with any larger fuel the outcome is the same; no node is
    processed twice. *)
Theorem update_refs_terminates_on_every_graph
    (format : string → string → result string) (template : string)
    (h : heap) (schema : value) :
  ∃ out,
    update_refs format template h schema = Some out
    ∧ (∀ fuel, S (total_refs h) ≤ fuel →
         update_refs_loop format template fuel h [(schema, [])] ∅ [] = Some out)
    ∧ NoDup (out_visits out).
Proof.
  destruct (update_refs_post format template h schema) as (out & Hrun & Hpost).
  exists out. split_and!; first done.
  - intros fuel Hfuel. by eapply update_refs_loop_fuel.
  - apply Hpost.
Qed.

(** ** One visit per object *)



(** ** Pass-through *)

(** C5.  Without a template, or when the mapping's ["type"] is not
    ["json_schema"], the normalizer and its helper return the mapping they
    were given, the same object, and the heap is as it was: nothing is
    copied, nothing is rewritten. *)
Theorem normalize_returns_the_mapping_itself
    (format : string → string → result string)
    (recursion_depth : nat)
    (repr_extern : heap → value → result string)
    (model_json_schema : heap → value → string → heap * result value)
    (to_strict_json_schema : heap → value → heap * result value)
    (h : heap) (a : addr) (items : list (string * value))
    (ref_template : option string) :
  h !! a = Some (ODict items) →
  ref_template = None ∨ has_json_schema_type items = false →
  type_to_response_format_param format recursion_depth repr_extern model_json_schema
    to_strict_json_schema h (VRef a) ref_template = Some (h, Ok (VRef a))
  ∧ _dict_to_response_format_helper format recursion_depth h (VRef a) ref_template
    = Some (h, Ok (VRef a)).
Proof.
  intros Ha Hcase.
  rewrite (normalize_dict _ _ _ _ _ _ _ items) //.
  by rewrite (helper_passthrough _ _ _ _ items).
Qed.

Lemma normalize_returns_the_mapping_itself_witness :
  let h := envelope_heap (VAtom (AStr "#/defs/Foo")) in
  normalize_with_str_format h (VRef 1) None = Some (h, Ok (VRef 1))
  ∧ _dict_to_response_format_helper str_format stack_room h (VRef 1) None
    = Some (h, Ok (VRef 1)).
Proof.
  apply (normalize_returns_the_mapping_itself _ _ _ _ _ _ _
           [("type", VAtom (AStr "json_schema")); ("json_schema", VRef 2)]).
  - reflexivity.
  - left. reflexivity.
Defined.

(** ** Errors of the rewriter *)

(** C6, as stated, has [update_refs] raise on no input.  A ["$ref"] that is
    the int 5 has no [split]: the run raises [AttributeError] at the first
    node and writes nothing. *)
Lemma update_refs_raises_on_int_ref :
  let h : heap := {[ 1%positive := ODict [("$ref", VAtom (ANum (NInt 5)))] ]} in
  update_refs str_format "provider/{model}" h (VRef 1)
  = Some (Outcome h [1%positive] (Raise (Exn AttributeError None))).
Proof. by vm_compute. Qed.

(** C6, as amended.  With a template that formats every name: the run
    returns when every ["$ref"] of a reachable dict is a string, with or
    without a ['/'] (a string without one is its own last segment); it
    raises [AttributeError] when some reachable dict has a ["$ref"] that is
    not a string. *)
Theorem update_refs_raises_only_on_non_string_ref
    (format : string → string → result string) (template : string)
    (h : heap) (schema : value) :
  (∀ name, ∃ r, format template name = Ok r) →
  ∃ out,
    update_refs format template h schema = Some out
    ∧ ((∀ l items v, reachable h schema l → h !! l = Some (ODict items) →
          dict_get items "$ref" = Some v → ∃ s, v = VAtom (AStr s)) →
       out_result out = Ok ())
    ∧ ((∃ l items v, reachable h schema l ∧ h !! l = Some (ODict items)
          ∧ dict_get items "$ref" = Some v ∧ ∀ s, v ≠ VAtom (AStr s)) →
       out_result out = Raise (Exn AttributeError None))
    ∧ ∀ s, str_mem "/" s = false → last_segment s = Ok s.
Proof.
  intros Hfmt.
  destruct (update_refs_post format template h schema) as (out & Hrun & Hpost).
  exists out. split_and!; first done.
  - intros Hstr. destruct (out_result out) as [[]|e] eqn:Hres; first done.
    destruct (post_raise _ _ _ _ _ Hpost e Hres) as (l & items & Hreach & Hl & Hrw).
    destruct (rewrite_ref_returns format template Hfmt items) as [items' Hok].
    { intros v Hv. by eapply Hstr. }
    congruence.
  - intros (l & items & v & Hreach & Hl & Hget & Hv).
    destruct (out_result out) as [[]|e] eqn:Hres.
    + pose proof (post_done _ _ _ _ _ Hpost Hres l
                    (post_all _ _ _ _ _ Hpost Hres l Hreach)) as Hdone.
      rewrite /node_done Hl in Hdone. destruct Hdone as (items' & Hrw & _).
      destruct (rewrite_ref_ok_string _ _ _ _ _ Hrw Hget) as [s ->].
      by destruct (Hv s).
    + destruct (post_raise _ _ _ _ _ Hpost e Hres) as (l' & items' & _ & _ & Hrw).
      by destruct (rewrite_ref_raises format template Hfmt _ _ Hrw) as [-> _].
  - apply last_segment_whole.
Qed.

Lemma update_refs_raises_only_on_non_string_ref_witness :
  let h : heap := {[ 1%positive := ODict [("$ref", VAtom (AStr "Foo"))] ]} in
  ∃ out,
    update_refs str_format "provider/{model}" h (VRef 1) = Some out
    ∧ ((∀ l items v, reachable h (VRef 1) l → h !! l = Some (ODict items) →
          dict_get items "$ref" = Some v → ∃ s, v = VAtom (AStr s)) →
       out_result out = Ok ())
    ∧ ((∃ l items v, reachable h (VRef 1) l ∧ h !! l = Some (ODict items)
          ∧ dict_get items "$ref" = Some v ∧ ∀ s, v ≠ VAtom (AStr s)) →
       out_result out = Raise (Exn AttributeError None))
    ∧ ∀ s, str_mem "/" s = false → last_segment s = Ok s.
Proof.
  apply update_refs_raises_only_on_non_string_ref.
  intros name. eexists. vm_compute. reflexivity.
Defined.

(** ** Refusal of other inputs *)

(** C7, as stated, has every unsupported value answered by [TypeError].
    The message is an f-string of the value, and an int of 4301 digits
    cannot be printed: the call raises [ValueError] before any [TypeError]
    is built. *)
Lemma normalize_raises_value_error_on_long_int :
  normalize_with_str_format ∅ (VAtom (ANum (NInt (10 ^ 4300)))) None
  = Some (∅, Raise (Exn ValueError None))
  ∧ is_dict ∅ (VAtom (ANum (NInt (10 ^ 4300)))) = false
  ∧ is_basemodel_type (VAtom (ANum (NInt (10 ^ 4300)))) = false.
Proof. by vm_compute. Qed.

(** How the atoms that are printed here are printed. *)
Lemma str_of_atoms repr_extern h :
  str_of repr_extern h (VAtom ANone) = Ok "None"
  ∧ (∀ b, str_of repr_extern h (VAtom (ABool b)) = Ok (if b then "True" else "False"))
  ∧ (∀ s, str_of repr_extern h (VAtom (AStr s)) = Ok s)
  ∧ (∀ z, (Z.abs z < 10 ^ 4300)%Z →
          str_of repr_extern h (VAtom (ANum (NInt z))) = Ok (pretty z))
  ∧ (∀ z, (10 ^ 4300 ≤ Z.abs z)%Z →
          str_of repr_extern h (VAtom (ANum (NInt z))) = builtin_error ValueError).
Proof.
  split_and!; try done.
  - by intros [].
  - intros z Hz. rewrite /= /int_str /int_max_str_digits.
    by rewrite (proj2 (Z.leb_gt _ _)).
  - intros z Hz. rewrite /= /int_str /int_max_str_digits.
    by rewrite (proj2 (Z.leb_le _ _)).
Qed.

(** C7, as amended.  [None] is answered by [None].  A value that is not
    [None], not a dict and not a class deriving from [BaseModel] makes the
    function raise at once, the heap untouched.  When the value can be
    printed, which every str, bool and int of at most 4300 digits can, the
    exception is [TypeError] with the message
    ["Unsupported response_format type - "] followed by the value as an
    f-string prints it; otherwise it is the exception of the printing,
    [ValueError] for a longer int. *)
Theorem normalize_refuses_other_types
    (format : string → string → result string)
    (recursion_depth : nat)
    (repr_extern : heap → value → result string)
    (model_json_schema : heap → value → string → heap * result value)
    (to_strict_json_schema : heap → value → heap * result value)
    (h : heap) (response_format : value) (ref_template : option string) :
  type_to_response_format_param format recursion_depth repr_extern model_json_schema
    to_strict_json_schema h (VAtom ANone) ref_template = Some (h, Ok (VAtom ANone))
  ∧ (response_format ≠ VAtom ANone →
     is_dict h response_format = false →
     is_basemodel_type response_format = false →
     ∃ e,
       type_to_response_format_param format recursion_depth repr_extern
         model_json_schema to_strict_json_schema h response_format ref_template
       = Some (h, Raise e)
       ∧ (∀ text, str_of repr_extern h response_format = Ok text →
            e = Exn TypeError (Some ("Unsupported response_format type - " +:+ text)))
       ∧ (∀ e', str_of repr_extern h response_format = Raise e' → e = e')
       ∧ (∀ s, response_format = VAtom (AStr s) →
            str_of repr_extern h response_format = Ok s)
       ∧ (∀ b, response_format = VAtom (ABool b) →
            str_of repr_extern h response_format = Ok (if b then "True" else "False"))
       ∧ (∀ z, response_format = VAtom (ANum (NInt z)) →
            str_of repr_extern h response_format
            = if (Z.abs z <? 10 ^ 4300)%Z then Ok (pretty z)
              else builtin_error ValueError)).
Proof.
  split; first apply normalize_none.
  intros Hnone Hdict Hbase.
  exists (unsupported repr_extern h response_format).
  split; first by apply normalize_unsupported.
  destruct (str_of_atoms repr_extern h) as (_ & Hbool & Hstr & Hshort & Hlong).
  rewrite /unsupported. split_and!.
  - by intros text ->.
  - by intros e' ->.
  - by intros s ->.
  - by intros b ->.
  - intros z ->. destruct (Z.ltb_spec (Z.abs z) (10 ^ 4300)); [by apply Hshort|by apply Hlong].
Qed.

Lemma normalize_refuses_other_types_witness :
  normalize_with_str_format ∅ (VAtom ANone) (Some "provider/{model}")
  = Some (∅, Ok (VAtom ANone))
  ∧ normalize_with_str_format ∅ (VAtom (ANum (NInt 5))) (Some "provider/{model}")
    = Some (∅, Raise (Exn TypeError (Some "Unsupported response_format type - 5"))).
Proof.
  destruct (normalize_refuses_other_types str_format stack_room repr_opaque
              (λ h cls _, empty_schema h cls) empty_schema
              ∅ (VAtom (ANum (NInt 5))) (Some "provider/{model}")) as [Hnone Hother].
  split; first exact Hnone.
  destruct Hother as (e & Hrun & Htext & _); [discriminate|reflexivity|reflexivity|].
  by rewrite Hrun (Htext "5").
Defined.

(** ** Rerank cost *)

(** The double 1.0 and a price table with one priced model. *)
Definition float_one : spec_float := S754_finite false 4503599627370496 (-52).

Definition priced (cost : number) : string → option string → result ModelInfo :=
  λ _ _, Ok {[ "input_cost_per_query" := Some cost ]}.

Definition unmapped : string → option string → result ModelInfo :=
  λ _ _, Raise (Exn (OtherException "Exception") (Some "This model isn't mapped yet."))%string.

(** C8, as stated, has [get_rerank_cost] raise for no query count.  With a
    price of 1.0 and [2 ** 1024] queries the product raises
    [OverflowError]: the int is too large to convert to a float. *)
Lemma get_rerank_cost_overflows :
  get_rerank_cost (priced (NFloat float_one)) "rerank-english-v3.0" (2 ^ 1024) None
  = Raise (Exn OverflowError None).
Proof. by vm_compute. Qed.

(** The largest int that converts is the largest double,
    [2 ** 1024 - 2 ** 971], with what rounds down to it; from
    [2 ** 1024 - 2 ** 970] on the conversion raises. *)
Example int_to_float_threshold :
  int_to_float (2 ^ 1024 - 2 ^ 970 - 1) = Ok (S754_finite false 9007199254740991 971)
  ∧ int_to_float (2 ^ 1024 - 2 ^ 970) = Raise (Exn OverflowError None)
  ∧ int_to_float (- 2 ^ 1024) = Raise (Exn OverflowError None).
Proof. by vm_compute. Qed.

(** C8, as amended.  On any lookup failure (the lookup raises, the entry
    has no [input_cost_per_query], or that field is [None]) the result is
    exactly [(0.0, 0.0)], whatever the query count.  The function raises
    exactly when the entry has a float price and the query count is too
    large to convert to a float, and then [OverflowError]. *)
Theorem get_rerank_cost_falls_back_to_zero
    (get_model_info : string → option string → result ModelInfo)
    (model : string) (num_queries : Z) (custom_llm_provider : option string) :
  (lookup_failure get_model_info model custom_llm_provider →
   get_rerank_cost get_model_info model num_queries custom_llm_provider
   = Ok (float_zero, float_zero))
  ∧ ∀ e,
      get_rerank_cost get_model_info model num_queries custom_llm_provider = Raise e
      ↔ e = Exn OverflowError None
        ∧ ∃ mi f, get_model_info model custom_llm_provider = Ok mi
                  ∧ mi !! "input_cost_per_query" = Some (Some (NFloat f))
                  ∧ int_to_float num_queries = Raise e.
Proof.
  split; first apply get_rerank_cost_failure.
  intros e. split; first apply get_rerank_cost_raises.
  intros (_ & mi & f & Hmi & Hcost & Hconv).
  by rewrite (get_rerank_cost_priced _ _ _ _ _ _ Hmi Hcost) /= Hconv.
Qed.

Lemma get_rerank_cost_falls_back_to_zero_witness :
  get_rerank_cost unmapped "no-such-model" 3 None = Ok (float_zero, float_zero).
Proof.
  apply (get_rerank_cost_falls_back_to_zero unmapped "no-such-model" 3 None).
  exact I.
Defined.

(** C10.  With a price in the entry, the result is the product of the
    price and the query count, paired with 0.0 (it raises if the product
    does); on ints the product is exact; and whatever is returned, on any
    path, has 0.0 as its second component. *)
Theorem get_rerank_cost_is_price_times_queries
    (get_model_info : string → option string → result ModelInfo)
    (model : string) (num_queries : Z) (custom_llm_provider : option string) :
  (∀ mi cost,
     get_model_info model custom_llm_provider = Ok mi →
     mi !! "input_cost_per_query" = Some (Some cost) →
     get_rerank_cost get_model_info model num_queries custom_llm_provider
     = (prompt_cost ← py_mul cost num_queries; Ok (prompt_cost, float_zero)))
  ∧ (∀ z, py_mul (NInt z) num_queries = Ok (NInt (z * num_queries)))
  ∧ ∀ r,
      get_rerank_cost get_model_info model num_queries custom_llm_provider = Ok r →
      r.2 = float_zero.
Proof.
  split_and!.
  - intros mi cost. apply get_rerank_cost_priced.
  - done.
  - apply get_rerank_cost_completion.
Qed.

(** 0.5 a query, 4 queries: 2.0. *)
Lemma get_rerank_cost_is_price_times_queries_witness :
  get_rerank_cost (priced (NFloat (S754_finite false 4503599627370496 (-53))))
    "rerank-english-v3.0" 4 None
  = Ok (NFloat (S754_finite false 4503599627370496 (-51)), float_zero).
Proof.
  destruct (get_rerank_cost_is_price_times_queries
              (priced (NFloat (S754_finite false 4503599627370496 (-53))))
              "rerank-english-v3.0" 4 None) as [Hprice _].
  rewrite (Hprice _ _ eq_refl eq_refl). reflexivity.
Defined.

(** ** Role remapping *)

(** C9.  On chat messages the function returns a new list, the input heap
    untouched, with one item per message, in order: for a message whose
    role is ["developer"] a new dict [{"role": "system", "content": c}]
    with [c] the content of the message, for any other message the message
    itself. *)
Theorem map_developer_role_to_system_role_remaps
    (h : heap) (messages : list value) :
  Forall (message_ok h) messages →
  ∃ h' l out,
    map_developer_role_to_system_role h messages = (h', Ok (VRef l))
    ∧ h !! l = None
    ∧ h' !! l = Some (OList out)
    ∧ (∀ a, is_Some (h !! a) → h' !! a = h !! a)
    ∧ length out = length messages
    ∧ Forall2 (remapped h h') messages out.
Proof.
  intros Hok.
  destruct (map_developer_role_to_system_role_spec h messages Hok)
    as (h' & l & out & Hrun & Hl & Hout & Hframe & Hrel).
  exists h', l, out. split_and!; try done.
  symmetry. by eapply Forall2_length.
Qed.

Definition chat_heap : heap :=
  list_to_map [
    (1%positive, ODict [("role", VAtom (AStr "developer")); ("content", VAtom (AStr "x"))]);
    (2%positive, ODict [("role", VAtom (AStr "user")); ("content", VAtom (AStr "y"))])].

Lemma chat_messages_ok : Forall (message_ok chat_heap) [VRef 1; VRef 2].
Proof.
  repeat constructor.
  - exists (VAtom (AStr "developer")). split; first reflexivity.
    intros _. by exists (VAtom (AStr "x")).
  - exists (VAtom (AStr "user")). split; first reflexivity. discriminate.
Defined.

Lemma map_developer_role_to_system_role_remaps_witness :
  ∃ h' l out,
    map_developer_role_to_system_role chat_heap [VRef 1; VRef 2] = (h', Ok (VRef l))
    ∧ chat_heap !! l = None
    ∧ h' !! l = Some (OList out)
    ∧ (∀ a, is_Some (chat_heap !! a) → h' !! a = chat_heap !! a)
    ∧ length out = 2
    ∧ Forall2 (remapped chat_heap h') [VRef 1; VRef 2] out.
Proof.
  apply (map_developer_role_to_system_role_remaps chat_heap [VRef 1; VRef 2]).
  apply chat_messages_ok.
Defined.

(** The example of the specification: the developer message becomes a new
    system message with the same content, the user message is the same
    object. *)
Example role_remap :
  let (h', r) := map_developer_role_to_system_role chat_heap [VRef 1; VRef 2] in
  r = Ok (VRef 3)
  ∧ h' !! 3%positive = Some (OList [VRef 4; VRef 2])
  ∧ h' !! 4%positive
    = Some (ODict [("role", VAtom (AStr "system")); ("content", VAtom (AStr "x"))])
  ∧ h' !! 2%positive
    = Some (ODict [("role", VAtom (AStr "user")); ("content", VAtom (AStr "y"))]).
Proof. by vm_compute. Qed.

(** * Further properties of the code *)

(** ** What a run of [update_refs] can change, whatever its outcome *)

(** [ref_rewritten o o']: [o'] is [o], or [o] is a dict with a string
    ["$ref"] and [o'] is that dict with the formatted last segment
    there. *)
Definition ref_rewritten (format : string → string → result string)
    (template : string) (o o' : option obj) : Prop :=
  o' = o
  ∨ ∃ items s name new_ref,
      o = Some (ODict items)
      ∧ dict_get items "$ref" = Some (VAtom (AStr s))
      ∧ last_segment s = Ok name
      ∧ format template name = Ok new_ref
      ∧ o' = Some (ODict (dict_set items "$ref" (VAtom (AStr new_ref)))).

Section RunNodes.

Variable format : string → string → result string.
Variable ref_template : string.
Variable h0 : heap.
Variable root : value.

Lemma node_done_rewritten h l :
  node_done format ref_template h0 h l →
  ref_rewritten format ref_template (h0 !! l) (h !! l).
Proof.
  rewrite /node_done. destruct (h0 !! l) as [[items|elems]|] eqn:Hl; try by left.
  intros (items' & Hrw & ->).
  destruct (dict_get items "$ref") as [v|] eqn:Hget.
  - destruct (rewrite_ref_ok_string _ _ _ _ _ Hrw Hget) as [s ->].
    destruct (rewrite_ref_string _ _ _ _ _ Hget Hrw) as (name & new_ref & ? & ? & ->).
    right. by exists items, s, name, new_ref.
  - left. rewrite /rewrite_ref Hget in Hrw. by injection Hrw as <-.
Qed.

(** Also when the run raises, a processed node is rewritten or as it was. *)
Lemma update_refs_loop_nodes fuel h stack visited visits out :
  loop_inv format ref_template h0 root h stack visited visits →
  update_refs_loop format ref_template fuel h stack visited visits = Some out →
  ∀ l, ref_rewritten format ref_template (h0 !! l) (out_heap out !! l).
Proof.
  assert (∀ h stack visited visits,
            loop_inv format ref_template h0 root h stack visited visits →
            ∀ l, ref_rewritten format ref_template (h0 !! l) (h !! l)) as Hstate.
  { intros h1 st vd vs Hinv l. destruct (decide (l ∈ vd)).
    - by apply node_done_rewritten, (inv_done _ _ _ _ _ _ _ _ Hinv).
    - left. by apply (inv_frame _ _ _ _ _ _ _ _ Hinv). }
  revert h stack visited visits.
  induction fuel as [|fuel IH]; intros h stack visited visits Hinv Hrun.
  { destruct stack as [|[obj p] stack]; last done.
    injection Hrun as <-. by eapply Hstate. }
  destruct stack as [|[obj p] stack].
  { injection Hrun as <-. by eapply Hstate. }
  cbn [update_refs_loop] in Hrun.
  destruct obj as [a|l].
  { eapply IH; last done. by eapply loop_inv_pop. }
  destruct (decide (l ∈ visited)) as [Hin|Hnin].
  { eapply IH; last done. eapply loop_inv_pop; first done. by intros ? [= <-]. }
  assert (h !! l = h0 !! l) as Hl0 by by apply Hinv.
  destruct (h !! l) as [[items|elems]|] eqn:Hl.
  - destruct (rewrite_ref format ref_template items) as [items'|e] eqn:Hrw.
    + eapply IH; last done. eapply loop_inv_visit; [done|done|..].
      * intros l' Hne. by rewrite lookup_insert_ne.
      * unfold node_done. rewrite -Hl0. exists items'. by rewrite lookup_insert_eq.
      * intros c. rewrite (push_items_elem format ref_template) /children -Hl0 /obj_refs /=.
        by rewrite (rewrite_ref_refs _ _ _ _ Hrw).
    + injection Hrun as <-. by eapply Hstate.
  - eapply IH; last done. eapply loop_inv_visit; [done|done|done|..].
    + unfold node_done. by rewrite -Hl0.
    + intros c. by rewrite (push_elems_elem format ref_template) /children -Hl0.
  - eapply IH; last done. eapply loop_inv_visit; [done|done|done|..].
    + unfold node_done. by rewrite -Hl0.
    + intros c. rewrite /children -Hl0. set_solver.
Qed.

End RunNodes.

Lemma update_refs_nodes format template h schema out :
  update_refs format template h schema = Some out →
  ∀ l, ref_rewritten format template (h !! l) (out_heap out !! l).
Proof.
  intros Hrun. eapply update_refs_loop_nodes; last exact Hrun.
  apply loop_inv_init.
Qed.

Section Rewritten.

Variable format : string → string → result string.
Variable template : string.
Variables h h' : heap.
Hypothesis Hnodes : ∀ l, ref_rewritten format template (h !! l) (h' !! l).

Lemma ref_rewritten_children l : children h' l = children h l.
Proof.
  rewrite /children.
  destruct (Hnodes l) as [->|(items & s & name & new_ref & -> & Hget & _ & _ & ->)];
    first done.
  rewrite /obj_refs /=. by eapply dict_set_atom_refs.
Qed.

Lemma ref_rewritten_reachable v l : reachable h' v l ↔ reachable h v l.
Proof.
  split; intros (l0 & -> & Hrtc); exists l0; (split; first done).
  - induction Hrtc as [|x y z Hxy _ IH]; first done.
    eapply rtc_l; last done. rewrite /edge in Hxy |- *.
    by rewrite -ref_rewritten_children.
  - induction Hrtc as [|x y z Hxy _ IH]; first done.
    eapply rtc_l; last done. rewrite /edge in Hxy |- *.
    by rewrite ref_rewritten_children.
Qed.

Lemma ref_rewritten_dom : dom h' = dom h.
Proof.
  apply set_eq. intros l. rewrite !elem_of_dom.
  destruct (Hnodes l) as [->|(items & s & name & new_ref & -> & _ & _ & _ & ->)];
    first done.
  split; by eexists.
Qed.

(** A path that takes no ["$ref"] key reads the same before and after. *)
Lemma ref_rewritten_lookup_path p v :
  PKey "$ref" ∉ p → lookup_path h' v p = lookup_path h v p.
Proof.
  revert v. induction p as [|step p IH]; intros v Hp; first done.
  apply not_elem_of_cons in Hp as [Hstep Hp].
  cbn [lookup_path]. destruct v as [a|l]; first done.
  destruct (Hnodes l) as [->|(items & s & name & new_ref & -> & _ & _ & _ & ->)].
  - destruct (h !! l) as [[items|elems]|]; try done.
    + destruct step as [k|i]; last done.
      destruct (dict_get items k); simpl; [by apply IH|done].
    + destruct step as [k|i]; first done.
      destruct (elems !! i); simpl; [by apply IH|done].
  - destruct step as [k|i]; last done.
    rewrite dict_get_set decide_False; last congruence.
    destruct (dict_get items k); simpl; [by apply IH|done].
Qed.

End Rewritten.

(** X1.  Whatever the outcome of a run, returned or raised: every object is
    as it was or is a dict whose string ["$ref"] was replaced by the
    formatted last segment; only objects reachable from the schema change;
    the heap holds the same addresses; and every path that takes no
    ["$ref"] key leads where it led.  So no key is added or removed, no list
    is touched, no reference is redirected. *)
Theorem update_refs_changes_only_refs
    (format : string → string → result string) (template : string)
    (h : heap) (schema : value) :
  ∃ out,
    update_refs format template h schema = Some out
    ∧ (∀ l, ref_rewritten format template (h !! l) (out_heap out !! l))
    ∧ (∀ l, out_heap out !! l ≠ h !! l → reachable h schema l)
    ∧ dom (out_heap out) = dom h
    ∧ ∀ p v, PKey "$ref" ∉ p → lookup_path (out_heap out) v p = lookup_path h v p.
Proof.
  destruct (update_refs_post format template h schema) as (out & Hrun & Hpost).
  pose proof (update_refs_nodes _ _ _ _ _ Hrun) as Hnodes.
  exists out. split_and!; try done.
  - intros l Hne. destruct (decide (l ∈ out_visits out)) as [Hin|Hnin].
    + by apply (post_reach _ _ _ _ _ Hpost).
    + by destruct Hne; apply (post_frame _ _ _ _ _ Hpost).
  - by eapply ref_rewritten_dom.
  - intros p v Hp. by eapply ref_rewritten_lookup_path.
Qed.

(** ** Running the rewriter twice *)

(** A template is stable when the name it was given is the last segment of
    what it makes of it: ["provider/{model}"] is, ["x/{model}/y"] is not. *)
Definition stable_template (format : string → string → result string)
    (template : string) : Prop :=
  ∀ name r, str_mem "/" name = false → format template name = Ok r →
            last_segment r = Ok name.

Lemma dict_set_set items k v v' :
  dict_set (dict_set items k v) k v' = dict_set items k v'.
Proof.
  induction items as [|[k1 v1] items IH]; simpl.
  { by rewrite decide_True. }
  destruct (decide (k1 = k)) as [->|Hne]; simpl.
  - by rewrite decide_True.
  - by rewrite decide_False // IH.
Qed.

(** Under a stable template a rewritten dict is a fixed point. *)
Lemma rewrite_ref_fixed format template items items' :
  stable_template format template →
  rewrite_ref format template items = Ok items' →
  rewrite_ref format template items' = Ok items'.
Proof.
  intros Hstable Hrw.
  destruct (dict_get items "$ref") as [v|] eqn:Hget.
  - destruct (rewrite_ref_ok_string _ _ _ _ _ Hrw Hget) as [s ->].
    destruct (rewrite_ref_string _ _ _ _ _ Hget Hrw)
      as (name & new_ref & Hname & Hfmt & ->).
    destruct (last_segment_spec _ _ Hname) as [Hmem _].
    assert (dict_get (dict_set items "$ref" (VAtom (AStr new_ref))) "$ref"
            = Some (VAtom (AStr new_ref))) as Hget'.
    { rewrite dict_get_set. by case_decide. }
    rewrite /rewrite_ref Hget' /model_name_of.
    rewrite (Hstable _ _ Hmem Hfmt) /= Hfmt /=. by rewrite dict_set_set.
  - rewrite /rewrite_ref Hget in Hrw. injection Hrw as <-.
    by rewrite /rewrite_ref Hget.
Qed.

(** A heap whose reachable dicts are all fixed points of the rewrite: the
    run returns and leaves the heap as it is. *)
Lemma update_refs_fixed format template h schema :
  (∀ l items, reachable h schema l → h !! l = Some (ODict items) →
              rewrite_ref format template items = Ok items) →
  ∃ out,
    update_refs format template h schema = Some out
    ∧ out_result out = Ok ()
    ∧ out_heap out = h.
Proof.
  intros Hfixed.
  destruct (update_refs_post format template h schema) as (out & Hrun & Hpost).
  assert (out_result out = Ok ()) as Hok.
  { destruct (out_result out) as [[]|e] eqn:Hres; first done.
    destruct (post_raise _ _ _ _ _ Hpost e Hres) as (l & items1 & Hreach & Hl & Hrw).
    rewrite (Hfixed _ _ Hreach Hl) in Hrw. done. }
  exists out. split_and!; try done.
  apply map_eq. intros l.
  destruct (decide (l ∈ out_visits out)) as [Hin|Hnin];
    last by apply (post_frame _ _ _ _ _ Hpost).
  pose proof (post_done _ _ _ _ _ Hpost Hok l Hin) as Hdone.
  rewrite /node_done in Hdone.
  destruct (h !! l) as [[items1|elems]|] eqn:Hl; try done.
  destruct Hdone as (items' & Hrw & ->).
  rewrite (Hfixed l items1) // in Hrw; first congruence.
  by apply (post_reach _ _ _ _ _ Hpost).
Qed.

(** After a run that returned under a stable template, every reachable dict
    is such a fixed point. *)
Lemma update_refs_returned_fixed format template h schema out :
  stable_template format template →
  loop_post format template h schema out →
  out_result out = Ok () →
  ∀ l items, reachable h schema l → out_heap out !! l = Some (ODict items) →
             rewrite_ref format template items = Ok items.
Proof.
  intros Hstable Hpost Hok l items1 Hreach Hl.
  pose proof (post_done _ _ _ _ _ Hpost Hok l
                (post_all _ _ _ _ _ Hpost Hok l Hreach)) as Hdone.
  rewrite /node_done in Hdone.
  destruct (h !! l) as [[items|elems]|]; try congruence.
  destruct Hdone as (items' & Hrw & Hl').
  assert (items' = items1) as -> by congruence.
  by eapply rewrite_ref_fixed.
Qed.

(** X2.  Under a stable template, a second run on the heap a first run
    returned also returns, and changes nothing. *)
Theorem update_refs_twice
    (format : string → string → result string) (template : string)
    (h : heap) (schema : value) (out : outcome) :
  stable_template format template →
  update_refs format template h schema = Some out →
  out_result out = Ok () →
  ∃ out',
    update_refs format template (out_heap out) schema = Some out'
    ∧ out_result out' = Ok ()
    ∧ out_heap out' = out_heap out.
Proof.
  intros Hstable Hrun Hok.
  destruct (update_refs_post format template h schema) as (out0 & Hrun0 & Hpost).
  assert (out0 = out) as -> by congruence.
  pose proof (update_refs_nodes _ _ _ _ _ Hrun) as Hnodes.
  apply update_refs_fixed. intros l items1 Hreach Hl.
  apply (ref_rewritten_reachable _ _ _ _ Hnodes) in Hreach.
  by eapply update_refs_returned_fixed.
Qed.

Lemma str_append_empty s : s +:+ "" = s.
Proof.
  induction s as [|c s IH]; first done.
  change (String c (s +:+ "") = String c s). by rewrite IH.
Qed.

Lemma provider_template_stable : stable_template str_format "provider/{model}".
Proof.
  intros name r Hname Hfmt. vm_compute in Hfmt. injection Hfmt as <-.
  change (last_segment ("provider" +:+ String "/" (name +:+ "")) = Ok name).
  rewrite str_append_empty. by apply last_segment_after.
Qed.

Lemma update_refs_twice_witness :
  ∃ out',
    update_refs str_format "provider/{model}" (out_heap ref_node_out) (VRef 1) = Some out'
    ∧ out_result out' = Ok ()
    ∧ out_heap out' = out_heap ref_node_out.
Proof.
  apply (update_refs_twice str_format "provider/{model}" ref_node_heap (VRef 1)).
  - apply provider_template_stable.
  - by vm_compute.
  - reflexivity.
Defined.

(** ** The copy, read back *)

Section CopiedBack.

Variables (h0 : heap) (x : value) (h' : heap) (m' : memo) (x' : value).
Hypothesis Hcopy : deep_copy h0 x h' m' x'.

Lemma items_copy_get_back items items' k v' :
  items_copy m' items items' → dict_get items' k = Some v' →
  ∃ v, dict_get items k = Some v ∧ copy_of m' v v'.
Proof.
  induction 1 as [|[k1 v1] [k1' v1'] items items' [Hk Hv] _ IH]; first done.
  simpl in *. subst k1'. case_decide; last done.
  intros [= ->]. by exists v1.
Qed.

Lemma items_copy_get_none items items' k :
  items_copy m' items items' → dict_get items k = None → dict_get items' k = None.
Proof.
  intros Hitems Hnone. destruct (dict_get items' k) as [v'|] eqn:Hget; last done.
  destruct (items_copy_get_back _ _ _ _ Hitems Hget) as (v & Hv & _). congruence.
Qed.

(** The copy has no path the input has not. *)
Lemma deep_copy_lookup_path_back p v v' w' :
  copy_of m' v v' → lookup_path h' v' p = Some w' →
  ∃ w, lookup_path h0 v p = Some w ∧ copy_of m' w w'.
Proof.
  revert v v'. induction p as [|step p IH]; intros v v' Hv; simpl.
  { intros [= <-]. by exists v. }
  destruct v as [a|l]; simpl in Hv; first by subst v'.
  destruct Hv as (y & Hy & ->).
  destruct (dc_full _ _ _ _ _ Hcopy l y Hy) as (o & o' & Ho & Ho' & Hobj).
  rewrite Ho Ho'. destruct o as [items|elems], o' as [items'|elems']; try done.
  - destruct step as [k|i]; last done.
    destruct (dict_get items' k) as [v1'|] eqn:Hget; last done. simpl.
    destruct (items_copy_get_back _ _ _ _ Hobj Hget) as (v1 & -> & Hv1). simpl.
    by apply IH.
  - destruct step as [k|i]; first done.
    destruct (elems' !! i) as [v1'|] eqn:Hget; last done. simpl.
    destruct (Forall2_lookup_r _ _ _ _ _ Hobj Hget) as (v1 & -> & Hv1). simpl.
    by apply IH.
Qed.

(** Two values with the same copy are the same value: the copy joins no two
    objects. *)
Lemma copy_of_inj v1 v2 v' : copy_of m' v1 v' → copy_of m' v2 v' → v1 = v2.
Proof.
  destruct v1 as [a1|l1], v2 as [a2|l2]; simpl.
  - by intros -> [= ->].
  - by intros -> (? & _ & ?).
  - by intros (? & _ & ->) ?.
  - intros (y1 & Hy1 & ->) (y2 & Hy2 & [= <-]). f_equal.
    by eapply (ci_inj _ _ _ (dc_inv _ _ _ _ _ Hcopy)).
Qed.

Lemma copy_of_fun v v1' v2' : copy_of m' v v1' → copy_of m' v v2' → v1' = v2'.
Proof.
  destruct v as [a|l]; simpl; first congruence.
  intros (y1 & Hy1 & ->) (y2 & Hy2 & ->). congruence.
Qed.



End CopiedBack.

Section CopiedNew.

Variables (h0 : heap) (x : value) (h' : heap) (m' : memo) (x' : value).
Hypothesis Hcopy : deep_copy h0 x h' m' x'.

(** A new object holds new objects, and holds no dangling reference. *)
Lemma deep_copy_new_child y c :
  h0 !! y = None → c ∈ children h' y → h0 !! c = None ∧ is_Some (h' !! c).
Proof.
  intros Hy Hc. rewrite /children in Hc.
  destruct (h' !! y) as [o'|] eqn:Hy'; last by apply elem_of_nil in Hc.
  destruct (ci_new _ _ _ (dc_inv _ _ _ _ _ Hcopy) y) as [l Hl]; [by eexists|done|].
  destruct (dc_full _ _ _ _ _ Hcopy l y Hl) as (o & o'' & Ho & Ho' & Hobj).
  assert (o'' = o') as -> by congruence.
  destruct (copy_of_refs _ _ _ _ (obj_copy_values _ _ _ Hobj) Hc) as (c0 & _ & Hc0).
  by destruct (ci_memo _ _ _ (dc_inv _ _ _ _ _ Hcopy) _ _ Hc0) as (_ & ? & ?).
Qed.

Lemma deep_copy_new_reachable y l :
  h0 !! y = None → is_Some (h' !! y) → rtc (edge h') y l →
  h0 !! l = None ∧ is_Some (h' !! l).
Proof.
  intros Hy Hs Hrtc. induction Hrtc as [|y1 y2 y3 Hedge _ IH]; first done.
  destruct (deep_copy_new_child _ _ Hy Hedge). by apply IH.
Qed.

End CopiedNew.

Section HelperReturned.

Variable format : string → string → result string.
Variable recursion_depth : nat.

(** What the helper returns is the copy, changed by one run of
    [update_refs]. *)
Lemma helper_returned h a items template :
  heap_wf h → h !! a = Some (ODict items) → has_json_schema_type items = true →
  ∃ h' r,
    _dict_to_response_format_helper format recursion_depth h (VRef a) (Some template)
    = Some (h', r)
    ∧ ∀ v, r = Ok v →
        ∃ h1 m1 y,
          v = VRef y
          ∧ deep_copy h (VRef a) h1 m1 (VRef y)
          ∧ m1 !! a = Some y
          ∧ ∀ l, ref_rewritten format template (h1 !! l) (h' !! l).
Proof.
  intros Hwf Ha Htype.
  destruct (helper_run format recursion_depth h a items template Hwf Ha Htype)
    as [(h1 & _ & _ & Hrun)|(h1 & m1 & y & _ & _ & Hdc & Hy & Hrun)].
  { rewrite Hrun. by eexists _, _. }
  destruct (py_getitem h1 (VRef y) "json_schema"
            ≫= λ json_schema, py_getitem h1 json_schema "schema") as [schema|e].
  - destruct Hrun as (out & Hrun & _ & _ & ->). eexists _, _. split; first done.
    intros v Hv. destruct (out_result out) as [[]|]; last done.
    injection Hv as <-. exists h1, m1, y. split_and!; try done.
    by eapply update_refs_nodes.
  - rewrite Hrun. by eexists _, _.
Qed.

End HelperReturned.



(** [{"type": "json_schema", "title": "T", "json_schema": {"schema": s},
    "again": s}] at address 1, with [s = {"$ref": "#/defs/Foo", "items": []}]
    held twice. *)
Definition shared_schema_heap : heap :=
  list_to_map [
    (1%positive, ODict [("type", VAtom (AStr "json_schema")); ("title", VAtom (AStr "T"));
                        ("json_schema", VRef 2); ("again", VRef 3)]);
    (2%positive, ODict [("schema", VRef 3)]);
    (3%positive, ODict [("$ref", VAtom (AStr "#/defs/Foo")); ("items", VRef 4)]);
    (4%positive, OList [])].

Lemma shared_schema_heap_wf : heap_wf shared_schema_heap.
Proof. apply (bool_decide_unpack _). by vm_compute. Qed.



(** X4.  What the helper returns reaches new objects only: it shares no
    dict and no list with the input, so that a later change of the result
    never shows in the input. *)
Theorem helper_result_is_disjoint
    (format : string → string → result string) (recursion_depth : nat)
    (h : heap) (a : addr) (items : list (string * value)) (template : string) :
  heap_wf h →
  h !! a = Some (ODict items) →
  has_json_schema_type items = true →
  ∃ h' r,
    _dict_to_response_format_helper format recursion_depth h (VRef a) (Some template)
    = Some (h', r)
    ∧ ∀ v, r = Ok v → ∀ l, reachable h' v l → h !! l = None ∧ is_Some (h' !! l).
Proof.
  intros Hwf Ha Htype.
  destruct (helper_returned format recursion_depth h a items template Hwf Ha Htype)
    as (h' & r & Hrun & Hret).
  exists h', r. split; first done. intros v Hv l Hreach.
  destruct (Hret v Hv) as (h1 & m1 & y & -> & Hdc & Hy & Hnodes).
  apply (ref_rewritten_reachable _ _ _ _ Hnodes) in Hreach.
  destruct Hreach as (? & [= <-] & Hrtc).
  destruct (ci_memo _ _ _ (dc_inv _ _ _ _ _ Hdc) _ _ Hy) as (_ & Hynew & Hy1).
  destruct (deep_copy_new_reachable _ _ _ _ _ Hdc _ _ Hynew Hy1 Hrtc) as [Hnone Hs].
  split; first done.
  rewrite -elem_of_dom in Hs. rewrite -elem_of_dom.
  by rewrite (ref_rewritten_dom _ _ _ _ Hnodes).
Qed.

Lemma helper_result_is_disjoint_witness :
  ∃ h' r,
    _dict_to_response_format_helper str_format stack_room shared_schema_heap (VRef 1)
      (Some "provider/{model}") = Some (h', r)
    ∧ ∀ v, r = Ok v → ∀ l, reachable h' v l →
        shared_schema_heap !! l = None ∧ is_Some (h' !! l).
Proof.
  apply (helper_result_is_disjoint str_format stack_room shared_schema_heap 1
           [("type", VAtom (AStr "json_schema")); ("title", VAtom (AStr "T"));
            ("json_schema", VRef 2); ("again", VRef 3)]).
  - apply shared_schema_heap_wf.
  - reflexivity.
  - reflexivity.
Defined.

(** ** The helper's result, path by path

    The paths below take no ["$ref"] key; a ["$ref"] key is where the result
    may differ from the input. *)

(** X5.  Off the ["$ref"] keys the result has the atoms of the input, at the
    same paths, and no other: a path leads to an atom in the result exactly
    when it leads to that atom in the input. *)
Theorem helper_keeps_atoms
    (format : string → string → result string) (recursion_depth : nat)
    (h : heap) (a : addr) (items : list (string * value)) (template : string) :
  heap_wf h →
  h !! a = Some (ODict items) →
  has_json_schema_type items = true →
  ∃ h' r,
    _dict_to_response_format_helper format recursion_depth h (VRef a) (Some template)
    = Some (h', r)
    ∧ ∀ v, r = Ok v →
        ∀ p c, PKey "$ref" ∉ p →
          lookup_path h' v p = Some (VAtom c)
          ↔ lookup_path h (VRef a) p = Some (VAtom c).
Proof.
  intros Hwf Ha Htype.
  destruct (helper_returned format recursion_depth h a items template Hwf Ha Htype)
    as (h' & r & Hrun & Hret).
  exists h', r. split; first done. intros v Hv p c Hp.
  destruct (Hret v Hv) as (h1 & m1 & y & -> & Hdc & Hy & Hnodes).
  rewrite (ref_rewritten_lookup_path _ _ _ _ Hnodes) //.
  assert (copy_of m1 (VRef a) (VRef y)) as Hroot by by exists y.
  split; intros Hpath.
  - destruct (deep_copy_lookup_path_back _ _ _ _ _ Hdc _ _ _ _ Hroot Hpath)
      as (w & Hw & Hcopy).
    destruct w as [c0|l0]; simpl in Hcopy; first congruence.
    by destruct Hcopy as (? & _ & ?).
  - destruct (deep_copy_lookup_path _ _ _ _ _ Hdc _ _ _ _ Hroot Hpath)
      as (w' & Hw' & Hcopy).
    simpl in Hcopy. congruence.
Qed.

Lemma helper_keeps_atoms_witness :
  ∃ h' r,
    _dict_to_response_format_helper str_format stack_room shared_schema_heap (VRef 1)
      (Some "provider/{model}") = Some (h', r)
    ∧ ∀ v, r = Ok v →
        ∀ p c, PKey "$ref" ∉ p →
          lookup_path h' v p = Some (VAtom c)
          ↔ lookup_path shared_schema_heap (VRef 1) p = Some (VAtom c).
Proof.
  apply (helper_keeps_atoms str_format stack_room shared_schema_heap 1
           [("type", VAtom (AStr "json_schema")); ("title", VAtom (AStr "T"));
            ("json_schema", VRef 2); ("again", VRef 3)]).
  - apply shared_schema_heap_wf.
  - reflexivity.
  - reflexivity.
Defined.

(** X6.  The result shares what the input shares and nothing more: two
    paths that lead to containers in the input lead to containers in the
    result, and to one and the same container there exactly when they do so
    in the input. *)
Theorem helper_keeps_sharing
    (format : string → string → result string) (recursion_depth : nat)
    (h : heap) (a : addr) (items : list (string * value)) (template : string) :
  heap_wf h →
  h !! a = Some (ODict items) →
  has_json_schema_type items = true →
  ∃ h' r,
    _dict_to_response_format_helper format recursion_depth h (VRef a) (Some template)
    = Some (h', r)
    ∧ ∀ v, r = Ok v →
        ∀ p q c1 c2, PKey "$ref" ∉ p → PKey "$ref" ∉ q →
          lookup_path h (VRef a) p = Some (VRef c1) →
          lookup_path h (VRef a) q = Some (VRef c2) →
          ∃ c1' c2',
            lookup_path h' v p = Some (VRef c1')
            ∧ lookup_path h' v q = Some (VRef c2')
            ∧ (c1' = c2' ↔ c1 = c2).
Proof.
  intros Hwf Ha Htype.
  destruct (helper_returned format recursion_depth h a items template Hwf Ha Htype)
    as (h' & r & Hrun & Hret).
  exists h', r. split; first done. intros v Hv p q c1 c2 Hp Hq Hc1 Hc2.
  destruct (Hret v Hv) as (h1 & m1 & y & -> & Hdc & Hy & Hnodes).
  rewrite !(ref_rewritten_lookup_path _ _ _ _ Hnodes) //.
  assert (copy_of m1 (VRef a) (VRef y)) as Hroot by by exists y.
  destruct (deep_copy_lookup_path _ _ _ _ _ Hdc _ _ _ _ Hroot Hc1)
    as (w1 & Hw1 & Hcopy1).
  destruct (deep_copy_lookup_path _ _ _ _ _ Hdc _ _ _ _ Hroot Hc2)
    as (w2 & Hw2 & Hcopy2).
  pose proof Hcopy1 as (c1' & Hm1 & ->). pose proof Hcopy2 as (c2' & Hm2 & ->).
  exists c1', c2'. split_and!; try done. split.
  - intros <-.
    by injection (copy_of_inj _ _ _ _ _ Hdc _ _ _ Hcopy1 Hcopy2).
  - intros <-. congruence.
Qed.

Lemma helper_keeps_sharing_witness :
  ∃ h' r,
    _dict_to_response_format_helper str_format stack_room shared_schema_heap (VRef 1)
      (Some "provider/{model}") = Some (h', r)
    ∧ ∀ v, r = Ok v →
        ∀ p q c1 c2, PKey "$ref" ∉ p → PKey "$ref" ∉ q →
          lookup_path shared_schema_heap (VRef 1) p = Some (VRef c1) →
          lookup_path shared_schema_heap (VRef 1) q = Some (VRef c2) →
          ∃ c1' c2',
            lookup_path h' v p = Some (VRef c1')
            ∧ lookup_path h' v q = Some (VRef c2')
            ∧ (c1' = c2' ↔ c1 = c2).
Proof.
  apply (helper_keeps_sharing str_format stack_room shared_schema_heap 1
           [("type", VAtom (AStr "json_schema")); ("title", VAtom (AStr "T"));
            ("json_schema", VRef 2); ("again", VRef 3)]).
  - apply shared_schema_heap_wf.
  - reflexivity.
  - reflexivity.
Defined.

(** The schema held twice in the input is held twice in the result, as one
    object, rewritten once. *)
Example shared_schema_copied_once :
  let r := _dict_to_response_format_helper str_format stack_room shared_schema_heap (VRef 1)
             (Some "x/{model}/y") in
  returned_at r schema_path = returned_at r [PKey "again"]
  ∧ returned_at r [PKey "again"; PKey "$ref"] = Some (VAtom (AStr "x/Foo/y"))
  ∧ returned_at r [PKey "title"] = Some (VAtom (AStr "T")).
Proof. by vm_compute. Qed.

(** Two objects have the same shape: both dicts with the same keys in the
    same order, or both lists of the same length. *)
Definition same_shape (o o' : obj) : Prop :=
  match o, o' with
  | ODict items, ODict items' => items'.*1 = items.*1
  | OList elems, OList elems' => length elems' = length elems
  | _, _ => False
  end.

Lemma obj_copy_shape m o o' : obj_copy m o o' → same_shape o o'.
Proof.
  destruct o, o'; simpl; try done.
  - apply items_copy_keys.
  - intros Hcopy. symmetry. by eapply Forall2_length.
Qed.

Lemma ref_rewritten_shape format template o o1 o' :
  same_shape o o1 → ref_rewritten format template (Some o1) (Some o') →
  same_shape o o'.
Proof.
  intros Hshape [[= ->]|(items1 & s & name & new_ref & [= ->] & Hget & _ & _ & [= ->])];
    first done.
  destruct o as [items|elems]; simpl in *; last done.
  rewrite dict_set_keys //.
Qed.

(** X7.  The result keeps the shape of the input: where a path leads to a
    dict of the input, it leads in the result to a dict with the same keys
    in the same order, and where it leads to a list, to a list of the same
    length.  No key is added, dropped or moved. *)
Theorem helper_keeps_shape
    (format : string → string → result string) (recursion_depth : nat)
    (h : heap) (a : addr) (items : list (string * value)) (template : string) :
  heap_wf h →
  h !! a = Some (ODict items) →
  has_json_schema_type items = true →
  ∃ h' r,
    _dict_to_response_format_helper format recursion_depth h (VRef a) (Some template)
    = Some (h', r)
    ∧ ∀ v, r = Ok v →
        ∀ p c o, PKey "$ref" ∉ p →
          lookup_path h (VRef a) p = Some (VRef c) → h !! c = Some o →
          ∃ c' o',
            lookup_path h' v p = Some (VRef c')
            ∧ h' !! c' = Some o'
            ∧ same_shape o o'.
Proof.
  intros Hwf Ha Htype.
  destruct (helper_returned format recursion_depth h a items template Hwf Ha Htype)
    as (h' & r & Hrun & Hret).
  exists h', r. split; first done. intros v Hv p c o Hp Hc Ho.
  destruct (Hret v Hv) as (h1 & m1 & y & -> & Hdc & Hy & Hnodes).
  rewrite (ref_rewritten_lookup_path _ _ _ _ Hnodes) //.
  assert (copy_of m1 (VRef a) (VRef y)) as Hroot by by exists y.
  destruct (deep_copy_lookup_path _ _ _ _ _ Hdc _ _ _ _ Hroot Hc)
    as (w & Hw & (c' & Hm & ->)).
  destruct (dc_full _ _ _ _ _ Hdc c c' Hm) as (o0 & o1 & Ho0 & Ho1 & Hobj).
  assert (o0 = o) as -> by congruence.
  pose proof (Hnodes c') as Hnode. rewrite Ho1 in Hnode.
  destruct (h' !! c') as [o'|] eqn:Ho'.
  - exists c', o'. split_and!; try done.
    eapply ref_rewritten_shape; last done. by eapply obj_copy_shape.
  - by destruct Hnode as [?|(? & ? & ? & ? & _ & _ & _ & _ & ?)].
Qed.

Lemma helper_keeps_shape_witness :
  ∃ h' r,
    _dict_to_response_format_helper str_format stack_room shared_schema_heap (VRef 1)
      (Some "provider/{model}") = Some (h', r)
    ∧ ∀ v, r = Ok v →
        ∀ p c o, PKey "$ref" ∉ p →
          lookup_path shared_schema_heap (VRef 1) p = Some (VRef c) →
          shared_schema_heap !! c = Some o →
          ∃ c' o',
            lookup_path h' v p = Some (VRef c')
            ∧ h' !! c' = Some o'
            ∧ same_shape o o'.
Proof.
  apply (helper_keeps_shape str_format stack_room shared_schema_heap 1
           [("type", VAtom (AStr "json_schema")); ("title", VAtom (AStr "T"));
            ("json_schema", VRef 2); ("again", VRef 3)]).
  - apply shared_schema_heap_wf.
  - reflexivity.
  - reflexivity.
Defined.

(** ** The normalizer on a model class *)

(** X8.  On a class that derives from [BaseModel] the schema is built by
    [model_json_schema] when a template is given and by
    [to_strict_json_schema] when none is.  If the builder raises, the call
    raises the same exception.  Otherwise the call returns a new dict
    [{"type": "json_schema", "json_schema": js}] with [js] a second new dict
    [{"schema": schema, "name": the class name, "strict": True}]: the
    schema is the object the builder returned, not a copy, and no object the
    builder left is changed. *)
Theorem normalize_model_class
    (format : string → string → result string)
    (recursion_depth : nat)
    (repr_extern : heap → value → result string)
    (model_json_schema : heap → value → string → heap * result value)
    (to_strict_json_schema : heap → value → heap * result value)
    (h : heap) (cls : value) (ref_template : option string)
    (h1 : heap) (built : result value) :
  is_basemodel_type cls = true →
  match ref_template with
  | Some template => model_json_schema h cls template
  | None => to_strict_json_schema h cls
  end = (h1, built) →
  match built with
  | Raise e =>
      type_to_response_format_param format recursion_depth repr_extern model_json_schema
        to_strict_json_schema h cls ref_template = Some (h1, Raise e)
  | Ok schema =>
      ∃ h' envelope json_schema,
        type_to_response_format_param format recursion_depth repr_extern model_json_schema
          to_strict_json_schema h cls ref_template = Some (h', Ok (VRef envelope))
        ∧ h1 !! envelope = None
        ∧ h1 !! json_schema = None
        ∧ envelope ≠ json_schema
        ∧ (∀ l, is_Some (h1 !! l) → h' !! l = h1 !! l)
        ∧ h' !! envelope
          = Some (ODict [("type", VAtom (AStr "json_schema"));
                         ("json_schema", VRef json_schema)])
        ∧ h' !! json_schema
          = Some (ODict [("schema", schema);
                         ("name", VAtom (AStr (class_name cls)));
                         ("strict", VAtom (ABool true))])
  end.
Proof.
  intros Hcls Hbuilt.
  destruct cls as [[| | | |name []]|]; try done.
  rewrite /type_to_response_format_param /= Hbuilt.
  destruct built as [schema|e]; last done.
  rewrite /alloc.
  set (o_js := ODict [("schema", schema); ("name", VAtom (AStr name));
                      ("strict", VAtom (ABool true))]).
  set (js := fresh (dom h1)).
  set (env := fresh (dom (<[js := o_js]> h1))).
  assert (h1 !! js = None) as Hjs by apply not_elem_of_dom, is_fresh.
  assert (<[js := o_js]> h1 !! env = None) as Henv by apply not_elem_of_dom, is_fresh.
  assert (env ≠ js) as Hne.
  { intros Heq. by rewrite Heq lookup_insert_eq in Henv. }
  rewrite lookup_insert_ne // in Henv.
  exists (<[env := ODict [("type", VAtom (AStr "json_schema")); ("json_schema", VRef js)]]>
            (<[js := o_js]> h1)), env, js.
  split_and!; try done.
  - intros l [o Hl]. rewrite !lookup_insert_ne //; congruence.
  - by rewrite lookup_insert_eq.
  - by rewrite lookup_insert_ne // lookup_insert_eq.
Qed.

Lemma normalize_model_class_witness :
  ∃ h' envelope json_schema,
    normalize_with_str_format ∅ (VAtom (AClass "Foo" true)) (Some "provider/{model}")
    = Some (h', Ok (VRef envelope))
    ∧ (<[1%positive := ODict []]> ∅ : heap) !! envelope = None
    ∧ (<[1%positive := ODict []]> ∅ : heap) !! json_schema = None
    ∧ envelope ≠ json_schema
    ∧ (∀ l, is_Some ((<[1%positive := ODict []]> ∅ : heap) !! l) →
            h' !! l = (<[1%positive := ODict []]> ∅ : heap) !! l)
    ∧ h' !! envelope
      = Some (ODict [("type", VAtom (AStr "json_schema"));
                     ("json_schema", VRef json_schema)])
    ∧ h' !! json_schema
      = Some (ODict [("schema", VRef 1);
                     ("name", VAtom (AStr "Foo"));
                     ("strict", VAtom (ABool true))]).
Proof.
  apply (normalize_model_class str_format stack_room repr_opaque
           (λ h cls _, empty_schema h cls) empty_schema
           ∅ (VAtom (AClass "Foo" true)) (Some "provider/{model}")
           (<[1%positive := ODict []]> ∅) (Ok (VRef 1))).
  - reflexivity.
  - reflexivity.
Defined.

(** ** Role remapping: failures and a second pass *)

Lemma py_getitem_frame_eq (h h' : heap) m k :
  (∀ l, is_Some (h !! l) → h' !! l = h !! l) →
  value_wf h m → py_getitem h' m k = py_getitem h m k.
Proof.
  intros Hframe Hm. rewrite /py_getitem. destruct m as [a|l]; first done.
  by rewrite Hframe.
Qed.

Lemma remap_roles_app h new_messages ms1 ms2 :
  remap_roles h new_messages (ms1 ++ ms2)
  = match remap_roles h new_messages ms1 with
    | (h1, Ok _) => remap_roles h1 new_messages ms2
    | (h1, Raise e) => (h1, Raise e)
    end.
Proof.
  revert h. induction ms1 as [|m ms1 IH]; intros h; first done.
  cbn [app remap_roles].
  destruct (py_getitem h m "role") as [role|e]; last done.
  destruct (is_str role "developer"); last by apply IH.
  destruct (py_getitem h m "content") as [content|e]; last done.
  rewrite /alloc. by apply IH.
Qed.

(** What makes the loop raise at a message: [m["role"]] raises, or the role
    is ["developer"] and [m["content"]] raises. *)
Definition message_raises (h : heap) (m : value) (e : exn) : Prop :=
  py_getitem h m "role" = Raise e
  ∨ ∃ role, py_getitem h m "role" = Ok role
            ∧ is_str role "developer" = true
            ∧ py_getitem h m "content" = Raise e.

(** X9.  The call raises at the first message that has no ["role"] (or, for
    a developer message, no ["content"]), with the exception of that
    lookup; the messages after it are not looked at, and the objects of the
    input are as they were. *)
Theorem map_developer_role_to_system_role_raises
    (h : heap) (before : list value) (m : value) (after : list value) (e : exn) :
  Forall (message_ok h) before →
  value_wf h m →
  message_raises h m e →
  ∃ h',
    map_developer_role_to_system_role h (before ++ m :: after) = (h', Raise e)
    ∧ ∀ a, is_Some (h !! a) → h' !! a = h !! a.
Proof.
  intros Hbefore Hm Hraise.
  rewrite /map_developer_role_to_system_role /alloc.
  set (l := fresh (dom h)).
  assert (h !! l = None) as Hl by apply not_elem_of_dom, is_fresh.
  destruct (remap_roles_spec h l before Hl Hbefore (<[l := OList []]> h) [])
    as (h1 & out & Hrun & Hframe & _ & _ & _).
  { intros a Ha. rewrite lookup_insert_ne //. intros <-. destruct Ha. congruence. }
  { by rewrite lookup_insert_eq. }
  rewrite remap_roles_app Hrun. cbn [remap_roles].
  rewrite !(py_getitem_frame_eq h h1) //.
  destruct Hraise as [->|(role & -> & -> & ->)]; by exists h1.
Qed.

(** [[{"role": "user", "content": "y"}, {"content": "x"}, 5]]: the second
    message has no role. *)
Definition broken_chat_heap : heap :=
  list_to_map [
    (1%positive, ODict [("role", VAtom (AStr "user")); ("content", VAtom (AStr "y"))]);
    (2%positive, ODict [("content", VAtom (AStr "x"))])].

Lemma map_developer_role_to_system_role_raises_witness :
  ∃ h',
    map_developer_role_to_system_role broken_chat_heap
      ([VRef 1] ++ VRef 2 :: [VAtom (ANum (NInt 5))])
    = (h', builtin_error KeyError)
    ∧ ∀ a, is_Some (broken_chat_heap !! a) → h' !! a = broken_chat_heap !! a.
Proof.
  apply (map_developer_role_to_system_role_raises broken_chat_heap
           [VRef 1] (VRef 2) [VAtom (ANum (NInt 5))]).
  - repeat constructor. exists (VAtom (AStr "user")).
    split; [reflexivity|discriminate].
  - by exists (ODict [("content", VAtom (AStr "x"))]).
  - left. reflexivity.
Defined.

(** A message whose role is not ["developer"]. *)
Definition not_developer (h : heap) (m : value) : Prop :=
  ∃ role, py_getitem h m "role" = Ok role ∧ is_str role "developer" = false.

Lemma remapped_not_developer h h' m m' :
  (∀ a, is_Some (h !! a) → h' !! a = h !! a) →
  remapped h h' m m' → not_developer h' m'.
Proof.
  intros Hframe (role & Hrole & Hcase).
  destruct (is_str role "developer") eqn:Hdev.
  - destruct Hcase as (d & content & -> & _ & _ & Hd).
    exists (VAtom (AStr "system")). by rewrite /py_getitem Hd.
  - subst m'. exists role. split; last done. by eapply py_getitem_frame.
Qed.

Lemma remapped_same h h' ms out :
  Forall (not_developer h) ms → Forall2 (remapped h h') ms out → out = ms.
Proof.
  intros Hms Hrel. induction Hrel as [|m m' ms out Hm _ IH]; first done.
  apply Forall_cons in Hms as [(role & Hrole & Hdev) Hms].
  destruct Hm as (role' & Hrole' & Hcase).
  assert (role' = role) as -> by congruence.
  rewrite Hdev in Hcase. subst m'. f_equal. by apply IH.
Qed.

Lemma remap_roles_not_developer h new_messages ms :
  Forall (not_developer h) ms →
  ∀ hc acc,
    (∀ a, is_Some (h !! a) → hc !! a = h !! a) →
    hc !! new_messages = Some (OList acc) →
    h !! new_messages = None →
    remap_roles hc new_messages ms
    = (<[new_messages := OList (acc ++ ms)]> hc, Ok ()).
Proof.
  induction 1 as [|m ms (role & Hrole & Hdev) _ IH]; intros hc acc Hframe Hacc Hnm.
  { by rewrite app_nil_r insert_id. }
  cbn [remap_roles]. rewrite (py_getitem_frame _ _ _ _ _ Hframe Hrole) Hdev.
  rewrite /heap_append Hacc (IH _ (acc ++ [m])).
  - by rewrite insert_insert_eq -assoc.
  - intros a Ha. rewrite lookup_insert_ne; first by apply Hframe.
    intros <-. destruct Ha. congruence.
  - by rewrite lookup_insert_eq.
  - done.
Qed.

(** X10.  No message of the result has the role ["developer"], and a second
    pass over the result creates nothing but its own list, which holds the
    very same messages. *)
Theorem map_developer_role_to_system_role_twice
    (h : heap) (messages : list value) :
  Forall (message_ok h) messages →
  ∃ h' l out,
    map_developer_role_to_system_role h messages = (h', Ok (VRef l))
    ∧ h' !! l = Some (OList out)
    ∧ Forall (not_developer h') out
    ∧ ∃ l',
        h' !! l' = None
        ∧ map_developer_role_to_system_role h' out
          = (<[l' := OList out]> h', Ok (VRef l')).
Proof.
  intros Hok.
  destruct (map_developer_role_to_system_role_spec h messages Hok)
    as (h' & l & out & Hrun & Hl & Hout & Hframe & Hrel).
  assert (Forall (not_developer h') out) as Hnd.
  { clear Hrun Hout. induction Hrel as [|m m' ms out' Hm _ IH]; first constructor.
    apply Forall_cons in Hok as [_ Hok].
    constructor; [by eapply remapped_not_developer|by apply IH]. }
  exists h', l, out. split_and!; try done.
  rewrite /map_developer_role_to_system_role /alloc.
  set (l' := fresh (dom h')).
  assert (h' !! l' = None) as Hl' by apply not_elem_of_dom, is_fresh.
  exists l'. split; first done.
  rewrite (remap_roles_not_developer h' l' out Hnd _ []) //.
  - by rewrite insert_insert_eq.
  - intros a Ha. rewrite lookup_insert_ne //. intros <-. destruct Ha. congruence.
  - by rewrite lookup_insert_eq.
Qed.

Lemma map_developer_role_to_system_role_twice_witness :
  ∃ h' l out,
    map_developer_role_to_system_role chat_heap [VRef 1; VRef 2] = (h', Ok (VRef l))
    ∧ h' !! l = Some (OList out)
    ∧ Forall (not_developer h') out
    ∧ ∃ l',
        h' !! l' = None
        ∧ map_developer_role_to_system_role h' out
          = (<[l' := OList out]> h', Ok (VRef l')).
Proof.
  apply (map_developer_role_to_system_role_twice chat_heap [VRef 1; VRef 2]).
  apply chat_messages_ok.
Defined.

(** ** Normalizing what was normalized *)

Lemma dict_set_same items k v :
  dict_get items k = Some v → dict_set items k v = items.
Proof.
  induction items as [|[k1 v1] items IH]; first done.
  simpl. case_decide as Hk.
  - intros [= ->]. by subst.
  - intros Hget. by rewrite IH.
Qed.

(** A copy is well formed, and so is a heap after a run of the rewriter. *)
Lemma deep_copy_wf h0 x h' m' x' :
  heap_wf h0 → deep_copy h0 x h' m' x' → heap_wf h'.
Proof.
  intros Hwf Hdc l o Hl.
  destruct (h0 !! l) as [o0|] eqn:Hl0.
  - assert (h' !! l = h0 !! l) as Heq by (eapply deep_copy_frame; eauto).
    assert (o0 = o) as -> by congruence.
    destruct (Hwf l o Hl0) as [Hrefs Hkeys]. split; last done.
    eapply Forall_impl; first exact Hrefs.
    intros c Hc. by rewrite (deep_copy_frame _ _ _ _ _ Hdc).
  - destruct (ci_new _ _ _ (dc_inv _ _ _ _ _ Hdc) l) as [l1 Hl1]; [by eexists|done|].
    destruct (dc_full _ _ _ _ _ Hdc l1 l Hl1) as (o1 & o' & Ho1 & Ho' & Hobj).
    assert (o' = o) as -> by congruence.
    split.
    + apply Forall_forall. intros c Hc.
      assert (c ∈ children h' l) as Hchild by by rewrite /children Hl.
      by destruct (deep_copy_new_child _ _ _ _ _ Hdc _ _ Hl0 Hchild).
    + destruct (Hwf l1 o1 Ho1) as [_ Hkeys].
      destruct o1 as [items1|elems1], o as [items|elems]; try done.
      simpl in Hobj. by rewrite (items_copy_keys _ _ _ Hobj).
Qed.

Lemma ref_rewritten_wf format template h h' :
  heap_wf h → (∀ l, ref_rewritten format template (h !! l) (h' !! l)) → heap_wf h'.
Proof.
  intros Hwf Hnodes l o' Hl.
  assert (∀ c, is_Some (h !! c) → is_Some (h' !! c)) as Hdom.
  { intros c. rewrite -!elem_of_dom. by rewrite (ref_rewritten_dom _ _ _ _ Hnodes). }
  pose proof (ref_rewritten_children _ _ _ _ Hnodes l) as Hchildren.
  rewrite /children Hl in Hchildren.
  destruct (Hnodes l) as [Heq|(items & s & name & new_ref & Ho & Hget & _ & _ & Ho')].
  - rewrite Hl in Heq. symmetry in Heq. destruct (Hwf l o' Heq) as [Hrefs Hkeys].
    split; last done. eapply Forall_impl; first exact Hrefs. done.
  - rewrite Hl in Ho'. injection Ho' as ->.
    destruct (Hwf l _ Ho) as [Hrefs Hkeys]. rewrite Ho in Hchildren. split.
    + rewrite Hchildren. eapply Forall_impl; first exact Hrefs. done.
    + simpl in *. rewrite dict_set_keys //.
Qed.

(** What the copy reaches is the copy of what the input reaches. *)
Lemma deep_copy_reachable_back h0 x h' m' x' v v' l' :
  deep_copy h0 x h' m' x' →
  copy_of m' v v' → reachable h' v' l' →
  ∃ l, reachable h0 v l ∧ m' !! l = Some l'.
Proof.
  intros Hdc Hv (y & -> & Hrtc).
  destruct v as [c|l0]; simpl in Hv; first done.
  destruct Hv as (y0 & Hy0 & [= <-]).
  apply rtc_nsteps in Hrtc as [n Hn]. revert l' Hn.
  induction n as [|n IH]; intros l' Hn.
  { inversion Hn; subst. exists l0. split; last done. by exists l0. }
  apply nsteps_inv_r in Hn as (y1 & Hn & Hedge).
  destruct (IH _ Hn) as (l1 & (? & [= <-] & Hreach) & Hl1).
  rewrite /edge /children in Hedge.
  destruct (dc_full _ _ _ _ _ Hdc l1 y1 Hl1) as (o & o' & Ho & Ho' & Hobj).
  rewrite Ho' in Hedge.
  destruct (copy_of_refs _ _ _ _ (obj_copy_values _ _ _ Hobj) Hedge) as (c0 & Hc0 & Hm).
  exists c0. split; last done. exists l0. split; first done.
  eapply rtc_r; first done. by rewrite /edge /children Ho.
Qed.

Section NormalizedTwice.

Variable format : string → string → result string.
Variable template : string.

(** The copy of a dict the rewrite leaves alone is left alone too. *)
Lemma rewrite_ref_copy_fixed m items items' :
  items_copy m items items' →
  rewrite_ref format template items = Ok items →
  rewrite_ref format template items' = Ok items'.
Proof.
  intros Hcopy Hrw.
  destruct (dict_get items "$ref") as [v|] eqn:Hget.
  - destruct (rewrite_ref_ok_string _ _ _ _ _ Hrw Hget) as [s ->].
    destruct (rewrite_ref_string _ _ _ _ _ Hget Hrw)
      as (name & new_ref & Hname & Hfmt & Heq).
    assert (new_ref = s) as ->.
    { assert (dict_get (dict_set items "$ref" (VAtom (AStr new_ref))) "$ref"
              = Some (VAtom (AStr s))) as Hget' by by rewrite -Heq.
      rewrite dict_get_set in Hget'. case_decide; congruence. }
    destruct (items_copy_get _ _ _ _ _ Hcopy Hget) as (v' & Hget' & Hv').
    simpl in Hv'. subst v'.
    rewrite /rewrite_ref Hget' /model_name_of Hname /= Hfmt /=.
    by rewrite dict_set_same.
  - by rewrite /rewrite_ref (items_copy_get_none _ _ _ _ Hcopy Hget).
Qed.

End NormalizedTwice.

(** *** Copying a structure of the same shape

    [val_sim φ v v']: both are atoms, or [v'] is the container [φ] gives for
    the container [v]. *)
Definition val_sim (φ : memo) (v v' : value) : Prop :=
  match v, v' with
  | VAtom _, VAtom _ => True
  | VRef l, VRef y => φ !! l = Some y
  | _, _ => False
  end.

Definition obj_sim (φ : memo) (o o' : obj) : Prop :=
  match o, o' with
  | ODict items, ODict items' => Forall2 (λ kv kv' : string * value, val_sim φ kv.2 kv'.2) items items'
  | OList elems, OList elems' => Forall2 (val_sim φ) elems elems'
  | _, _ => False
  end.

Lemma copy_of_val_sim φ v v' : copy_of φ v v' → val_sim φ v v'.
Proof.
  destruct v as [c|l]; simpl; first by intros ->.
  by intros (y & ? & ->).
Qed.

Lemma obj_copy_obj_sim φ o o' : obj_copy φ o o' → obj_sim φ o o'.
Proof.
  destruct o, o'; simpl; try done.
  - intros Hcopy. eapply Forall2_impl; first done.
    intros kv kv' [_ ?]. by apply copy_of_val_sim.
  - intros Hcopy. eapply Forall2_impl; first done. apply copy_of_val_sim.
Qed.

Lemma items_sim_dict_set φ items items' k c c' :
  Forall2 (λ kv kv' : string * value, val_sim φ kv.2 kv'.2) items items' →
  dict_get items' k = Some (VAtom c) →
  Forall2 (λ kv kv' : string * value, val_sim φ kv.2 kv'.2) items (dict_set items' k (VAtom c')).
Proof.
  induction 1 as [|[k1 v1] [k1' v1'] items items' Hv Hrest IH]; first done.
  simpl in *. case_decide.
  - intros [= ->]. constructor; last done. simpl. by destruct v1.
  - intros Hget. constructor; first done. by apply IH.
Qed.

Lemma ref_rewritten_obj_sim format template φ o o1 o' :
  obj_sim φ o o1 → ref_rewritten format template (Some o1) (Some o') → obj_sim φ o o'.
Proof.
  intros Hsim [[= ->]|(items1 & s & name & new_ref & [= ->] & Hget & _ & _ & [= ->])];
    first done.
  destruct o as [items|elems]; simpl in *; last done.
  by eapply items_sim_dict_set.
Qed.

(** Two copies, of [hA0] and of [hB0], where [φ] sends the containers of
    the one to containers of the same shape of the other, one to one: the
    two calls of [deepcopy] nest alike, so that where the one returns the
    other does, within the same depth. *)
Section SameShape.

Variables hA0 hB0 : heap.
Variable φ : memo.
Hypothesis φ_inj : ∀ l1 l2 y, φ !! l1 = Some y → φ !! l2 = Some y → l1 = l2.
Hypothesis φ_shape :
  ∀ l y, φ !! l = Some y →
    ∃ o o', hA0 !! l = Some o ∧ hB0 !! y = Some o' ∧ obj_sim φ o o'.

Record sim_state (hA : heap) (mA : memo) (hB : heap) (mB : memo) : Prop := {
  ss_left : heap_frame hA0 hA;
  ss_right : heap_frame hB0 hB;
  ss_memo : ∀ l y, φ !! l = Some y → (is_Some (mA !! l) ↔ is_Some (mB !! y))
}.

Definition rec_sim
    (recA recB : heap → memo → value → heap * result (memo * value)) : Prop :=
  ∀ hA mA v hA' mA' vA hB mB v',
    recA hA mA v = (hA', Ok (mA', vA)) → val_sim φ v v' → sim_state hA mA hB mB →
    ∃ hB' mB' vB, recB hB mB v' = (hB', Ok (mB', vB)) ∧ sim_state hA' mA' hB' mB'.

Lemma sim_state_store hA mA hB mB yA yB oA oB :
  sim_state hA mA hB mB → hA0 !! yA = None → hB0 !! yB = None →
  sim_state (<[yA := oA]> hA) mA (<[yB := oB]> hB) mB.
Proof.
  intros [HA HB Hm] HyA HyB. split; last done.
  - intros l Hl. rewrite lookup_insert_ne; first by apply HA.
    intros <-. rewrite HyA in Hl. by destruct Hl.
  - intros l Hl. rewrite lookup_insert_ne; first by apply HB.
    intros <-. rewrite HyB in Hl. by destruct Hl.
Qed.

Lemma sim_state_setitem hA mA hB mB yA yB k k' v v' :
  sim_state hA mA hB mB → hA0 !! yA = None → hB0 !! yB = None →
  sim_state (heap_setitem hA yA k v) mA (heap_setitem hB yB k' v') mB.
Proof.
  intros Hs HyA HyB. rewrite /heap_setitem.
  destruct (hA !! yA) as [[?|?]|], (hB !! yB) as [[?|?]|]; try done;
    try (by apply sim_state_store).
  - destruct (sim_state_store hA mA hB mB yA yB (ODict (dict_set items k v))
                (ODict []) Hs HyA HyB) as [HA _ Hm].
    destruct Hs as [_ HB _]. by split.
  - destruct (sim_state_store hA mA hB mB yA yB (ODict (dict_set items k v))
                (ODict []) Hs HyA HyB) as [HA _ Hm].
    destruct Hs as [_ HB _]. by split.
  - destruct (sim_state_store hA mA hB mB yA yB (ODict [])
                (ODict (dict_set items k' v')) Hs HyA HyB) as [_ HB Hm].
    destruct Hs as [HA _ _]. by split.
  - destruct (sim_state_store hA mA hB mB yA yB (ODict [])
                (ODict (dict_set items k' v')) Hs HyA HyB) as [_ HB Hm].
    destruct Hs as [HA _ _]. by split.
Qed.

Lemma sim_state_append hA mA hB mB yA yB v v' :
  sim_state hA mA hB mB → hA0 !! yA = None → hB0 !! yB = None →
  sim_state (heap_append hA yA v) mA (heap_append hB yB v') mB.
Proof.
  intros Hs HyA HyB. rewrite /heap_append.
  destruct (hA !! yA) as [[?|?]|], (hB !! yB) as [[?|?]|]; try done;
    try (by apply sim_state_store).
  - destruct (sim_state_store hA mA hB mB yA yB (OList [])
                (OList (elems ++ [v'])) Hs HyA HyB) as [_ HB Hm].
    destruct Hs as [HA _ _]. by split.
  - destruct (sim_state_store hA mA hB mB yA yB (OList (elems ++ [v]))
                (OList []) Hs HyA HyB) as [HA _ Hm].
    destruct Hs as [_ HB _]. by split.
  - destruct (sim_state_store hA mA hB mB yA yB (OList (elems ++ [v]))
                (OList []) Hs HyA HyB) as [HA _ Hm].
    destruct Hs as [_ HB _]. by split.
  - destruct (sim_state_store hA mA hB mB yA yB (OList [])
                (OList (elems ++ [v'])) Hs HyA HyB) as [_ HB Hm].
    destruct Hs as [HA _ _]. by split.
Qed.

Lemma copy_items_sim recA recB yA yB :
  rec_sim recA recB → hA0 !! yA = None → hB0 !! yB = None →
  ∀ items items',
    Forall2 (λ kv kv' : string * value, val_sim φ kv.2 kv'.2) items items' →
    ∀ hA mA hA' mA' hB mB,
      copy_items recA yA items hA mA = (hA', Ok mA') → sim_state hA mA hB mB →
      ∃ hB' mB', copy_items recB yB items' hB mB = (hB', Ok mB')
                 ∧ sim_state hA' mA' hB' mB'.
Proof.
  intros Hrec HyA HyB items items'.
  induction 1 as [|[k v] [k' v'] items items' Hv _ IH]; intros hA mA hA' mA' hB mB; simpl.
  { intros [= <- <-] Hs. by exists hB, mB. }
  destruct (recA hA mA v) as [hA1 [[mA1 vA]|e]] eqn:Hcall; last done.
  intros Hloop Hs.
  destruct (Hrec _ _ _ _ _ _ _ _ _ Hcall Hv Hs) as (hB1 & mB1 & vB & HcallB & Hs1).
  simpl in HcallB. rewrite HcallB.
  eapply IH; first done. by apply sim_state_setitem.
Qed.

Lemma copy_elems_sim recA recB yA yB :
  rec_sim recA recB → hA0 !! yA = None → hB0 !! yB = None →
  ∀ elems elems',
    Forall2 (val_sim φ) elems elems' →
    ∀ hA mA hA' mA' hB mB,
      copy_elems recA yA elems hA mA = (hA', Ok mA') → sim_state hA mA hB mB →
      ∃ hB' mB', copy_elems recB yB elems' hB mB = (hB', Ok mB')
                 ∧ sim_state hA' mA' hB' mB'.
Proof.
  intros Hrec HyA HyB elems elems'.
  induction 1 as [|v v' elems elems' Hv _ IH]; intros hA mA hA' mA' hB mB; simpl.
  { intros [= <- <-] Hs. by exists hB, mB. }
  destruct (recA hA mA v) as [hA1 [[mA1 vA]|e]] eqn:Hcall; last done.
  intros Hloop Hs.
  destruct (Hrec _ _ _ _ _ _ _ _ _ Hcall Hv Hs) as (hB1 & mB1 & vB & -> & Hs1).
  eapply IH; first done. by apply sim_state_append.
Qed.

Lemma sim_state_fresh hA mA hB mB :
  sim_state hA mA hB mB →
  hA0 !! fresh (dom hA) = None ∧ hB0 !! fresh (dom hB) = None.
Proof.
  intros [HA HB _]. split.
  - destruct (hA0 !! fresh (dom hA)) as [o|] eqn:Hl; last done.
    assert (hA !! fresh (dom hA) = None) as Hnone by apply not_elem_of_dom, is_fresh.
    rewrite HA in Hnone; [congruence|by eexists].
  - destruct (hB0 !! fresh (dom hB)) as [o|] eqn:Hl; last done.
    assert (hB !! fresh (dom hB) = None) as Hnone by apply not_elem_of_dom, is_fresh.
    rewrite HB in Hnone; [congruence|by eexists].
Qed.

Lemma sim_state_record hA mA hB mB l y yA yB :
  sim_state hA mA hB mB → φ !! l = Some y →
  sim_state hA (<[l := yA]> mA) hB (<[y := yB]> mB).
Proof.
  intros [HA HB Hm] Hl. split; try done.
  intros l2 y2 Hl2. rewrite !lookup_insert.
  destruct (decide (l = l2)) as [<-|Hne].
  - assert (y2 = y) as -> by congruence. by rewrite decide_True.
  - rewrite decide_False; first by apply Hm.
    intros <-. apply Hne. by eapply φ_inj.
Qed.

Lemma deepcopy_sim depth : rec_sim (deepcopy depth) (deepcopy depth).
Proof.
  induction depth as [|depth IH]; intros hA mA v hA' mA' vA hB mB v' Hrun Hv Hs.
  - destruct v as [c|l], v' as [c'|y]; simpl in Hv; try done.
    { simpl in *. injection Hrun as <- <- <-. by eexists _, _, _. }
    simpl in *.
    pose proof (ss_memo _ _ _ _ Hs l y Hv) as Hm.
    destruct (mA !! l) as [yA|] eqn:HmA.
    { injection Hrun as <- <- <-.
      destruct (proj1 Hm) as [yB ->]; first by eexists. by eexists _, _, _. }
    destruct (φ_shape l y Hv) as (o & o' & Ho & Ho' & _).
    rewrite (ss_left _ _ _ _ Hs l) ?Ho in Hrun; last by eexists.
    done.
  - destruct v as [c|l], v' as [c'|y]; simpl in Hv; try done.
    { simpl in *. injection Hrun as <- <- <-. by eexists _, _, _. }
    simpl in *.
    pose proof (ss_memo _ _ _ _ Hs l y Hv) as Hm.
    destruct (mA !! l) as [yA|] eqn:HmA.
    { injection Hrun as <- <- <-.
      destruct (proj1 Hm) as [yB ->]; first by eexists. by eexists _, _, _. }
    assert (mB !! y = None) as ->.
    { destruct (mB !! y) eqn:HmB; last done.
      destruct (proj2 Hm) as [? ?]; [by eexists|done]. }
    destruct (φ_shape l y Hv) as (o & o' & Ho & Ho' & Hobj).
    rewrite (ss_left _ _ _ _ Hs l) ?Ho in Hrun; last by eexists.
    rewrite (ss_right _ _ _ _ Hs y) ?Ho'; last by eexists.
    destruct (sim_state_fresh _ _ _ _ Hs) as [HyA HyB].
    destruct o as [items|elems], o' as [items'|elems']; try done; rewrite /alloc in Hrun |- *.
    + destruct (copy_items (deepcopy depth) _ items _ _) as [hA2 [mA2|e]] eqn:Hloop;
        last done.
      injection Hrun as <- <- <-.
      destruct (copy_items_sim _ _ _ _ IH HyA HyB items items' Hobj _ _ _ _
                  (<[fresh (dom hB) := ODict []]> hB) (<[y := fresh (dom hB)]> mB) Hloop)
        as (hB2 & mB2 & -> & Hs2).
      { apply sim_state_store; [|done|done]. by apply sim_state_record. }
      by eexists _, _, _.
    + destruct (copy_elems (deepcopy depth) _ elems _ _) as [hA2 [mA2|e]] eqn:Hloop;
        last done.
      injection Hrun as <- <- <-.
      destruct (copy_elems_sim _ _ _ _ IH HyA HyB elems elems' Hobj _ _ _ _
                  (<[fresh (dom hB) := OList []]> hB) (<[y := fresh (dom hB)]> mB) Hloop)
        as (hB2 & mB2 & -> & Hs2).
      { apply sim_state_store; [|done|done]. by apply sim_state_record. }
      by eexists _, _, _.
Qed.

(** From the empty memo on both sides. *)
Lemma copy_deepcopy_sim depth l y hA' mA' vA :
  φ !! l = Some y →
  deepcopy depth hA0 ∅ (VRef l) = (hA', Ok (mA', vA)) →
  ∃ hB' vB, copy_deepcopy depth hB0 (VRef y) = (hB', Ok vB).
Proof.
  intros Hl Hrun.
  destruct (deepcopy_sim depth _ _ _ _ _ _ hB0 ∅ (VRef y) Hrun Hl)
    as (hB' & mB' & vB & HrunB & _).
  { by split. }
  exists hB', vB. by rewrite /copy_deepcopy HrunB.
Qed.

End SameShape.

Lemma schema_lookup_path h v w :
  (py_getitem h v "json_schema" ≫= λ json_schema, py_getitem h json_schema "schema")
  = Ok w
  ↔ lookup_path h v schema_path = Some w.
Proof.
  rewrite /schema_path (lookup_path_app _ _ [_] [_]).
  destruct (py_getitem h v "json_schema") as [js|e] eqn:Hjs.
  - apply py_getitem_lookup_path in Hjs. rewrite Hjs /=.
    apply py_getitem_lookup_path.
  - split; first done.
    destruct (lookup_path h v [PKey "json_schema"]) as [js|] eqn:Hp; last done.
    apply py_getitem_lookup_path in Hp. congruence.
Qed.

Lemma has_json_schema_type_path h a items :
  h !! a = Some (ODict items) →
  has_json_schema_type items = true
  ↔ lookup_path h (VRef a) [PKey "type"] = Some (VAtom (AStr "json_schema")).
Proof.
  intros Ha. rewrite /has_json_schema_type /= Ha.
  destruct (dict_get items "type") as [v|]; simpl; last done.
  destruct v as [[| | |s|]|]; simpl; try done.
  rewrite bool_decide_eq_true. split; [by intros ->|by intros [= ->]].
Qed.

(** X11.  Under a stable template, handing the helper what it returned
    gives a plain copy: the second call returns, and its result has at
    every path, the ["$ref"] keys included, the atom the first result has
    there, and no other. *)
Theorem helper_twice
    (format : string → string → result string) (recursion_depth : nat)
    (h : heap) (a : addr) (items : list (string * value)) (template : string) :
  stable_template format template →
  heap_wf h →
  h !! a = Some (ODict items) →
  has_json_schema_type items = true →
  ∃ h' r,
    _dict_to_response_format_helper format recursion_depth h (VRef a) (Some template)
    = Some (h', r)
    ∧ ∀ v, r = Ok v →
        ∃ h'' v',
          _dict_to_response_format_helper format recursion_depth h' v (Some template)
          = Some (h'', Ok v')
          ∧ v' ≠ v
          ∧ ∀ p c, lookup_path h'' v' p = Some (VAtom c)
                   ↔ lookup_path h' v p = Some (VAtom c).
Proof.
  intros Hstable Hwf Ha Htype.
  destruct (helper_run format recursion_depth h a items template Hwf Ha Htype)
    as [(h1 & _ & _ & Hrun)|(h1 & m1 & y & _ & Hdeep & Hdc & Hy & Hrun)];
    first by (rewrite Hrun; eexists _, _).
  destruct (py_getitem h1 (VRef y) "json_schema"
            ≫= λ json_schema, py_getitem h1 json_schema "schema")
    as [schema|e] eqn:Hschema; last by (rewrite Hrun; eexists _, _).
  destruct Hrun as (out & Hrun1 & Hpost & _ & Hhelper).
  eexists _, _. split; first exact Hhelper. intros v Hv.
  destruct (out_result out) as [[]|] eqn:Hok; last done.
  injection Hv as <-.
  pose proof (update_refs_nodes _ _ _ _ _ Hrun1) as Hnodes.
  set (h' := out_heap out) in *.
  assert (heap_wf h') as Hwf'.
  { eapply ref_rewritten_wf; last done. by eapply deep_copy_wf. }
  assert (copy_of m1 (VRef a) (VRef y)) as Hroot by by exists y.
  (* the first result is a mapping of type "json_schema" *)
  assert (lookup_path h' (VRef y) [PKey "type"] = Some (VAtom (AStr "json_schema")))
    as Htype'.
  { rewrite (ref_rewritten_lookup_path _ _ _ _ Hnodes); last set_solver.
    apply (has_json_schema_type_path _ _ _ Ha) in Htype.
    destruct (deep_copy_lookup_path _ _ _ _ _ Hdc _ _ _ _ Hroot Htype)
      as (w & Hw & Hcopy).
    simpl in Hcopy. congruence. }
  assert (∃ items', h' !! y = Some (ODict items')) as [items' Hy'].
  { simpl in Htype'. destruct (h' !! y) as [[items'|]|]; try done. by eexists. }
  apply (has_json_schema_type_path _ _ _ Hy') in Htype'.
  (* its schema is the one the first run worked on *)
  assert (lookup_path h' (VRef y) schema_path = Some schema) as Hschema'.
  { rewrite (ref_rewritten_lookup_path _ _ _ _ Hnodes); last set_solver.
    by apply schema_lookup_path. }
  (* the copy of the result nests as the copy of the input did *)
  assert (∃ hc xc, copy_deepcopy recursion_depth h' (VRef y) = (hc, Ok xc))
    as (hc & xc & Hfits).
  { eapply (copy_deepcopy_sim h h' m1); [| |exact Hy|exact Hdeep].
    - apply (ci_inj _ _ _ (dc_inv _ _ _ _ _ Hdc)).
    - intros l0 y0 Hl0.
      destruct (dc_full _ _ _ _ _ Hdc l0 y0 Hl0) as (o & o1 & Ho & Ho1 & Hobj).
      pose proof (Hnodes y0) as Hnode. rewrite Ho1 in Hnode.
      destruct (h' !! y0) as [o'|] eqn:Ho';
        last by destruct Hnode as [?|(? & ? & ? & ? & _ & _ & _ & _ & ?)].
      exists o, o'. split_and!; try done.
      eapply ref_rewritten_obj_sim; last done. by apply obj_copy_obj_sim. }
  (* the second call *)
  destruct (helper_run format recursion_depth h' y items' template Hwf' Hy' Htype')
    as [(h2 & Hraised & _)|(h2 & m2 & y2 & _ & _ & Hdc2 & Hy2 & Hrun2)].
  { by rewrite Hfits in Hraised. }
  assert (copy_of m2 (VRef y) (VRef y2)) as Hroot2 by by exists y2.
  destruct (deep_copy_lookup_path _ _ _ _ _ Hdc2 _ _ _ _ Hroot2 Hschema')
    as (schema2 & Hschema2 & Hcopy2).
  apply schema_lookup_path in Hschema2. rewrite Hschema2 in Hrun2.
  destruct Hrun2 as (out2 & Hrun2 & _ & _ & Hhelper2).
  destruct (update_refs_fixed format template h2 schema2)
    as (out2' & Hrun2' & Hok2 & Hheap2).
  { intros l2 items2 Hreach2 Hl2.
    destruct (deep_copy_reachable_back _ _ _ _ _ _ _ _ Hdc2 Hcopy2 Hreach2)
      as (l & Hreach & Hl).
    destruct (dc_full _ _ _ _ _ Hdc2 l l2 Hl) as (o & o2 & Ho & Ho2 & Hobj).
    assert (o2 = ODict items2) as -> by congruence.
    destruct o as [items1|]; last done.
    eapply rewrite_ref_copy_fixed; first exact Hobj.
    eapply update_refs_returned_fixed; [done|exact Hpost|done| |exact Ho].
    by apply (ref_rewritten_reachable _ _ _ _ Hnodes). }
  assert (out2' = out2) as -> by congruence.
  rewrite Hok2 Hheap2 /= in Hhelper2.
  exists h2, (VRef y2). split_and!; first done.
  - intros [= ->].
    destruct (ci_memo _ _ _ (dc_inv _ _ _ _ _ Hdc2) _ _ Hy2) as (_ & Hnone & _).
    congruence.
  - intros p c. split; intros Hpath.
    + destruct (deep_copy_lookup_path_back _ _ _ _ _ Hdc2 _ _ _ _ Hroot2 Hpath)
        as (w & Hw & Hcopy).
      destruct w as [c0|l0]; simpl in Hcopy; first congruence.
      by destruct Hcopy as (? & _ & ?).
    + destruct (deep_copy_lookup_path _ _ _ _ _ Hdc2 _ _ _ _ Hroot2 Hpath)
        as (w' & Hw' & Hcopy).
      simpl in Hcopy. congruence.
Qed.

Lemma helper_twice_witness :
  ∃ h' r,
    _dict_to_response_format_helper str_format stack_room shared_schema_heap (VRef 1)
      (Some "provider/{model}") = Some (h', r)
    ∧ ∀ v, r = Ok v →
        ∃ h'' v',
          _dict_to_response_format_helper str_format stack_room h' v
            (Some "provider/{model}")
          = Some (h'', Ok v')
          ∧ v' ≠ v
          ∧ ∀ p c, lookup_path h'' v' p = Some (VAtom c)
                   ↔ lookup_path h' v p = Some (VAtom c).
Proof.
  apply (helper_twice str_format stack_room shared_schema_heap 1
           [("type", VAtom (AStr "json_schema")); ("title", VAtom (AStr "T"));
            ("json_schema", VRef 2); ("again", VRef 3)]).
  - apply provider_template_stable.
  - apply shared_schema_heap_wf.
  - reflexivity.
  - reflexivity.
Defined.

(** Under ["x/{model}/y"], which is not stable, the second call rewrites
    again: ["x/Foo/y"] becomes ["x/y/y"]. *)
Example unstable_template_rewrites_again :
  let r1 := _dict_to_response_format_helper str_format stack_room
              (envelope_heap (VAtom (AStr "#/defs/Foo"))) (VRef 1) (Some "x/{model}/y") in
  let r2 := r1 ≫= λ hr, match hr.2 with
                        | Ok v => _dict_to_response_format_helper str_format stack_room hr.1 v
                                    (Some "x/{model}/y")
                        | Raise _ => None
                        end in
  returned_at r1 ref_field = Some (VAtom (AStr "x/Foo/y"))
  ∧ returned_at r2 ref_field = Some (VAtom (AStr "x/y/y")).
Proof. by vm_compute. Qed.

(** ** When a run returns, for any template *)

(** X12.  For any template, well formed or not: the run returns exactly
    when every dict reachable from the schema has no ["$ref"] or a string
    there whose last segment the template formats; and when it raises, the
    exception is the one the rewrite of some reachable dict raises. *)
Theorem update_refs_returns_iff
    (format : string → string → result string) (template : string)
    (h : heap) (schema : value) :
  ∃ out,
    update_refs format template h schema = Some out
    ∧ (out_result out = Ok () ↔ refs_formattable format template h schema)
    ∧ ∀ e, out_result out = Raise e →
        ∃ l items, reachable h schema l ∧ h !! l = Some (ODict items)
                   ∧ rewrite_ref format template items = Raise e.
Proof.
  destruct (update_refs_post format template h schema) as (out & Hrun & Hpost).
  exists out. split_and!; first done.
  - by apply loop_post_returns_iff.
  - intros e Hres. by apply (post_raise _ _ _ _ _ Hpost).
Qed.

(** A template that names another field than [model]: the first ["$ref"]
    met makes the run raise [KeyError], the heap as it was. *)
Example update_refs_template_key_error :
  let h : heap := {[ 1%positive := ODict [("$ref", VAtom (AStr "#/defs/Foo"))] ]} in
  update_refs str_format "provider/{name}" h (VRef 1)
  = Some (Outcome h [1%positive] (builtin_error KeyError)).
Proof. by vm_compute. Qed.

(** ** The whole normalizer changes no object *)

Lemma alloc_frame (h : heap) o :
  ∀ l, is_Some (h !! l) → (alloc h o).1 !! l = h !! l.
Proof.
  intros l [o' Hl]. rewrite /alloc /= lookup_insert_ne //.
  intros <-. assert (h !! fresh (dom h) = None) by apply not_elem_of_dom, is_fresh.
  congruence.
Qed.

(** X13.  Whatever it is given ([None], a mapping, a model class, anything
    else) and with or without a template, the call returns or raises, and
    every object that was there before is afterwards as it was, as long as
    the two schema builders it calls change none. *)
Theorem normalize_changes_no_object
    (format : string → string → result string)
    (recursion_depth : nat)
    (repr_extern : heap → value → result string)
    (model_json_schema : heap → value → string → heap * result value)
    (to_strict_json_schema : heap → value → heap * result value)
    (h : heap) (response_format : value) (ref_template : option string) :
  heap_wf h →
  (∀ cls template l, is_Some (h !! l) →
     (model_json_schema h cls template).1 !! l = h !! l) →
  (∀ cls l, is_Some (h !! l) → (to_strict_json_schema h cls).1 !! l = h !! l) →
  ∃ h' r,
    type_to_response_format_param format recursion_depth repr_extern model_json_schema
      to_strict_json_schema h response_format ref_template = Some (h', r)
    ∧ ∀ l, is_Some (h !! l) → h' !! l = h !! l.
Proof.
  intros Hwf Hmodel Hstrict.
  destruct (is_dict h response_format) eqn:Hdict.
  - destruct response_format as [c|a]; first done. simpl in Hdict.
    destruct (h !! a) as [[items|]|] eqn:Ha; try done.
    rewrite (normalize_dict _ _ _ _ _ _ _ items) //.
    destruct ref_template as [template|]; last by eexists _, _.
    destruct (has_json_schema_type items) eqn:Htype.
    + destruct (helper_rewrites format recursion_depth h a items template Hwf Ha Htype)
        as (h' & r & Hrun & Hframe & _).
      by exists h', r.
    + rewrite (helper_passthrough _ _ _ _ items) //; last by right.
      by eexists _, _.
  - destruct (is_basemodel_type response_format) eqn:Hcls.
    2:{ assert (response_format = VAtom ANone ∨ response_format ≠ VAtom ANone)
          as [->|Hnone].
        { destruct response_format as [[]|]; (by left) || (by right). }
        - by eexists _, _.
        - rewrite normalize_unsupported //. by eexists _, _. }
    destruct response_format as [[| | | |name []]|]; try done.
    rewrite /type_to_response_format_param /=.
    set (built := match ref_template with
                  | Some template => model_json_schema h (VAtom (AClass name true)) template
                  | None => to_strict_json_schema h (VAtom (AClass name true))
                  end).
    assert (∀ l, is_Some (h !! l) → built.1 !! l = h !! l) as Hbuilt.
    { rewrite /built. destruct ref_template; [apply Hmodel|apply Hstrict]. }
    destruct built as [h1 [schema|e]]; simpl in Hbuilt; last by eexists _, _.
    eexists _, _. split; first done. intros l Hl.
    assert (is_Some (h1 !! l)) as Hl1 by by rewrite Hbuilt.
    rewrite -Hbuilt //.
    pose proof (alloc_frame h1
      (ODict [("schema", schema); ("name", VAtom (AStr name));
              ("strict", VAtom (ABool true))]) l Hl1) as Hjs.
    rewrite /alloc /= in Hjs. rewrite -Hjs.
    apply (alloc_frame _ _ l). simpl. by rewrite Hjs.
Qed.

Lemma empty_schema_frame (h : heap) cls l :
  is_Some (h !! l) → (empty_schema h cls).1 !! l = h !! l.
Proof. apply alloc_frame. Qed.

Lemma normalize_changes_no_object_witness :
  ∃ h' r,
    normalize_with_str_format shared_schema_heap (VAtom (AClass "Foo" true))
      (Some "provider/{model}") = Some (h', r)
    ∧ ∀ l, is_Some (shared_schema_heap !! l) → h' !! l = shared_schema_heap !! l.
Proof.
  apply (normalize_changes_no_object str_format stack_room repr_opaque
           (λ h cls _, empty_schema h cls) empty_schema).
  - apply shared_schema_heap_wf.
  - intros cls _. apply empty_schema_frame.
  - apply empty_schema_frame.
Defined.

(** ** When the helper returns *)

Section CopiedForward.

Variables (h0 : heap) (x : value) (h' : heap) (m' : memo) (x' : value).
Hypothesis Hcopy : deep_copy h0 x h' m' x'.




End CopiedForward.



(** A mapping nested deeper than the stack has room for: the copy raises
    [RecursionError], the helper with it, and the input is as it was. *)
Definition nested_heap : heap :=
  list_to_map [
    (1%positive, ODict [("type", VAtom (AStr "json_schema")); ("json_schema", VRef 2)]);
    (2%positive, ODict [("schema", VRef 3)]);
    (3%positive, ODict [("items", VRef 4)]);
    (4%positive, ODict [])].

Example helper_recursion_error :
  (let (h', r) := copy_deepcopy 3 nested_heap (VRef 1) in
   r = builtin_error RecursionError
   ∧ ∀ l, is_Some (nested_heap !! l) → h' !! l = nested_heap !! l)
  ∧ (snd <$> _dict_to_response_format_helper str_format 3 nested_heap (VRef 1)
               (Some "provider/{model}"))
    = Some (builtin_error RecursionError)
  ∧ (snd <$> _dict_to_response_format_helper str_format 4 nested_heap (VRef 1)
               (Some "provider/{model}"))
    = Some (Ok (VRef 5)).
Proof.
  split_and!; [|by vm_compute..].
  destruct (copy_deepcopy 3 nested_heap (VRef 1)) as [h' r] eqn:Hcopy.
  split; first by (vm_compute in Hcopy; injection Hcopy as _ <-).
  intros l Hl. rewrite /copy_deepcopy in Hcopy.
  destruct (deepcopy 3 nested_heap ∅ (VRef 1)) as [h2 r2] eqn:Hrun.
  assert (h' = h2) as -> by by destruct r2 as [[]|]; injection Hcopy.
  by eapply deepcopy_frame.
Qed.
